(** * Process launcher: shutdown protocol and readiness wait

    A shallow embedding of [src/server/processLauncher.ts].

    The module is event driven: Node delivers serialized callbacks (child
    exit, stream lines, timers, host signals) and every handler runs to
    completion, followed by the promise reactions it made ready.  Each
    handler is embedded as a function on an explicit state record holding
    the closure variables of the source; the environment's choices (which
    event comes next, exit codes, whether a directory can be removed) are
    the inputs.  Every observable call the source makes (logger, the
    caller's callbacks, signals sent, directory removals, promise
    settlements) is appended to a trace, so that ordering claims are
    statements about that trace. *)

From stdpp Require Import gmap strings list pretty.

(** ** JavaScript values shared by both exported functions *)

(** An [Error] object, as far as the source looks at it: [name] tells a
    [TimeoutError] from a plain [Error], [message] is what is printed. *)
Record Error := { name : string; message : string }.

Global Instance Error_eq_dec : EqDecision Error.
Proof. solve_decision. Defined.

(** [new Error(msg)] *)
Definition new_Error (msg : string) : Error := {| name := "Error"; message := msg |}.

(** [String(error)], used by [+] on a string and an error. *)
Definition Error_toString (e : Error) : string := name e +:+ ": " +:+ message e.

(** [Array.prototype.join] on strings. *)
Fixpoint join (sep : string) (parts : list string) : string :=
  match parts with
  | [] => ""
  | [p] => p
  | p :: rest => p +:+ sep +:+ join sep rest
  end.

(** The one-character string holding a line feed, ['\n'] in the source. *)
Definition LF : string := String (Ascii.ascii_of_nat 10) "".

(** [s] occurs in [t] as a contiguous piece. *)
Definition occurs_in (s t : string) : Prop :=
  ∃ before after, t = before +:+ s +:+ after.

(** ** [waitForLine] *)

Module WaitForLine.

Section LineAwaiter.

(** [RegExpMatchArray] and [String.prototype.match] belong to the
    JavaScript runtime: the pattern is any function from a line to an
    optional match ([null] is [None]). *)
Context {RegExpMatchArray : Type}.
Variable regex : string → option RegExpMatchArray.
(** [timeout] in milliseconds; [0] disables the timer. *)
Variable timeout : N.
Variable timeoutError : Error.

(** What Node can deliver to the four emitters the function listens to,
    and the timer. *)
Inductive event :=
| RlLine (line : string)       (* rl 'line' *)
| RlClose                      (* rl 'close' *)
| ProcessExit                  (* process 'exit' *)
| ProcessError (error : Error) (* process 'error' *)
| TimerElapsed.                (* the timer set by setTimeout comes due *)

(** The entries of the [listeners] array. *)
Inductive listener := OnLine | OnRlClose | OnProcessExit | OnProcessError.

Global Instance listener_eq_dec : EqDecision listener.
Proof. solve_decision. Defined.

(** How the returned promise was settled. *)
Inductive settled :=
| Resolved (m : RegExpMatchArray)
| Rejected (e : Error).

Record state := {
  stderr : string;               (* let stderr = '' *)
  listeners : list listener;     (* registrations still attached *)
  timeoutId : N;                 (* 0 when no timer was set *)
  timerActive : bool;            (* the timer is still scheduled *)
  promise : option settled;      (* None while pending *)
}.

(** [timeout ? setTimeout(onTimeout, timeout) : 0]; timer handles are
    positive numbers. *)
Definition initial : state :=
  {| stderr := "";
     listeners := [OnLine; OnRlClose; OnProcessExit; OnProcessError];
     timeoutId := if (timeout =? 0)%N then 0%N else 1%N;
     timerActive := negb (timeout =? 0)%N;
     promise := None |}.

(** [resolve] and [reject] of a promise act the first time only. *)
Definition settle (s : settled) (st : state) : state :=
  match promise st with
  | Some _ => st
  | None => {| stderr := stderr st; listeners := listeners st;
               timeoutId := timeoutId st; timerActive := timerActive st;
               promise := Some s |}
  end.

(** [cleanup]: [clearTimeout] when a timer was set, then
    [helper.removeEventListeners(listeners)], which detaches every
    registration of the array (see [Launcher.removeEventListeners]). *)
Definition cleanup (st : state) : state :=
  {| stderr := stderr st;
     listeners := [];
     timeoutId := timeoutId st;
     timerActive := if (timeoutId st =? 0)%N then timerActive st else false;
     promise := promise st |}.

Definition TROUBLESHOOTING : string :=
  "TROUBLESHOOTING: https://github.com/Microsoft/playwright/blob/master/docs/troubleshooting.md".

Definition failure_message (error : option Error) (collected : string) : string :=
  join LF
    [ "Failed to launch browser!" +:+
        match error with Some e => " " +:+ message e | None => "" end;
      collected;
      "";
      TROUBLESHOOTING;
      "" ].

Definition onClose (error : option Error) (st : state) : state :=
  let st := cleanup st in
  settle (Rejected (new_Error (failure_message error (stderr st)))) st.

Definition onTimeout (st : state) : state :=
  let st := cleanup st in
  settle (Rejected timeoutError) st.

Definition onLine (line : string) (st : state) : state :=
  let st := {| stderr := stderr st +:+ line +:+ LF;
               listeners := listeners st; timeoutId := timeoutId st;
               timerActive := timerActive st; promise := promise st |} in
  match regex line with
  | None => st
  | Some m => settle (Resolved m) (cleanup st)
  end.

(** An emitter calls a handler only while its registration is attached;
    a cleared timer never comes due, and a timer comes due once. *)
Definition step (st : state) (ev : event) : state :=
  match ev with
  | RlLine line => if decide (OnLine ∈ listeners st) then onLine line st else st
  | RlClose => if decide (OnRlClose ∈ listeners st) then onClose None st else st
  | ProcessExit => if decide (OnProcessExit ∈ listeners st) then onClose None st else st
  | ProcessError e =>
      if decide (OnProcessError ∈ listeners st) then onClose (Some e) st else st
  | TimerElapsed =>
      if timerActive st
      then onTimeout {| stderr := stderr st; listeners := listeners st;
                        timeoutId := timeoutId st; timerActive := false;
                        promise := promise st |}
      else st
  end.

Definition run (st : state) (evs : list event) : state := foldl step st evs.

(** The stream closing, the process exiting, or a spawn error. *)
Definition terminates (ev : event) : Prop :=
  match ev with
  | RlClose | ProcessExit | ProcessError _ => True
  | _ => False
  end.

Definition error_of (ev : event) : option Error :=
  match ev with ProcessError e => Some e | _ => None end.

(** The lines carried by a list of events, concatenated the way
    [onLine] collects them. *)
Fixpoint collected (evs : list event) : string :=
  match evs with
  | [] => ""
  | RlLine l :: rest => l +:+ LF +:+ collected rest
  | _ :: rest => collected rest
  end.

Definition all_attached : list listener :=
  [OnLine; OnRlClose; OnProcessExit; OnProcessError].

(** While the promise is pending every listener is attached; once it is
    settled none is and no timer is scheduled. *)
Definition consistent (st : state) : Prop :=
  (timeoutId st = 0%N → timerActive st = false) ∧
  match promise st with
  | None => listeners st = all_attached
  | Some _ => listeners st = [] ∧ timerActive st = false
  end.

End LineAwaiter.

End WaitForLine.

(** ** [launchProcess] *)

Module Launcher.

(** *** Collaborators *)

(** [Log] of [../logger]: the channel a message is logged under. *)
Record Log := { log_name : string; severity : option string }.

Definition browserLog : Log := {| log_name := "browser"; severity := None |}.
Definition browserStdOutLog : Log := {| log_name := "browser:out"; severity := None |}.
Definition browserStdErrLog : Log :=
  {| log_name := "browser:err"; severity := Some "warning" |}.

(** [LaunchProcessOptions].  The optional flags are booleans ([undefined]
    is falsy).  [env] is handed to [spawn] untouched and left out.  The two
    callbacks and the logger are the caller's code: calling them is
    recorded in the trace, [attemptToGracefullyClose] returns a promise
    that the caller settles later, and [onExit] and [logger._log] return
    normally, as their types say. *)
Record LaunchProcessOptions := {
  executablePath : string;
  args : list string;
  handleSIGINT : bool;
  handleSIGTERM : bool;
  handleSIGHUP : bool;
  pipe : bool;
  tempDirectories : list string;
  cwd : option string;
}.

(** The child's two output streams. *)
Inductive stream := Stdout | Stderr.

(** The registrations kept in the [listeners] array, all on the host
    [process]. *)
Inductive listener := OnHostExit | OnSIGINT | OnSIGTERM | OnSIGHUP.

Inductive hostSignal := SIGINT | SIGTERM | SIGHUP.

(** The three ways a promise is handed out by the launch result: the
    first-call and the reentrant branch of [gracefullyClose], and
    [killAndWait]. *)
Inductive path := FirstPath | ReentrantPath | KillPath.

(** Who holds the returned promise.  The SIGINT listener chains
    [process.exit(130)] to it; the SIGTERM and SIGHUP listeners drop it. *)
Inductive caller := Direct | FromSIGINT | FromSignal.

(** Where an invocation is suspended: the three [await]s of
    [gracefullyClose] (lines 152, 153 and 147), the [waitForCleanup]
    promise [killAndWait] returned, or how the invocation ended. *)
Inductive pc :=
| AwaitAttempt
| AwaitCleanup
| AwaitClose
| KillWait
| Fulfilled (p : path)
| Rejected (p : path) (e : Error).

Record call := { who : caller; at_ : pc }.

(** Everything the module does that is visible outside it. *)
Inductive action :=
| Logged (log : Log) (msg : string)
| Spawned (executable : string) (argv : list string) (detached : bool)
    (dir : option string) (stdio : list string)
| ReaderAttached (s : stream) (log : Log)
| AttemptCalled
  (** [options.onExit(exitCode, signal)]; [attached] records the host
      listeners still registered at the time of the call. *)
| OnExitCalled (exitCode : option Z) (signal : option string) (attached : list listener)
| ListenersRemoved
| GroupKill (pid : Z) (delivered : bool)   (* process.kill(-pid, 'SIGKILL') *)
| Taskkill (pid : Z) (succeeded : bool)    (* execSync(`taskkill /pid .. /T /F`) *)
| RemovedSync (dir : string) (ok : bool)   (* removeFolder.sync(dir) *)
| RemovalStarted (dir : string)            (* removeFolderAsync(dir) *)
| RemovedAsync (dir : string) (ok : bool)  (* ... and its completion *)
| ConsoleError (e : Error)
| FulfillClose
| FulfillCleanup
| Fulfils (p : path) (id : nat)            (* the promise of invocation [id] resolves *)
| Rejects (p : path) (id : nat) (e : Error)
| HostExit (code : Z)                      (* process.exit(code) *)
| Uncaught (e : Error).                    (* an exception escaped a handler *)

Global Instance Log_eq_dec : EqDecision Log.
Proof. solve_decision. Defined.
Global Instance stream_eq_dec : EqDecision stream.
Proof. solve_decision. Defined.
Global Instance listener_eq_dec : EqDecision listener.
Proof. solve_decision. Defined.
Global Instance path_eq_dec : EqDecision path.
Proof. solve_decision. Defined.
Global Instance caller_eq_dec : EqDecision caller.
Proof. solve_decision. Defined.
Global Instance pc_eq_dec : EqDecision pc.
Proof. solve_decision. Defined.
Global Instance call_eq_dec : EqDecision call.
Proof. solve_decision. Defined.
Global Instance action_eq_dec : EqDecision action.
Proof. solve_decision. Defined.

(** *** The file system, as [rimraf] sees it *)

(** A directory that exists can either be removed or not (busy, locked,
    not permitted).  A path absent from the map does not exist. *)
Inductive dirent := Removable | Stuck.

Global Instance dirent_eq_dec : EqDecision dirent.
Proof. solve_decision. Defined.

(** [rimraf]: removing a missing directory succeeds and changes nothing. *)
Definition rimraf (dir : string) (fs : gmap string dirent)
    : option Error * gmap string dirent :=
  match fs !! dir with
  | None => (None, fs)
  | Some Removable => (None, delete dir fs)
  | Some Stuck => (Some (new_Error ("EBUSY: resource busy or locked, rmdir '" +:+ dir +:+ "'")), fs)
  end.

(** *** State *)

Record state := {
  (* the ChildProcess object and the process behind it *)
  child_pid : option Z;           (* spawnedProcess.pid *)
  child_killed : bool;            (* spawnedProcess.killed *)
  alive : bool;                   (* the child's process group still exists *)
  (* the rest of the world *)
  fs : gmap string dirent;
  hostExited : bool;              (* the host process is gone *)
  (* registrations *)
  exitObserver : bool;            (* spawnedProcess.once('exit', ..) not yet fired *)
  readers : list (stream * Log);  (* readline interfaces with a 'line' listener *)
  listeners : list listener;      (* const listeners *)
  (* closure variables *)
  processClosed : bool;
  gracefullyClosing : bool;
  waitForClose : bool;            (* true once fulfilled *)
  waitForCleanup : bool;          (* true once fulfilled *)
  (* asynchronous work in flight *)
  cleaning : bool;                (* the exit observer's cleanup() has not resolved *)
  removing : list string;         (* removeFolderAsync calls not yet completed *)
  calls : list call;              (* invocations of gracefullyClose and kill *)
  trace : list action;
}.

Definition set_child_killed v st := Build_state (child_pid st) v (alive st) (fs st)
  (hostExited st) (exitObserver st) (readers st) (listeners st) (processClosed st)
  (gracefullyClosing st) (waitForClose st) (waitForCleanup st) (cleaning st)
  (removing st) (calls st) (trace st).
Definition set_alive v st := Build_state (child_pid st) (child_killed st) v (fs st)
  (hostExited st) (exitObserver st) (readers st) (listeners st) (processClosed st)
  (gracefullyClosing st) (waitForClose st) (waitForCleanup st) (cleaning st)
  (removing st) (calls st) (trace st).
Definition set_fs v st := Build_state (child_pid st) (child_killed st) (alive st) v
  (hostExited st) (exitObserver st) (readers st) (listeners st) (processClosed st)
  (gracefullyClosing st) (waitForClose st) (waitForCleanup st) (cleaning st)
  (removing st) (calls st) (trace st).
Definition set_hostExited v st := Build_state (child_pid st) (child_killed st) (alive st)
  (fs st) v (exitObserver st) (readers st) (listeners st) (processClosed st)
  (gracefullyClosing st) (waitForClose st) (waitForCleanup st) (cleaning st)
  (removing st) (calls st) (trace st).
Definition set_exitObserver v st := Build_state (child_pid st) (child_killed st) (alive st)
  (fs st) (hostExited st) v (readers st) (listeners st) (processClosed st)
  (gracefullyClosing st) (waitForClose st) (waitForCleanup st) (cleaning st)
  (removing st) (calls st) (trace st).
Definition set_listeners v st := Build_state (child_pid st) (child_killed st) (alive st)
  (fs st) (hostExited st) (exitObserver st) (readers st) v (processClosed st)
  (gracefullyClosing st) (waitForClose st) (waitForCleanup st) (cleaning st)
  (removing st) (calls st) (trace st).
Definition set_processClosed v st := Build_state (child_pid st) (child_killed st) (alive st)
  (fs st) (hostExited st) (exitObserver st) (readers st) (listeners st) v
  (gracefullyClosing st) (waitForClose st) (waitForCleanup st) (cleaning st)
  (removing st) (calls st) (trace st).
Definition set_gracefullyClosing v st := Build_state (child_pid st) (child_killed st)
  (alive st) (fs st) (hostExited st) (exitObserver st) (readers st) (listeners st)
  (processClosed st) v (waitForClose st) (waitForCleanup st) (cleaning st)
  (removing st) (calls st) (trace st).
Definition set_waitForClose v st := Build_state (child_pid st) (child_killed st) (alive st)
  (fs st) (hostExited st) (exitObserver st) (readers st) (listeners st) (processClosed st)
  (gracefullyClosing st) v (waitForCleanup st) (cleaning st)
  (removing st) (calls st) (trace st).
Definition set_waitForCleanup v st := Build_state (child_pid st) (child_killed st) (alive st)
  (fs st) (hostExited st) (exitObserver st) (readers st) (listeners st) (processClosed st)
  (gracefullyClosing st) (waitForClose st) v (cleaning st)
  (removing st) (calls st) (trace st).
Definition set_cleaning v st := Build_state (child_pid st) (child_killed st) (alive st)
  (fs st) (hostExited st) (exitObserver st) (readers st) (listeners st) (processClosed st)
  (gracefullyClosing st) (waitForClose st) (waitForCleanup st) v
  (removing st) (calls st) (trace st).
Definition set_removing v st := Build_state (child_pid st) (child_killed st) (alive st)
  (fs st) (hostExited st) (exitObserver st) (readers st) (listeners st) (processClosed st)
  (gracefullyClosing st) (waitForClose st) (waitForCleanup st) (cleaning st)
  v (calls st) (trace st).
Definition set_calls v st := Build_state (child_pid st) (child_killed st) (alive st)
  (fs st) (hostExited st) (exitObserver st) (readers st) (listeners st) (processClosed st)
  (gracefullyClosing st) (waitForClose st) (waitForCleanup st) (cleaning st)
  (removing st) v (trace st).
Definition set_trace v st := Build_state (child_pid st) (child_killed st) (alive st)
  (fs st) (hostExited st) (exitObserver st) (readers st) (listeners st) (processClosed st)
  (gracefullyClosing st) (waitForClose st) (waitForCleanup st) (cleaning st)
  (removing st) (calls st) v.

(** Appends to the trace. *)
Definition emit (acts : list action) (st : state) : state :=
  set_trace (trace st ++ acts) st.

(** *** Synchronous code that may throw *)

Inductive completion (A : Type) :=
| Normal (a : A)
| Throw (e : Error).
Arguments Normal {A} a.
Arguments Throw {A} e.

Definition M (A : Type) : Type := state → completion A * state.

Global Instance M_ret : MRet M := λ A a st, (Normal a, st).
Global Instance M_bind : MBind M := λ A B f m st,
  match m st with
  | (Normal a, st') => f a st'
  | (Throw e, st') => (Throw e, st')
  end.

Definition get : M state := λ st, (Normal st, st).
Definition modify (f : state → state) : M unit := λ st, (Normal (), f st).

(** [try { body } catch (e) { handler(e) }] *)
Definition try_catch {A} (body : M A) (handler : Error → M A) : M A := λ st,
  match body st with
  | (Normal a, st') => (Normal a, st')
  | (Throw e, st') => handler e st'
  end.

(** [for (const x of xs) body(x)] *)
Fixpoint for_of {A} (xs : list A) (body : A → M unit) : M unit :=
  match xs with
  | [] => mret ()
  | x :: xs' => body x ;; for_of xs' body
  end.

Definition log (l : Log) (msg : string) : M unit := modify (emit [Logged l msg]).

(** JavaScript truthiness of [spawnedProcess.pid]. *)
Definition truthy_pid (p : option Z) : bool :=
  match p with Some n => negb (n =? 0)%Z | None => false end.

Definition pid_text (p : option Z) : string :=
  match p with Some n => pretty n | None => "undefined" end.

(** Modelled from the spec: [helper.removeEventListeners(listeners)];
    [../helper] is not among the sources.  The spec asks of listener
    removal that it detaches every registration it is given, is idempotent
    and never throws on double removal; the array is left empty. *)
Definition removeEventListeners : M unit :=
  modify (λ st, emit [ListenersRemoved] (set_listeners [] st)).

(** [process.kill(-pid, 'SIGKILL')]: throws when the group is gone. *)
Definition process_kill (pid : Z) : M unit := λ st,
  if alive st
  then (Normal (), emit [GroupKill pid true] (set_alive false st))
  else (Throw (new_Error "kill ESRCH"), emit [GroupKill pid false] st).

(** [childProcess.execSync(`taskkill /pid ${pid} /T /F`)]: throws when
    the command fails. *)
Definition execSync_taskkill (pid : Z) : M unit := λ st,
  if alive st
  then (Normal (), emit [Taskkill pid true] (set_alive false st))
  else (Throw (new_Error "Command failed: taskkill"), emit [Taskkill pid false] st).

(** [removeFolder.sync(dir)] *)
Definition removeFolder_sync (dir : string) : M unit := λ st,
  match rimraf dir (fs st) with
  | (None, fs') => (Normal (), emit [RemovedSync dir true] (set_fs fs' st))
  | (Some e, fs') => (Throw e, emit [RemovedSync dir false] (set_fs fs' st))
  end.

Section Launch.

Variable options : LaunchProcessOptions.
(** [process.platform] *)
Variable platform : string.

(** This method has to be sync to be used as 'exit' event handler. *)
Definition killProcess : M unit :=
  log browserLog "<kill>" ;;
  removeEventListeners ;;
  st ← get;
  (if truthy_pid (child_pid st) && negb (child_killed st) && negb (processClosed st)
   then
     (* Force kill the browser. *)
     try_catch
       (if String.eqb platform "win32"
        then execSync_taskkill (default 0%Z (child_pid st))
        else process_kill (default 0%Z (child_pid st)))
       (λ _, mret ()) (* the process might have already stopped *)
   else mret ()) ;;
  try_catch
    (* Attempt to remove temporary directories to avoid littering. *)
    (for_of (tempDirectories options) removeFolder_sync)
    (λ _, mret ()).

(** A handler called by an emitter: an exception that escapes it is
    nobody's to catch and takes the host down. *)
Definition exec (handler : M unit) (st : state) : state :=
  match handler st with
  | (Normal _, st') => st'
  | (Throw e, st') => set_hostExited true (emit [Uncaught e] st')
  end.

(** [cleanup()] up to its [await]: one [removeFolderAsync] per
    directory, all in flight at once. *)
Definition cleanup_start (st : state) : state :=
  emit (RemovalStarted <$> tempDirectories options)
       (set_removing (removing st ++ tempDirectories options) st).

(** [x === null ? 'null' : x] inside a template string. *)
Definition code_text (c : option Z) : string :=
  match c with Some n => pretty n | None => "null" end.
Definition signal_text (s : option string) : string :=
  match s with Some n => n | None => "null" end.

(** The exit observer, [spawnedProcess.once('exit', ..)]. *)
Definition onChildExit (exitCode : option Z) (signal : option string) : M unit :=
  log browserLog
    ("<process did exit " +:+ code_text exitCode +:+ ", " +:+ signal_text signal +:+ ">") ;;
  modify (set_processClosed true) ;;
  removeEventListeners ;;
  st ← get;
  modify (emit [OnExitCalled exitCode signal (listeners st)]) ;;
  (* fulfillClose() *)
  modify (λ st, emit [FulfillClose] (set_waitForClose true st)) ;;
  (* Cleanup as process exits. *)
  modify (λ st, set_cleaning true (cleanup_start st)).

(** [gracefullyClose] up to its first [await]: the value is where the
    invocation is suspended. *)
Definition gracefullyClose_sync : M pc :=
  st ← get;
  if gracefullyClosing st then
    log browserLog "<forecefully close>" ;;
    killProcess ;;
    mret AwaitClose
  else
    modify (set_gracefullyClosing true) ;;
    log browserLog "<gracefully close start>" ;;
    modify (emit [AttemptCalled]) ;;
    mret AwaitAttempt.

(** An [async] function turns an exception of its body into a rejection
    of the promise it returns. *)
Definition async_call (p : path) (by_ : caller) (body : M pc) (st : state) : state :=
  let id := length (calls st) in
  match body st with
  | (Normal at_pc, st') =>
      set_calls (calls st' ++ [{| who := by_; at_ := at_pc |}]) st'
  | (Throw e, st') =>
      emit [Rejects p id e]
           (set_calls (calls st' ++ [{| who := by_; at_ := Rejected p e |}]) st')
  end.

Definition gracefullyClose (by_ : caller) (st : state) : state :=
  async_call (if gracefullyClosing st then ReentrantPath else FirstPath) by_
             gracefullyClose_sync st.

(** [killAndWait]: a plain function, so an exception of [killProcess]
    would reach whoever called [kill]; the promise it returns is
    [waitForCleanup] itself. *)
Definition killAndWait (st : state) : completion unit * state :=
  match killProcess st with
  | (Normal _, st') =>
      (Normal (), set_calls (calls st' ++ [{| who := Direct; at_ := KillWait |}]) st')
  | (Throw e, st') => (Throw e, st')
  end.

(** The caller's graceful-close promise settles.  On rejection the
    [.catch(() => killProcess())] reaction runs; either way the
    invocation moves on to [await waitForCleanup], unless the reaction
    itself threw. *)
Fixpoint settle_attempt (ok : bool) (id : nat) (cs : list call) (st : state)
    : list call * state :=
  match cs with
  | [] => ([], st)
  | c :: cs' =>
      match at_ c with
      | AwaitAttempt =>
          if ok then ({| who := who c; at_ := AwaitCleanup |} :: cs', st)
          else match killProcess st with
               | (Normal _, st') => ({| who := who c; at_ := AwaitCleanup |} :: cs', st')
               | (Throw e, st') =>
                   ({| who := who c; at_ := Rejected FirstPath e |} :: cs',
                    emit [Rejects FirstPath id e] st')
               end
      | _ => let '(cs2, st') := settle_attempt ok (S id) cs' st in (c :: cs2, st')
      end
  end.

Definition onAttemptSettled (ok : bool) (st : state) : state :=
  let '(cs, st') := settle_attempt ok 0 (calls st) st in
  set_calls cs st'.

(** One [removeFolderAsync(dir).catch(err => console.error(err))]
    completes. *)
Definition onRemoved (i : nat) (st : state) : state :=
  match removing st !! i with
  | None => st
  | Some dir =>
      let '(err, fs') := rimraf dir (fs st) in
      let st := set_removing (delete i (removing st)) (set_fs fs' st) in
      match err with
      | None => emit [RemovedAsync dir true] st
      | Some e => emit [RemovedAsync dir false; ConsoleError e] st
      end
  end.

(** [process.exit(code)]: the host's 'exit' listeners run, then the host
    is gone. *)
Definition process_exit (code : Z) (st : state) : state :=
  let st := emit [HostExit code] st in
  let st := if decide (OnHostExit ∈ listeners st) then exec killProcess st else st in
  set_hostExited true st.

(** *** Promise reactions *)

(** The continuation of an invocation suspended at [at_pc], once the
    promise it awaits is fulfilled: the path it completes and what it
    still does before returning. *)
Definition after_close (at_pc : pc) : option (path * list action) :=
  match at_pc with
  | AwaitClose => Some (ReentrantPath, [])
  | _ => None
  end.

Definition handed_cleanup (at_pc : pc) : option (path * list action) :=
  match at_pc with
  | KillWait => Some (KillPath, [])
  | _ => None
  end.

Definition after_cleanup (at_pc : pc) : option (path * list action) :=
  match at_pc with
  | AwaitCleanup => Some (FirstPath, [Logged browserLog "<gracefully close end>"])
  | _ => None
  end.

(** Runs the continuations selected by [ready], in the order the
    invocations were made.  The boolean tells whether one of the resolved
    promises has the SIGINT listener's [process.exit(130)] chained. *)
Fixpoint resume (ready : pc → option (path * list action)) (id : nat) (cs : list call)
    : list call * list action * bool :=
  match cs with
  | [] => ([], [], false)
  | c :: cs' =>
      let '(cs2, acts, ex) := resume ready (S id) cs' in
      match ready (at_ c) with
      | Some (p, last) =>
          ({| who := who c; at_ := Fulfilled p |} :: cs2,
           last ++ Fulfils p id :: acts,
           bool_decide (who c = FromSIGINT) || ex)
      | None => (c :: cs2, acts, ex)
      end
  end.

Definition resume_all (ready : pc → option (path * list action)) (st : state) : state :=
  let '(cs, acts, ex) := resume ready 0 (calls st) in
  let st := emit acts (set_calls cs st) in
  if ex then process_exit 130 st else st.

(** The [cleanup()] of the exit observer resolves when every removal has
    completed; [fulfillCleanup] is chained to it. *)
Definition finish_cleanup (st : state) : state :=
  if cleaning st && bool_decide (removing st = [])
  then emit [FulfillCleanup] (set_waitForCleanup true (set_cleaning false st))
  else st.

(** Everything that became ready runs before the next event: the
    continuations behind [waitForClose], the [process.exit(130)] chained
    to them, then the end of [cleanup()] and what waits for
    [waitForCleanup].  Nothing runs once the host is gone. *)
Definition react (st : state) : state :=
  let st := if hostExited st then st
            else if waitForClose st then resume_all after_close st else st in
  let st := if hostExited st then st else finish_cleanup st in
  let st := if hostExited st then st
            else if waitForCleanup st then resume_all handed_cleanup st else st in
  if hostExited st then st
  else if waitForCleanup st then resume_all after_cleanup st else st.

(** *** Events *)

Inductive event :=
| CallGracefullyClose               (* the holder of the result calls gracefullyClose() *)
| CallKill                          (* ... or kill() *)
| HandleKill                        (* ... or launchedProcess.kill() *)
| Signal (s : hostSignal)           (* a signal reaches the host process *)
| HostExiting                       (* the host emits 'exit' *)
| ChildDied                         (* the child is gone; nothing delivered yet *)
| ChildExit (exitCode : option Z) (signal : option string)  (* 'exit' on the child *)
| ChildLine (s : stream) (line : string)  (* a complete line on stdout or stderr *)
| AttemptSettled (ok : bool)        (* the attemptToGracefullyClose() promise settles *)
| Removed (i : nat).                (* the i-th removal in flight completes *)

Definition listener_of (s : hostSignal) : listener :=
  match s with SIGINT => OnSIGINT | SIGTERM => OnSIGTERM | SIGHUP => OnSIGHUP end.

Definition handle (ev : event) (st : state) : state :=
  match ev with
  | CallGracefullyClose => gracefullyClose Direct st
  | CallKill =>
      match killAndWait st with
      | (Normal _, st') => st'
      | (Throw e, st') => emit [Uncaught e] st'
      end
  | HandleKill =>
      (* ChildProcess.kill() sets [killed] when the signal could be sent *)
      if alive st && negb (processClosed st) then set_child_killed true st else st
  | Signal s =>
      if decide (listener_of s ∈ listeners st)
      then gracefullyClose (match s with SIGINT => FromSIGINT | _ => FromSignal end) st
      else st
  | HostExiting =>
      set_hostExited true
        (if decide (OnHostExit ∈ listeners st) then exec killProcess st else st)
  | ChildDied => set_alive false st
  | ChildExit exitCode signal =>
      let st := set_alive false st in
      if exitObserver st
      then exec (onChildExit exitCode signal) (set_exitObserver false st)
      else st
  | ChildLine s line =>
      exec (for_of (filter (λ r, r.1 = s) (readers st)) (λ r, log r.2 line)) st
  | AttemptSettled ok => onAttemptSettled ok st
  | Removed i => onRemoved i st
  end.

Definition step (st : state) (ev : event) : state :=
  if hostExited st then st else react (handle ev st).

Definition run (st : state) (evs : list event) : state := foldl step st evs.

(** *** [launchProcess] *)

Definition stdio : list string :=
  if pipe options then ["ignore"; "pipe"; "pipe"; "pipe"; "pipe"]
  else ["ignore"; "pipe"; "pipe"].

Definition launching : list action :=
  [ Logged browserLog
      ("<launching> " +:+ executablePath options +:+ " " +:+ join " " (args options));
    Spawned (executablePath options) (args options)
            (negb (String.eqb platform "win32")) (cwd options) stdio ].

(** The state when [launchProcess] returns its result: [pid] is what
    [spawn] gave, [fs0] the file system at that time. *)
Definition launched (pid : option Z) (fs0 : gmap string dirent) : state :=
  {| child_pid := pid;
     child_killed := false;
     alive := true;
     fs := fs0;
     hostExited := false;
     exitObserver := true;
     readers := [(Stdout, browserStdOutLog); (Stderr, browserStdErrLog)];
     listeners :=
       [OnHostExit]
       ++ (if handleSIGINT options then [OnSIGINT] else [])
       ++ (if handleSIGTERM options then [OnSIGTERM] else [])
       ++ (if handleSIGHUP options then [OnSIGHUP] else []);
     processClosed := false;
     gracefullyClosing := false;
     waitForClose := false;
     waitForCleanup := false;
     cleaning := false;
     removing := [];
     calls := [];
     trace :=
       launching
       ++ [ Logged browserLog ("<launched> pid=" +:+ pid_text pid);
            ReaderAttached Stdout browserStdOutLog;
            ReaderAttached Stderr browserStdErrLog ] |}.

(** A launch that got no process id: [cleanup()], then the 'error' event
    of the child, then the rejection. *)
Record failing := {
  f_fs : gmap string dirent;
  f_removing : list string;
  f_cleaned : bool;               (* cleanup() has resolved *)
  f_failed : option Error;        (* what failedPromise was fulfilled with *)
  f_rejected : option Error;      (* what the launch was rejected with *)
  f_readers : list (stream * Log);
  f_trace : list action;
}.

Inductive launch :=
| Running (st : state)
| Failing (f : failing).

Definition launchProcess (pid : option Z) (fs0 : gmap string dirent) : launch :=
  if truthy_pid pid then Running (launched pid fs0)
  else Failing {| f_fs := fs0;
                  f_removing := tempDirectories options;
                  f_cleaned := false;
                  f_failed := None;
                  f_rejected := None;
                  f_readers := [];
                  f_trace := launching ++ (RemovalStarted <$> tempDirectories options) |}.

Inductive failing_event :=
| SpawnError (e : Error)    (* 'error' on the child *)
| FRemoved (i : nat).       (* the i-th removal in flight completes *)

Definition failing_handle (ev : failing_event) (f : failing) : failing :=
  match ev with
  | SpawnError e =>
      match f_failed f with
      | Some _ => f   (* once *)
      | None =>
          {| f_fs := f_fs f; f_removing := f_removing f; f_cleaned := f_cleaned f;
             f_failed := Some (new_Error ("Failed to launch browser: " +:+ Error_toString e));
             f_rejected := f_rejected f; f_readers := f_readers f; f_trace := f_trace f |}
      end
  | FRemoved i =>
      match f_removing f !! i with
      | None => f
      | Some dir =>
          let '(err, fs') := rimraf dir (f_fs f) in
          {| f_fs := fs'; f_removing := delete i (f_removing f); f_cleaned := f_cleaned f;
             f_failed := f_failed f; f_rejected := f_rejected f; f_readers := f_readers f;
             f_trace := f_trace f ++
               match err with
               | None => [RemovedAsync dir true]
               | Some e => [RemovedAsync dir false; ConsoleError e]
               end |}
      end
  end.

(** [cleanup().then(() => failedPromise).then(e => Promise.reject(e))] *)
Definition failing_react (f : failing) : failing :=
  let cleaned := f_cleaned f || bool_decide (f_removing f = []) in
  {| f_fs := f_fs f; f_removing := f_removing f; f_cleaned := cleaned;
     f_failed := f_failed f;
     f_rejected := if cleaned then f_failed f else None;
     f_readers := f_readers f; f_trace := f_trace f |}.

Definition failing_step (f : failing) (ev : failing_event) : failing :=
  failing_react (failing_handle ev f).

(** *** What [killProcess] amounts to

    A closed form of the procedure, proved equal to it below
    ([killProcess_spec]): what it sends, what it removes, what it leaves
    behind. *)

(** The signal (or command) sent, and whether the child is alive
    afterwards. *)
Definition kill_attempt (st : state) : list action * bool :=
  if truthy_pid (child_pid st) && negb (child_killed st) && negb (processClosed st)
  then ([if String.eqb platform "win32"
         then Taskkill (default 0%Z (child_pid st)) (alive st)
         else GroupKill (default 0%Z (child_pid st)) (alive st)],
        false)
  else ([], alive st).

(** The removals of the [for] loop: it stops at the first one that
    throws. *)
Fixpoint sync_removals (dirs : list string) (fs0 : gmap string dirent)
    : list action * gmap string dirent :=
  match dirs with
  | [] => ([], fs0)
  | d :: ds =>
      match rimraf d fs0 with
      | (None, fs1) =>
          let '(acts, fs2) := sync_removals ds fs1 in (RemovedSync d true :: acts, fs2)
      | (Some _, fs1) => ([RemovedSync d false], fs1)
      end
  end.

Definition after_kill (st : state) : state :=
  emit ([Logged browserLog "<kill>"; ListenersRemoved]
        ++ (kill_attempt st).1
        ++ (sync_removals (tempDirectories options) (fs st)).1)
       (set_fs (sync_removals (tempDirectories options) (fs st)).2
          (set_alive (kill_attempt st).2 (set_listeners [] st))).

(** *** Ordering of a trace

    A monitor that reads a trace from left to right and stops at the
    first action that comes too early: the exit callback is called once
    and with no listener left attached, the closed signal follows it,
    the cleanup-complete signal follows the closed signal, the start of one
    removal for each temporary directory and the completion of every
    removal that was started, a promise of the first
    path or of [kill] resolves after cleanup-complete, one of the
    reentrant path after the closed signal; no promise is rejected and
    no exception escapes. *)
Record progress := {
  exited : bool;      (* onExit has been called *)
  closed : bool;      (* waitForClose is fulfilled *)
  cleaned : bool;     (* waitForCleanup is fulfilled *)
  begun : nat;        (* asynchronous removals started *)
  inflight : nat;     (* ... and not yet completed *)
}.

Definition start : progress :=
  {| exited := false; closed := false; cleaned := false; begun := 0; inflight := 0 |}.

Definition observe (m : progress) (a : action) : option progress :=
  match a with
  | OnExitCalled _ _ attached =>
      if negb (exited m) && bool_decide (attached = [])
      then Some {| exited := true; closed := closed m; cleaned := cleaned m;
                   begun := begun m; inflight := inflight m |}
      else None
  | FulfillClose =>
      if exited m && negb (closed m)
      then Some {| exited := exited m; closed := true; cleaned := cleaned m;
                   begun := begun m; inflight := inflight m |}
      else None
  | RemovalStarted _ =>
      if closed m
      then Some {| exited := exited m; closed := closed m; cleaned := cleaned m;
                   begun := S (begun m); inflight := S (inflight m) |}
      else None
  | RemovedAsync _ _ =>
      match inflight m with
      | 0 => None
      | S n => Some {| exited := exited m; closed := closed m; cleaned := cleaned m;
                       begun := begun m; inflight := n |}
      end
  | FulfillCleanup =>
      if closed m && negb (cleaned m)
         && bool_decide (begun m = length (tempDirectories options))
         && bool_decide (inflight m = 0)
      then Some {| exited := exited m; closed := closed m; cleaned := true;
                   begun := begun m; inflight := inflight m |}
      else None
  | Fulfils FirstPath _ | Fulfils KillPath _ => if cleaned m then Some m else None
  | Fulfils ReentrantPath _ => if closed m then Some m else None
  | Rejects _ _ _ | Uncaught _ => None
  | _ => Some m
  end.

Fixpoint observe_all (m : progress) (tr : list action) : option progress :=
  match tr with
  | [] => Some m
  | a :: tr' =>
      match observe m a with
      | Some m' => observe_all m' tr'
      | None => None
      end
  end.

(** What the monitor has seen, read off the state. *)
Definition view (st : state) : progress :=
  {| exited := processClosed st; closed := waitForClose st;
     cleaned := waitForCleanup st;
     begun := if processClosed st then length (tempDirectories options) else 0;
     inflight := length (removing st) |}.

(** *** Invariants of the reachable states *)

Definition attempting (cs : list call) : nat :=
  length (filter (λ c, at_ c = AwaitAttempt) cs).

Record coherent (st : state) : Prop := {
  coh_trace : observe_all start (trace st) = Some (view st);
  coh_observer : exitObserver st = negb (processClosed st);
  coh_closed : waitForClose st = processClosed st;
  coh_cleaning : cleaning st = processClosed st && negb (waitForCleanup st);
  coh_cleaned : waitForCleanup st = true → processClosed st = true;
  coh_attempt : attempting (calls st) ≤ (if gracefullyClosing st then 1 else 0);
}.

(** Between two events nothing that could run is left waiting, as long
    as the host is there. *)
Record quiescent (st : state) : Prop := {
  qui_close : waitForClose st = true → Forall (λ c, at_ c ≠ AwaitClose) (calls st);
  qui_cleanup : waitForCleanup st = true →
                Forall (λ c, at_ c ≠ AwaitCleanup ∧ at_ c ≠ KillWait) (calls st);
  qui_cleaning : cleaning st = true → removing st ≠ [];
}.

Definition reachable (st : state) : Prop :=
  ∃ pid fs0 evs, truthy_pid pid = true ∧ st = run (launched pid fs0) evs.

Definition invariant (st : state) : Prop :=
  coherent st ∧ (hostExited st = false → quiescent st).

(** Actions the monitor does not look at. *)
Definition quiet (a : action) : Prop :=
  match a with
  | Logged _ _ | Spawned _ _ _ _ _ | ReaderAttached _ _ | AttemptCalled
  | ListenersRemoved | GroupKill _ _ | Taskkill _ _ | RemovedSync _ _
  | ConsoleError _ | HostExit _ => True
  | _ => False
  end.

(** What [resume] leaves of an invocation. *)
Definition resumed (ready : pc → option (path * list action)) (c : call) : call :=
  match ready (at_ c) with
  | Some (p, _) => {| who := who c; at_ := Fulfilled p |}
  | None => c
  end.

(** What the settling of the caller's graceful-close promise does to
    the invocations: the one that awaits it moves on to
    [await waitForCleanup]. *)
Fixpoint mark_attempt (cs : list call) : list call :=
  match cs with
  | [] => []
  | c :: cs' =>
      if decide (at_ c = AwaitAttempt)
      then {| who := who c; at_ := AwaitCleanup |} :: cs'
      else c :: mark_attempt cs'
  end.

(** What the exit observer writes to the trace. *)
Definition exit_chunk (exitCode : option Z) (signal : option string) : list action :=
  [ Logged browserLog
      ("<process did exit " +:+ code_text exitCode +:+ ", " +:+ signal_text signal +:+ ">");
    ListenersRemoved;
    OnExitCalled exitCode signal [];
    FulfillClose ]
  ++ (RemovalStarted <$> tempDirectories options).

(** How far an invocation suspended at [from] can have got. *)
Definition leads_to (from to : pc) : Prop :=
  match from with
  | AwaitAttempt => to = AwaitAttempt ∨ to = AwaitCleanup ∨ to = Fulfilled FirstPath
  | AwaitCleanup => to = AwaitCleanup ∨ to = Fulfilled FirstPath
  | AwaitClose => to = AwaitClose ∨ to = Fulfilled ReentrantPath
  | KillWait => to = KillWait ∨ to = Fulfilled KillPath
  | Fulfilled p => to = Fulfilled p
  | Rejected p e => to = Rejected p e
  end.

(** Every invocation of [cs] is still in [cs'], with the same holder
    and no further back than it was. *)
Definition advances (cs cs' : list call) : Prop :=
  ∀ id c, cs !! id = Some c →
    ∃ c', cs' !! id = Some c' ∧ who c' = who c ∧ leads_to (at_ c) (at_ c').

(** [st'] comes after [st]: the trace has grown, what was fulfilled
    stays fulfilled, the invocations have advanced. *)
Record later (st st' : state) : Prop := {
  lt_trace : ∃ chunk, trace st' = trace st ++ chunk;
  lt_pid : child_pid st' = child_pid st;
  lt_readers : readers st' = readers st;
  lt_host : hostExited st = true → hostExited st' = true;
  lt_listeners : listeners st = [] → listeners st' = [];
  lt_processClosed : processClosed st = true → processClosed st' = true;
  lt_gracefullyClosing : gracefullyClosing st = true → gracefullyClosing st' = true;
  lt_waitForClose : waitForClose st = true → waitForClose st' = true;
  lt_waitForCleanup : waitForCleanup st = true → waitForCleanup st' = true;
  lt_calls : advances (calls st) (calls st');
}.

(** What the reactions and the forceful-kill procedure can write to
    the trace: in particular neither a call of the caller's graceful-close
    operation nor a call of its exit callback. *)
Definition reactive (a : action) : Prop :=
  match a with
  | Fulfils _ _ | Logged _ _ | HostExit _ | FulfillCleanup | ListenersRemoved
  | GroupKill _ _ | Taskkill _ _ | RemovedSync _ _ => True
  | _ => False
  end.

(** Calls of [options.attemptToGracefullyClose] in a trace. *)
Fixpoint attempts (tr : list action) : nat :=
  match tr with
  | [] => 0
  | AttemptCalled :: tr' => S (attempts tr')
  | _ :: tr' => attempts tr'
  end.

Definition is_kill_signal (a : action) : Prop :=
  match a with GroupKill _ _ | Taskkill _ _ => True | _ => False end.

(** From [st] to [st'] only such actions were written, and no kill
    signal if the exit of the child had been observed. *)
Definition writes (st st' : state) : Prop :=
  ∃ chunk, trace st' = trace st ++ chunk ∧
    Forall (λ a, reactive a ∧ (processClosed st = true → ¬ is_kill_signal a)) chunk.

Definition is_exit_call (a : action) : Prop :=
  match a with OnExitCalled _ _ _ => True | _ => False end.

(** A kill signal or command that reached nothing: the call threw. *)
Definition undelivered (a : action) : Prop :=
  match a with
  | GroupKill _ delivered => delivered = false
  | Taskkill _ succeeded => succeeded = false
  | _ => True
  end.

(** Removals started and completed in a trace. *)
Fixpoint started (tr : list action) : nat :=
  match tr with
  | [] => 0
  | RemovalStarted _ :: tr' => S (started tr')
  | _ :: tr' => started tr'
  end.

Fixpoint completed (tr : list action) : nat :=
  match tr with
  | [] => 0
  | RemovedAsync _ _ :: tr' => S (completed tr')
  | _ :: tr' => completed tr'
  end.

(** *** What a launch does to the outside world *)

(** The registrations made on the host process when the launch
    succeeds: always the 'exit' listener, and one per signal the options
    ask to handle. *)
Definition registered : list listener :=
  [OnHostExit]
  ++ (if handleSIGINT options then [OnSIGINT] else [])
  ++ (if handleSIGTERM options then [OnSIGTERM] else [])
  ++ (if handleSIGHUP options then [OnSIGHUP] else []).

Definition is_teardown (a : action) : bool :=
  match a with ListenersRemoved => true | _ => false end.

Definition is_host_exit (a : action) : bool :=
  match a with HostExit _ => true | _ => false end.

(** An invocation made by the SIGINT listener whose promise has
    resolved. *)
Definition sigint_resolved (c : call) : bool :=
  bool_decide (who c = FromSIGINT)
  && match at_ c with Fulfilled _ => true | _ => false end.

(** Actions that are neither a call of the caller's graceful-close
    operation, nor a listener teardown, nor [process.exit]. *)
Definition unmarked (a : action) : Prop :=
  match a with
  | AttemptCalled | ListenersRemoved | HostExit _ => False
  | _ => True
  end.

(** What the launch of the child [pid] may do: signal that child, with
    the platform's command; remove its temporary directories; leave the
    host with status 130 when asked to handle SIGINT. *)
Definition lawful (pid : option Z) (a : action) : Prop :=
  match a with
  | GroupKill p _ => String.eqb platform "win32" = false ∧ pid = Some p
  | Taskkill p _ => String.eqb platform "win32" = true ∧ pid = Some p
  | RemovedSync d _ | RemovalStarted d | RemovedAsync d _ => d ∈ tempDirectories options
  | HostExit code => code = 130%Z ∧ handleSIGINT options = true
  | _ => True
  end.

(** The trace, read against the closure variables. *)
Record accounted (st : state) : Prop := {
  acc_pid : truthy_pid (child_pid st) = true;
  acc_attempts : attempts (trace st) = if gracefullyClosing st then 1 else 0;
  acc_listeners :
    listeners st = if existsb is_teardown (trace st) then [] else registered;
  acc_closed : processClosed st = true → listeners st = [];
  acc_lawful : Forall (lawful (child_pid st)) (trace st);
  acc_removing : Forall (λ d, d ∈ tempDirectories options) (removing st);
  acc_holder :
    Forall (λ c, who c = FromSIGINT → handleSIGINT options = true) (calls st);
  acc_exit : existsb is_host_exit (trace st) = existsb sigint_resolved (calls st);
  acc_gone : existsb is_host_exit (trace st) = true → hostExited st = true;
}.

(** From [st] to [st'] every path is as it was, or is a temporary
    directory that has been removed. *)
Definition frames (st st' : state) : Prop :=
  ∀ d, fs st' !! d = fs st !! d ∨ (d ∈ tempDirectories options ∧ fs st' !! d = None).

End Launch.

End Launcher.

(** ** Concrete launches, used in the examples below *)

Module Examples.
Import Launcher.

(** A browser with one profile directory. *)
Definition chromium : LaunchProcessOptions :=
  {| executablePath := "/usr/bin/chromium";
     args := ["--headless"; "--remote-debugging-pipe"];
     handleSIGINT := true; handleSIGTERM := false; handleSIGHUP := false;
     pipe := false;
     tempDirectories := ["/tmp/profile"];
     cwd := None |}.

(** The same with two temporary directories. *)
Definition firefox : LaunchProcessOptions :=
  {| executablePath := "/usr/bin/firefox";
     args := ["-headless"];
     handleSIGINT := false; handleSIGTERM := false; handleSIGHUP := false;
     pipe := true;
     tempDirectories := ["/tmp/a"; "/tmp/b"];
     cwd := None |}.

Definition disk : gmap string dirent := {[ "/tmp/profile" := Removable ]}.

(** The first directory cannot be removed, the second can. *)
Definition busy_disk : gmap string dirent :=
  <["/tmp/a" := Stuck]> {[ "/tmp/b" := Removable ]}.

Definition linux : string := "linux".

(** A pattern: the line has to start with "Listening on "; the match is
    the rest of the line. *)
Definition listening (line : string) : option string :=
  if String.prefix "Listening on " line
  then Some (String.substring 13 (String.length line - 13) line)
  else None.

End Examples.

(** * Properties *)

(** ** Strings *)

Lemma string_app_assoc (a b c : string) : (a +:+ b) +:+ c = a +:+ (b +:+ c).
Proof.
  induction a as [|ch a IH]; [done|].
  change (String ch ((a +:+ b) +:+ c) = String ch (a +:+ b +:+ c)).
  by rewrite IH.
Qed.

Lemma string_app_nil_r (a : string) : a +:+ "" = a.
Proof.
  induction a as [|ch a IH]; [done|].
  change (String ch (a +:+ "") = String ch a).
  by rewrite IH.
Qed.

Lemma occurs_in_refl s : occurs_in s s.
Proof.
  exists "", "". change ("" +:+ s +:+ "") with (s +:+ "").
  by rewrite string_app_nil_r.
Qed.

Lemma occurs_in_app_l s t u : occurs_in s t → occurs_in s (t +:+ u).
Proof.
  intros (b & a & ->). exists b, (a +:+ u).
  by rewrite !string_app_assoc.
Qed.

Lemma occurs_in_app_r s t u : occurs_in s t → occurs_in s (u +:+ t).
Proof.
  intros (b & a & ->). exists (u +:+ b), a.
  by rewrite !string_app_assoc.
Qed.

(** ** [waitForLine] *)

Module WaitForLineFacts.
Import WaitForLine.

Section LineAwaiter.

Context {RegExpMatchArray : Type}.
Variable regex : string → option RegExpMatchArray.
Variable timeout : N.
Variable timeoutError : Error.

Local Abbreviation state := (@state RegExpMatchArray).
Local Abbreviation step := (step regex timeoutError).
Local Abbreviation run := (run regex timeoutError).
Local Abbreviation initial := (@initial RegExpMatchArray timeout).

Lemma initial_consistent : consistent initial.
Proof.
  split; simpl; [|done].
  destruct (timeout =? 0)%N; [done | discriminate].
Qed.

Lemma step_consistent st ev : consistent st → consistent (step st ev).
Proof.
  destruct st as [err ls tid ta [s|]]; intros [Ht Hp]; simpl in *.
  - destruct Hp as [-> ->].
    by destruct ev; simpl; (split; [|split]).
  - subst ls. unfold all_attached.
    assert (Hta : (if (tid =? 0)%N then ta else false) = false).
    { destruct (_ =? 0)%N eqn:E; [|done]. apply Ht. by apply N.eqb_eq. }
    destruct ev as [l| | |e|]; simpl;
      unfold onLine, onClose, onTimeout, settle, cleanup; simpl;
      try (by rewrite ?Hta).
    + destruct (regex l); simpl; by rewrite ?Hta.
    + destruct ta; simpl; [|done]. by destruct (tid =? 0)%N.
Qed.

Lemma run_consistent evs st : consistent st → consistent (run st evs).
Proof.
  revert st. induction evs as [|ev evs IH]; intros st H; [done|].
  apply IH, step_consistent, H.
Qed.

(** A settled wait ignores every further event. *)
Lemma settled_step st ev : consistent st → is_Some (promise st) → step st ev = st.
Proof.
  destruct st as [err ls tid ta [s|]]; intros [Ht Hp] [x Hx]; simpl in *; [|done].
  destruct Hp as [-> ->]. by destruct ev.
Qed.

Lemma settled_run evs st : consistent st → is_Some (promise st) → run st evs = st.
Proof.
  induction evs as [|ev evs IH]; intros Hc Hs; [done|].
  simpl. rewrite settled_step by done. by apply IH.
Qed.

Lemma run_app st evs1 evs2 : run st (evs1 ++ evs2) = run (run st evs1) evs2.
Proof. apply foldl_app. Qed.

Lemma collected_app evs1 evs2 : collected (evs1 ++ evs2) = collected evs1 +:+ collected evs2.
Proof.
  induction evs1 as [|[l| | |e|] evs1 IH]; simpl; try done.
  by rewrite IH, !string_app_assoc.
Qed.

(** A pending wait has seen nothing but lines that did not match (and
    timer events when there is no timer), and has collected them all. *)
Lemma pending_collected evs :
  promise (run initial evs) = None → stderr (run initial evs) = collected evs.
Proof.
  induction evs as [|ev evs IH] using rev_ind; [done|].
  rewrite run_app, collected_app. simpl.
  pose proof (run_consistent evs _ initial_consistent) as Hc.
  destruct (promise (run initial evs)) as [s|] eqn:Hp.
  { rewrite settled_step by (rewrite ?Hp; eauto). by rewrite Hp. }
  specialize (IH eq_refl).
  destruct Hc as [Ht Hl]. rewrite Hp in Hl.
  destruct (run initial evs) as [err ls tid ta pr]; simpl in *. subst.
  destruct ev as [l| | |e|]; simpl; try done.
  - unfold onLine; simpl. destruct (regex l); simpl; [done|].
    intros _. by rewrite string_app_nil_r.
  - destruct ta; simpl; [done|]. intros _. by rewrite string_app_nil_r.
Qed.

Lemma line_occurs_in_collected l evs : RlLine l ∈ evs → occurs_in l (collected evs).
Proof.
  induction evs as [|ev evs IH]; intros Hin; [by apply elem_of_nil in Hin|].
  apply elem_of_cons in Hin as [<-|Hin].
  - simpl. apply occurs_in_app_l, occurs_in_refl.
  - destruct ev; simpl; auto. by apply occurs_in_app_r, occurs_in_app_r, IH.
Qed.

Lemma collected_occurs_in_failure error text s :
  occurs_in s text → occurs_in s (failure_message error text).
Proof.
  intros H. unfold failure_message. simpl.
  apply occurs_in_app_r, occurs_in_app_r. by apply occurs_in_app_l.
Qed.

Lemma error_occurs_in_failure e text :
  occurs_in (message e) (failure_message (Some e) text).
Proof.
  unfold failure_message. simpl.
  apply occurs_in_app_l, occurs_in_app_r, occurs_in_app_r, occurs_in_refl.
Qed.

Lemma run_lines_no_match st pre :
  listeners st = all_attached → promise st = None →
  Forall (λ x, regex x = None) pre →
  let st' := run st (RlLine <$> pre) in
  listeners st' = all_attached ∧ promise st' = None ∧
  timeoutId st' = timeoutId st ∧ timerActive st' = timerActive st.
Proof.
  intros Hl Hp Hpre. revert st Hl Hp.
  induction Hpre as [|x pre Hx _ IH]; intros st Hl Hp; [done|].
  simpl. destruct st as [err ls tid ta pr]; simpl in *; subst.
  unfold onLine; simpl. rewrite Hx. by apply IH.
Qed.

(** C6: the wait resolves with the match of the first line that matches
    the pattern; at that point every listener is detached and no timer
    is left scheduled, and whatever arrives later (lines or anything
    else) changes nothing. *)
Theorem first_matching_line_resolves pre l m rest :
  Forall (λ x, regex x = None) pre →
  regex l = Some m →
  let st := run initial ((RlLine <$> pre) ++ RlLine l :: rest) in
  promise st = Some (Resolved m) ∧
  listeners st = [] ∧
  timerActive st = false ∧
  st = run initial ((RlLine <$> pre) ++ [RlLine l]).
Proof.
  intros Hpre Hl.
  assert (Hfirst : ∀ st1, st1 = run initial ((RlLine <$> pre) ++ [RlLine l]) →
            promise st1 = Some (Resolved m) ∧ listeners st1 = [] ∧ timerActive st1 = false).
  { intros st1 ->. rewrite run_app.
    destruct (run_lines_no_match initial pre eq_refl eq_refl Hpre) as (Ha & Hp & Hid & Hact).
    pose proof (run_consistent (RlLine <$> pre) _ initial_consistent) as [Ht _].
    destruct (run initial (RlLine <$> pre)) as [err ls tid ta pr]; simpl in *. subst.
    unfold onLine; simpl. rewrite Hl. simpl. repeat split.
    destruct (_ =? 0)%N eqn:E; [|done]. apply Ht. by apply N.eqb_eq. }
  destruct (Hfirst _ eq_refl) as (H1 & H2 & H3).
  assert (Heq : run initial ((RlLine <$> pre) ++ RlLine l :: rest)
                = run initial ((RlLine <$> pre) ++ [RlLine l])).
  { change (RlLine l :: rest) with ([RlLine l] ++ rest).
    rewrite app_assoc, run_app. apply settled_run.
    - apply run_consistent, initial_consistent.
    - rewrite H1. eauto. }
  simpl. rewrite Heq. done.
Qed.

(** C7: when the stream closes, the process exits or the process
    reports an error while the wait is still pending, the wait is
    rejected with a plain error whose message holds every line received
    so far and, for an error event, that error's message; the listeners
    are detached, the timer is cancelled and later events change
    nothing. *)
Theorem termination_rejects_with_collected_lines evs t rest :
  promise (run initial evs) = None →
  terminates t →
  ∃ msg,
    promise (run initial (evs ++ t :: rest)) = Some (Rejected (new_Error msg)) ∧
    (∀ l, RlLine l ∈ evs → occurs_in l msg) ∧
    (∀ e, t = ProcessError e → occurs_in (message e) msg) ∧
    listeners (run initial (evs ++ t :: rest)) = [] ∧
    timerActive (run initial (evs ++ t :: rest)) = false.
Proof.
  intros Hp Ht.
  pose proof (pending_collected evs Hp) as Hcol.
  pose proof (run_consistent evs _ initial_consistent) as Hc.
  exists (failure_message (error_of t) (collected evs)).
  assert (Hone : let st1 := step (run initial evs) t in
            promise st1 = Some (Rejected (new_Error (failure_message (error_of t) (collected evs))))
            ∧ listeners st1 = [] ∧ timerActive st1 = false).
  { destruct Hc as [Hz Hl]. rewrite Hp in Hl.
    destruct (run initial evs) as [err ls tid ta pr]; simpl in *. subst.
    assert (Hta : (if (tid =? 0)%N then ta else false) = false).
    { destruct (_ =? 0)%N eqn:E; [|done]. apply Hz. by apply N.eqb_eq. }
    destruct t; try done; simpl; by rewrite Hta. }
  destruct Hone as (H1 & H2 & H3).
  assert (Heq : run initial (evs ++ t :: rest) = step (run initial evs) t).
  { rewrite run_app. simpl. apply settled_run.
    - by apply step_consistent.
    - rewrite H1. eauto. }
  rewrite Heq. repeat split; try done.
  - intros l Hin. by apply collected_occurs_in_failure, line_occurs_in_collected.
  - intros e ->. apply error_occurs_in_failure.
Qed.

(** While the wait is pending the timer is scheduled exactly when a
    non-zero [timeout] was given. *)
Lemma pending_timer evs :
  promise (run initial evs) = None →
  timerActive (run initial evs) = negb (timeout =? 0)%N.
Proof.
  assert (Hgen : ∀ st, (promise st = None → timerActive st = negb (timeout =? 0)%N) →
            promise (run st evs) = None →
            timerActive (run st evs) = negb (timeout =? 0)%N).
  { induction evs as [|ev evs IH]; intros st Hst; [exact Hst|].
    cbn [run foldl]. apply IH.
    destruct st as [err ls tid ta pr]; cbn in Hst.
    destruct pr as [s|].
    - intros Hn. exfalso. revert Hn.
      destruct ev; cbn; repeat case_decide; cbn; try discriminate.
      + unfold onLine. cbn. destruct (regex line); cbn; discriminate.
      + destruct ta; cbn; discriminate.
    - specialize (Hst eq_refl). subst ta.
      destruct ev; cbn; repeat case_decide; cbn; try discriminate; try done.
      + unfold onLine. cbn. destruct (regex line); cbn; [discriminate|done].
      + destruct (negb _); cbn; [discriminate|done]. }
  apply Hgen. done.
Qed.

(** X1: the timeout arm ([onTimeout], and the timer set on line 197): when
    a non-zero [timeout] was given and the timer comes due while the
    wait is pending, the wait is rejected with the [timeoutError] object
    handed in, unchanged; the listeners are detached and later events
    change nothing. *)
Theorem timeout_rejects_with_timeout_error evs rest :
  timeout ≠ 0%N →
  promise (run initial evs) = None →
  let st := run initial (evs ++ TimerElapsed :: rest) in
  promise st = Some (Rejected timeoutError) ∧
  listeners st = [] ∧
  timerActive st = false ∧
  st = run initial (evs ++ [TimerElapsed]).
Proof.
  intros Hto Hp.
  pose proof (pending_timer evs Hp) as Hta.
  apply N.eqb_neq in Hto. rewrite Hto in Hta. cbn in Hta.
  assert (Hone : let st1 := step (run initial evs) TimerElapsed in
            promise st1 = Some (Rejected timeoutError) ∧ listeners st1 = [] ∧
            timerActive st1 = false).
  { destruct (run initial evs) as [err ls tid ta pr]; cbn in *. subst.
    cbn. repeat split. by destruct (tid =? 0)%N. }
  destruct Hone as (H1 & H2 & H3).
  assert (Hlast : run initial (evs ++ [TimerElapsed]) = step (run initial evs) TimerElapsed).
  { by rewrite run_app. }
  assert (Heq : run initial (evs ++ TimerElapsed :: rest) = step (run initial evs) TimerElapsed).
  { rewrite run_app. cbn [run foldl]. apply settled_run.
    - apply step_consistent, run_consistent, initial_consistent.
    - rewrite H1. eauto. }
  cbv zeta. rewrite Heq, Hlast. done.
Qed.

(** X2: the promise is settled at most once and nothing is left behind:
    whatever the events, a pending wait has its four listeners attached;
    a settled one has none and no timer scheduled, and no later event
    changes its outcome or anything else. *)
Theorem settles_at_most_once evs :
  let st := run initial evs in
  (promise st = None → listeners st = all_attached) ∧
  (is_Some (promise st) →
   listeners st = [] ∧ timerActive st = false ∧
   ∀ rest, run initial (evs ++ rest) = st).
Proof.
  cbv zeta.
  pose proof (run_consistent evs _ initial_consistent) as Hc.
  split.
  - intros Hp. destruct Hc as [_ Hl]. by rewrite Hp in Hl.
  - intros Hs. pose proof Hc as [_ Hl].
    destruct Hs as [s Hs]. rewrite Hs in Hl. destruct Hl as [Hl Ht].
    repeat split; [done..|].
    intros rest. rewrite run_app. apply settled_run; [done|]. rewrite Hs. eauto.
Qed.

(** X3: the text of the rejection of [onClose]: the heading (followed by a
    space and the error's message when an 'error' event ended the wait),
    then every line received so far, in the order of arrival and each
    followed by a line feed, an empty line, and the troubleshooting
    link followed by a line feed. *)
Theorem termination_message_layout evs t rest :
  promise (run initial evs) = None →
  terminates t →
  promise (run initial (evs ++ t :: rest))
  = Some (Rejected (new_Error
      (("Failed to launch browser!" +:+
          match t with ProcessError e => " " +:+ message e | _ => "" end)
       +:+ LF +:+ collected evs +:+ LF +:+ LF +:+ TROUBLESHOOTING +:+ LF))).
Proof.
  intros Hp Ht.
  pose proof (pending_collected evs Hp) as Hcol.
  pose proof (run_consistent evs _ initial_consistent) as Hc.
  assert (Hone : promise (step (run initial evs) t)
            = Some (Rejected (new_Error (failure_message (error_of t) (collected evs))))).
  { destruct Hc as [Hz Hl]. rewrite Hp in Hl.
    destruct (run initial evs) as [err ls tid ta pr]; simpl in *. subst.
    destruct t; try done; simpl; done. }
  assert (Heq : run initial (evs ++ t :: rest) = step (run initial evs) t).
  { rewrite run_app. simpl. apply settled_run.
    - by apply step_consistent.
    - rewrite Hone. eauto. }
  rewrite Heq, Hone. destruct t; try done.
Qed.


End LineAwaiter.

Import Examples.

Lemma termination_rejects_with_collected_lines_witness :
  ∃ msg,
    promise (run listening (new_Error "timed out")
               (initial 2000) ([RlLine "starting"; RlLine "loading"] ++ [ProcessExit]))
      = Some (Rejected (new_Error msg)) ∧
    occurs_in "starting" msg ∧ occurs_in "loading" msg.
Proof.
  destruct (termination_rejects_with_collected_lines listening 2000 (new_Error "timed out")
              [RlLine "starting"; RlLine "loading"] ProcessExit [] eq_refl I)
    as (msg & H1 & H2 & _).
  exists msg. split; [exact H1|].
  split; apply H2; [apply list_elem_of_here | apply list_elem_of_further, list_elem_of_here].
Defined.

Lemma first_matching_line_resolves_witness :
  promise (run listening (new_Error "timed out") (initial 2000)
             ((RlLine <$> ["starting"]) ++
              RlLine "Listening on 127.0.0.1:9222" :: [RlLine "Listening on ::1"; RlClose]))
  = Some (Resolved "127.0.0.1:9222").
Proof.
  refine (proj1 (first_matching_line_resolves listening 2000 (new_Error "timed out")
            ["starting"] "Listening on 127.0.0.1:9222" "127.0.0.1:9222"
            [RlLine "Listening on ::1"; RlClose] _ _)).
  - repeat constructor.
  - reflexivity.
Defined.

Lemma timeout_rejects_with_timeout_error_witness :
  promise (run listening (new_Error "timed out") (initial 2000)
             ([RlLine "starting"] ++ TimerElapsed :: [RlLine "Listening on ::1"]))
  = Some (Rejected (new_Error "timed out")).
Proof.
  refine (proj1 (timeout_rejects_with_timeout_error listening 2000 (new_Error "timed out")
            [RlLine "starting"] [RlLine "Listening on ::1"] _ _)).
  - discriminate.
  - reflexivity.
Defined.

Lemma settles_at_most_once_witness :
  run listening (new_Error "timed out") (initial 2000)
      ([RlLine "Listening on ::1"] ++ [TimerElapsed; ProcessExit])
  = run listening (new_Error "timed out") (initial 2000) [RlLine "Listening on ::1"].
Proof.
  refine (proj2 (proj2 (proj2 (settles_at_most_once listening 2000 (new_Error "timed out")
            [RlLine "Listening on ::1"]) _)) [TimerElapsed; ProcessExit]).
  vm_compute. eauto.
Defined.

Lemma termination_message_layout_witness :
  promise (run listening (new_Error "timed out") (initial 0)
             ([RlLine "starting"] ++ ProcessError (new_Error "spawn ENOENT") :: []))
  = Some (Rejected (new_Error
      ("Failed to launch browser! spawn ENOENT" +:+ LF +:+ "starting" +:+ LF +:+ LF +:+ LF
       +:+ TROUBLESHOOTING +:+ LF))).
Proof.
  exact (termination_message_layout listening 0 (new_Error "timed out")
           [RlLine "starting"] (ProcessError (new_Error "spawn ENOENT")) [] eq_refl I).
Defined.

End WaitForLineFacts.

(** ** [launchProcess] *)

Module LauncherFacts.
Import Launcher.

Ltac state_simpl :=
  cbv [emit set_child_killed set_alive set_fs set_hostExited set_exitObserver
       set_listeners set_processClosed set_gracefullyClosing set_waitForClose
       set_waitForCleanup set_cleaning set_removing set_calls set_trace
       child_pid child_killed alive fs hostExited exitObserver readers listeners
       processClosed gracefullyClosing waitForClose waitForCleanup cleaning
       removing calls trace fst snd] in *.

Ltac unfold_monad :=
  unfold log, removeEventListeners, modify, get, try_catch, mbind, M_bind,
    mret, M_ret in *.

Section Launch.

Variable options : LaunchProcessOptions.
Variable platform : string.

Local Abbreviation killProcess := (killProcess options platform).
Local Abbreviation after_kill := (after_kill options platform).
Local Abbreviation step := (step options platform).
Local Abbreviation run := (run options platform).
Local Abbreviation handle := (handle options platform).
Local Abbreviation react := (react options platform).

Lemma removal_loop dirs st :
  try_catch (for_of dirs removeFolder_sync) (λ _, mret ()) st
  = (Normal (), emit (sync_removals dirs (fs st)).1
                     (set_fs (sync_removals dirs (fs st)).2 st)).
Proof.
  assert (H : ∀ st, (for_of dirs removeFolder_sync st).2
                    = emit (sync_removals dirs (fs st)).1
                           (set_fs (sync_removals dirs (fs st)).2 st)).
  { clear st. induction dirs as [|d ds IH]; intros st.
    - destruct st. state_simpl. by rewrite app_nil_r.
    - cbn [for_of sync_removals]. unfold_monad. unfold removeFolder_sync at 1.
      destruct st as [? ? ? fs0 ? ? ? ? ? ? ? ? ? ? ? tr]. state_simpl.
      destruct (rimraf d fs0) as [[e|] fs1] eqn:Hr.
      + done.
      + rewrite IH. destruct (sync_removals ds fs1) as [acts fs2].
        state_simpl. by rewrite <- app_assoc. }
  unfold try_catch. specialize (H st).
  destruct (for_of dirs removeFolder_sync st) as [[[]|e] st']; cbn [snd] in H; by subst.
Qed.

Lemma killProcess_spec st : killProcess st = (Normal (), after_kill st).
Proof.
  unfold Launcher.killProcess, Launcher.after_kill, kill_attempt.
  unfold log, removeEventListeners, modify, get, mbind, M_bind, mret, M_ret.
  assert (Hloop := removal_loop (tempDirectories options)).
  destruct st as [pid ki al fs0 ? ? ? ? pc ? ? ? ? ? ? tr]. state_simpl.
  destruct (truthy_pid pid && negb ki && negb pc).
  - destruct (String.eqb platform "win32");
      unfold try_catch at 1, execSync_taskkill, process_kill; state_simpl;
      destruct al; rewrite Hloop; state_simpl;
      destruct (sync_removals _ fs0); by rewrite <- !app_assoc.
  - rewrite Hloop. state_simpl.
    destruct (sync_removals _ fs0); by rewrite <- !app_assoc.
Qed.

(** *** The monitor *)

Local Abbreviation observe := (observe options).
Local Abbreviation observe_all := (observe_all options).
Local Abbreviation view := (view options).
Local Abbreviation coherent := (coherent options).
Local Abbreviation invariant := (invariant options).
Local Abbreviation reachable := (reachable options platform).

Lemma observe_all_app m tr1 tr2 m1 :
  observe_all m tr1 = Some m1 → observe_all m (tr1 ++ tr2) = observe_all m1 tr2.
Proof.
  revert m. induction tr1 as [|a tr1 IH]; intros m H; simpl in *.
  - by simplify_eq.
  - destruct (observe m a); [by apply IH | done].
Qed.

Lemma observe_all_app_inv m tr1 tr2 m2 :
  observe_all m (tr1 ++ tr2) = Some m2 →
  ∃ m1, observe_all m tr1 = Some m1 ∧ observe_all m1 tr2 = Some m2.
Proof.
  revert m. induction tr1 as [|a tr1 IH]; intros m H; simpl in *.
  - eauto.
  - destruct (observe m a); [by apply IH | done].
Qed.

Lemma observe_quiet m acts : Forall quiet acts → observe_all m acts = Some m.
Proof.
  induction 1 as [|a acts Ha _ IH]; [done|].
  simpl. by destruct a.
Qed.

Lemma sync_removals_quiet dirs fs0 : Forall quiet (sync_removals dirs fs0).1.
Proof.
  revert fs0. induction dirs as [|d ds IH]; intros fs0; cbn [sync_removals]; [constructor|].
  destruct (rimraf d fs0) as [[e|] fs1].
  - by repeat constructor.
  - specialize (IH fs1). destruct (sync_removals ds fs1). by constructor.
Qed.

Lemma kill_attempt_quiet st : Forall quiet (kill_attempt platform st).1.
Proof.
  unfold kill_attempt.
  destruct (_ && _); cbn [fst]; [|constructor].
  destruct (String.eqb _ _); by repeat constructor.
Qed.

Lemma after_kill_trace st :
  ∃ chunk, trace (after_kill st) = trace st ++ chunk ∧ Forall quiet chunk.
Proof.
  eexists. split; [reflexivity|].
  repeat (apply Forall_cons; split; [done|]).
  apply Forall_app. split; [apply kill_attempt_quiet | apply sync_removals_quiet].
Qed.

(** *** Coherence is kept by every piece of a step *)

Lemma coherent_neutral st st' chunk :
  coherent st →
  trace st' = trace st ++ chunk → observe_all (view st) chunk = Some (view st) →
  exitObserver st' = exitObserver st → processClosed st' = processClosed st →
  waitForClose st' = waitForClose st → waitForCleanup st' = waitForCleanup st →
  cleaning st' = cleaning st → removing st' = removing st →
  gracefullyClosing st' = gracefullyClosing st →
  attempting (calls st') ≤ attempting (calls st) →
  coherent st'.
Proof.
  intros [Ht Ho Hcl Hcg Hcd Hat] Htr Hq E1 E2 E3 E4 E5 E6 E7 Hle.
  constructor.
  - rewrite Htr. erewrite observe_all_app by eassumption.
    rewrite Hq. unfold Launcher.view. by rewrite E2, E3, E4, E6.
  - by rewrite E1, E2.
  - by rewrite E3, E2.
  - by rewrite E5, E2, E4.
  - by rewrite E4, E2.
  - rewrite E7. lia.
Qed.

Lemma coherent_quiet st st' chunk :
  coherent st →
  trace st' = trace st ++ chunk → Forall quiet chunk →
  exitObserver st' = exitObserver st → processClosed st' = processClosed st →
  waitForClose st' = waitForClose st → waitForCleanup st' = waitForCleanup st →
  cleaning st' = cleaning st → removing st' = removing st →
  gracefullyClosing st' = gracefullyClosing st →
  attempting (calls st') ≤ attempting (calls st) →
  coherent st'.
Proof.
  intros H Htr Hq. eapply coherent_neutral; [done..|]. by apply observe_quiet.
Qed.

Lemma coherent_same st st' :
  coherent st →
  trace st' = trace st →
  exitObserver st' = exitObserver st → processClosed st' = processClosed st →
  waitForClose st' = waitForClose st → waitForCleanup st' = waitForCleanup st →
  cleaning st' = cleaning st → removing st' = removing st →
  gracefullyClosing st' = gracefullyClosing st →
  attempting (calls st') ≤ attempting (calls st) →
  coherent st'.
Proof.
  intros H Htr. eapply (coherent_quiet _ _ []); [done| |done].
  by rewrite app_nil_r.
Qed.

Lemma coherent_after_kill st : coherent st → coherent (after_kill st).
Proof.
  intros H. destruct (after_kill_trace st) as (chunk & Htr & Hq).
  eapply coherent_quiet; [exact H|exact Htr|exact Hq|reflexivity..].
Qed.

Lemma coherent_emit_quiet st acts : Forall quiet acts → coherent st → coherent (emit acts st).
Proof.
  intros Hq H. eapply coherent_quiet; [exact H|reflexivity|exact Hq|reflexivity..].
Qed.

Lemma exec_killProcess st : exec killProcess st = after_kill st.
Proof. unfold exec. by rewrite killProcess_spec. Qed.

Lemma coherent_set_hostExited b st : coherent st → coherent (set_hostExited b st).
Proof. intros H. eapply coherent_same; [exact H|reflexivity..]. Qed.

Lemma coherent_process_exit code st :
  coherent st → coherent (process_exit options platform code st).
Proof.
  intros H. unfold process_exit. apply coherent_set_hostExited.
  case_decide.
  - rewrite exec_killProcess. apply coherent_after_kill.
    apply coherent_emit_quiet; [by repeat constructor | done].
  - apply coherent_emit_quiet; [by repeat constructor | done].
Qed.

(** *** Resuming invocations *)

Lemma resume_calls ready id cs : (resume ready id cs).1.1 = resumed ready <$> cs.
Proof.
  revert id. induction cs as [|c cs IH]; intros id; [done|].
  cbn [resume]. specialize (IH (S id)).
  destruct (resume ready (S id) cs) as [[cs2 acts] ex]; cbn [fst snd] in *.
  unfold resumed at 1. rewrite fmap_cons.
  destruct (ready (at_ c)) as [[p l]|]; cbn [fst]; by f_equal.
Qed.

Lemma resume_neutral ready m id cs :
  (∀ at_pc p l i, ready at_pc = Some (p, l) → observe_all m (l ++ [Fulfils p i]) = Some m) →
  observe_all m (resume ready id cs).1.2 = Some m.
Proof.
  intros Hr. revert id. induction cs as [|c cs IH]; intros id; [done|].
  cbn [resume]. specialize (IH (S id)).
  destruct (resume ready (S id) cs) as [[cs2 acts] ex]; cbn [fst snd] in *.
  destruct (ready (at_ c)) as [[p l]|] eqn:E; cbn [fst snd]; [|done].
  change (l ++ Fulfils p id :: acts) with (l ++ [Fulfils p id] ++ acts).
  rewrite app_assoc. erewrite observe_all_app; eauto.
Qed.

Lemma resume_nothing ready id cs :
  Forall (λ c, ready (at_ c) = None) cs → resume ready id cs = (cs, [], false).
Proof.
  intros H. revert id. induction H as [|c cs Hc _ IH]; intros id; [done|].
  cbn [resume]. by rewrite IH, Hc.
Qed.

Lemma attempting_resumed ready cs :
  ready AwaitAttempt = None → attempting (resumed ready <$> cs) = attempting cs.
Proof.
  intros Hr. unfold attempting. induction cs as [|c cs IH]; [done|].
  rewrite fmap_cons, !filter_cons.
  assert (at_ (resumed ready c) = AwaitAttempt ↔ at_ c = AwaitAttempt) as Hiff.
  { unfold resumed. destruct (ready (at_ c)) as [[p l]|] eqn:E; cbn [at_]; [|done].
    split; [done|]. intros Hc. by rewrite Hc, Hr in E. }
  repeat case_decide; cbn [length]; try (by rewrite IH); tauto.
Qed.

Lemma attempting_app cs1 cs2 : attempting (cs1 ++ cs2) = attempting cs1 + attempting cs2.
Proof. unfold attempting. by rewrite filter_app, length_app. Qed.

Lemma coherent_resume_all ready st :
  coherent st →
  ready AwaitAttempt = None →
  (∀ at_pc p l i, ready at_pc = Some (p, l) →
     observe_all (view st) (l ++ [Fulfils p i]) = Some (view st)) →
  coherent (resume_all options platform ready st).
Proof.
  intros H Ha Hr. unfold resume_all.
  pose proof (resume_calls ready 0 (calls st)) as Hcs.
  pose proof (resume_neutral ready (view st) 0 (calls st) Hr) as Hobs.
  destruct (resume ready 0 (calls st)) as [[cs acts] ex]; cbn [fst snd] in *. subst cs.
  assert (coherent (emit acts (set_calls (resumed ready <$> calls st) st))) as H'.
  { eapply coherent_neutral; [exact H|reflexivity|exact Hobs|reflexivity..|].
    change (attempting (resumed ready <$> calls st) ≤ attempting (calls st)).
    by rewrite attempting_resumed. }
  destruct ex; [by apply coherent_process_exit | done].
Qed.

Lemma coherent_finish_cleanup st : coherent st → coherent (finish_cleanup st).
Proof.
  intros H. unfold finish_cleanup.
  destruct (cleaning st && bool_decide (removing st = [])) eqn:E; [|done].
  apply andb_prop in E as [Hc Hr]. apply bool_decide_eq_true in Hr.
  destruct H as [Ht Ho Hcl Hcg Hcd Hat].
  rewrite Hc in Hcg. symmetry in Hcg. apply andb_prop in Hcg as [Hp Hw].
  apply negb_true_iff in Hw.
  destruct st as [? ? ? ? ? ? ? ? pc ? wc wu cl rm cs tr].
  unfold Launcher.view in *. state_simpl. subst.
  constructor; unfold Launcher.view; state_simpl; try done.
  erewrite observe_all_app by eassumption.
  cbn. by rewrite bool_decide_eq_true_2.
Qed.

Lemma coherent_react st : coherent st → coherent (react st).
Proof.
  intros H. unfold Launcher.react.
  set (st1 := if hostExited st then st else _).
  assert (coherent st1) as H1.
  { subst st1. destruct (hostExited st); [done|].
    destruct (waitForClose st) eqn:E; [|done].
    apply coherent_resume_all; [done..|].
    intros at_pc p l i. destruct at_pc; try done. intros [= <- <-].
    cbn. by rewrite E. }
  clearbody st1. clear H.
  set (st2 := if hostExited st1 then st1 else _).
  assert (coherent st2) as H2.
  { subst st2. destruct (hostExited st1); [done|]. by apply coherent_finish_cleanup. }
  clearbody st2. clear H1.
  set (st3 := if hostExited st2 then st2 else _).
  assert (coherent st3) as H3.
  { subst st3. destruct (hostExited st2); [done|].
    destruct (waitForCleanup st2) eqn:E; [|done].
    apply coherent_resume_all; [done..|].
    intros at_pc p l i. destruct at_pc; try done. intros [= <- <-].
    cbn. by rewrite E. }
  clearbody st3. clear H2.
  destruct (hostExited st3); [done|].
  destruct (waitForCleanup st3) eqn:E; [|done].
  apply coherent_resume_all; [done..|].
  intros at_pc p l i. destruct at_pc; try done. intros [= <- <-].
  cbn. by rewrite E.
Qed.

(** *** The handlers in closed form *)

Lemma gracefullyClose_reentrant by_ st :
  gracefullyClosing st = true →
  gracefullyClose options platform by_ st
  = set_calls (calls st ++ [{| who := by_; at_ := AwaitClose |}])
      (after_kill (emit [Logged browserLog "<forecefully close>"] st)).
Proof.
  intros Hg. unfold gracefullyClose, async_call, gracefullyClose_sync.
  unfold log, modify, get, mbind, M_bind, mret, M_ret.
  rewrite Hg. by rewrite killProcess_spec.
Qed.

Lemma gracefullyClose_first by_ st :
  gracefullyClosing st = false →
  gracefullyClose options platform by_ st
  = set_calls (calls st ++ [{| who := by_; at_ := AwaitAttempt |}])
      (emit [Logged browserLog "<gracefully close start>"; AttemptCalled]
         (set_gracefullyClosing true st)).
Proof.
  intros Hg. unfold gracefullyClose, async_call, gracefullyClose_sync.
  unfold log, modify, get, mbind, M_bind, mret, M_ret.
  rewrite Hg. destruct st. state_simpl. by rewrite <- app_assoc.
Qed.

Lemma killAndWait_spec st :
  killAndWait options platform st
  = (Normal (), set_calls (calls st ++ [{| who := Direct; at_ := KillWait |}]) (after_kill st)).
Proof. unfold killAndWait. by rewrite killProcess_spec. Qed.

Lemma onChildExit_spec exitCode signal st :
  onChildExit options exitCode signal st
  = (Normal (),
     set_cleaning true
       (set_removing (removing st ++ tempDirectories options)
          (set_waitForClose true
             (set_listeners []
                (set_processClosed true (emit (exit_chunk options exitCode signal) st)))))).
Proof.
  unfold onChildExit, log, removeEventListeners, modify, get, mbind, M_bind, mret, M_ret.
  unfold cleanup_start, exit_chunk.
  destruct st. state_simpl. by rewrite <- !app_assoc.
Qed.

Lemma relay_loop (rs : list (stream * Log)) line st :
  exec (for_of rs (λ r, log r.2 line)) st = emit ((λ r, Logged r.2 line) <$> rs) st.
Proof.
  unfold exec.
  assert (H : ∀ st, for_of rs (λ r, log r.2 line) st
                    = (Normal (), emit ((λ r, Logged r.2 line) <$> rs) st)).
  { clear st. induction rs as [|r rs IH]; intros st.
    - destruct st. state_simpl. by rewrite app_nil_r.
    - cbn [for_of]. unfold mbind, M_bind.
      change (log r.2 line st) with (Normal (), emit [Logged r.2 line] st).
      cbv beta iota. rewrite IH.
      rewrite fmap_cons. destruct st. state_simpl. by rewrite <- app_assoc. }
  by rewrite H.
Qed.

Lemma settle_attempt_spec ok id cs st :
  settle_attempt options platform ok id cs st
  = (mark_attempt cs,
     if ok then st else match attempting cs with 0 => st | S _ => after_kill st end).
Proof.
  revert id. induction cs as [|c cs IH]; intros id; cbn [settle_attempt mark_attempt].
  - by destruct ok.
  - unfold attempting. rewrite filter_cons.
    destruct (at_ c) eqn:E;
      try (rewrite IH; case_decide; [congruence|]; done).
    case_decide; [|congruence]. cbn [length].
    destruct ok; [done|]. by rewrite killProcess_spec.
Qed.

Lemma onAttemptSettled_spec ok st :
  onAttemptSettled options platform ok st
  = set_calls (mark_attempt (calls st))
      (if ok then st else match attempting (calls st) with 0 => st | S _ => after_kill st end).
Proof. unfold onAttemptSettled. by rewrite settle_attempt_spec. Qed.

Lemma attempting_mark cs : attempting (mark_attempt cs) = pred (attempting cs).
Proof.
  unfold attempting. induction cs as [|c cs IH]; [done|].
  cbn [mark_attempt]. rewrite filter_cons. case_decide as Hc.
  - rewrite filter_cons. cbn [at_]. case_decide; [done|]. done.
  - rewrite filter_cons. case_decide; [done|]. done.
Qed.

Lemma attempting_one c :
  attempting [c] = if decide (at_ c = AwaitAttempt) then 1 else 0.
Proof. unfold attempting. rewrite filter_cons, filter_nil. by case_decide. Qed.

Lemma attempting_snoc_other cs c :
  at_ c ≠ AwaitAttempt → attempting (cs ++ [c]) = attempting cs.
Proof.
  intros H. rewrite attempting_app, attempting_one. case_decide; [done|lia].
Qed.

Lemma coherent_gracefullyClose by_ st :
  coherent st → coherent (gracefullyClose options platform by_ st).
Proof.
  intros H. destruct (gracefullyClosing st) eqn:Hg.
  - rewrite gracefullyClose_reentrant by done.
    assert (coherent (after_kill (emit [Logged browserLog "<forecefully close>"] st))) as H'.
    { apply coherent_after_kill, coherent_emit_quiet; [by repeat constructor | done]. }
    eapply coherent_same; [exact H'|reflexivity..|].
    change (attempting (calls st ++ [{| who := by_; at_ := AwaitClose |}])
            ≤ attempting (calls st)).
    by rewrite attempting_snoc_other.
  - rewrite gracefullyClose_first by done.
    destruct H as [Ht Ho Hcl Hcg Hcd Hat]. rewrite Hg in Hat.
    destruct st as [? ? ? ? ? ? ? ? pc gc wc wu cl rm cs tr].
    unfold Launcher.view in *. state_simpl.
    constructor; unfold Launcher.view; state_simpl; try done.
    + erewrite observe_all_app by eassumption. done.
    + rewrite attempting_app, attempting_one. cbn [at_].
      case_decide; [lia|done].
Qed.

Lemma coherent_onRemoved i st : coherent st → coherent (onRemoved i st).
Proof.
  intros H. unfold onRemoved.
  destruct (removing st !! i) as [dir|] eqn:Hi; [|done].
  destruct (rimraf dir (fs st)) as [err fs1].
  apply lookup_lt_Some in Hi.
  assert (length (delete i (removing st)) = pred (length (removing st))) as Hlen.
  { rewrite length_delete by (apply lookup_lt_is_Some_2; lia). lia. }
  destruct H as [Ht Ho Hcl Hcg Hcd Hat].
  destruct st as [? ? ? ? ? ? ? ? pc gc wc wu cl rm cs tr].
  unfold Launcher.view in *. state_simpl.
  destruct (length rm) as [|n] eqn:El; [lia|]. cbn [pred] in Hlen.
  destruct err as [e|]; constructor; unfold Launcher.view; state_simpl; try done;
    erewrite observe_all_app by eassumption;
    cbn [Launcher.observe_all Launcher.observe exited closed cleaned begun inflight];
    by rewrite Hlen.
Qed.

Lemma observe_removals_started m dirs :
  closed m = true →
  observe_all m (RemovalStarted <$> dirs)
  = Some {| exited := exited m; closed := closed m; cleaned := cleaned m;
            begun := begun m + length dirs; inflight := inflight m + length dirs |}.
Proof.
  revert m. induction dirs as [|d ds IH]; intros m Hm.
  - cbn. destruct m; cbn. by rewrite !Nat.add_0_r.
  - cbn. rewrite Hm, IH by done. cbn. do 2 f_equal; lia.
Qed.

Lemma coherent_onChildExit exitCode signal st :
  coherent st → exitObserver st = true →
  coherent (exec (onChildExit options exitCode signal) (set_exitObserver false (set_alive false st))).
Proof.
  intros [Ht Ho Hcl Hcg Hcd Hat] Hobs.
  unfold exec. rewrite onChildExit_spec.
  rewrite Hobs in Ho. symmetry in Ho. apply negb_true_iff in Ho.
  assert (waitForCleanup st = false) as Hw.
  { destruct (waitForCleanup st); [|done]. rewrite Hcd in Ho; done. }
  destruct st as [? ? ? ? ? ? ? ? pc gc wc wu cl rm cs tr].
  unfold Launcher.view in *. state_simpl. subst.
  constructor; unfold Launcher.view; state_simpl; try done.
  erewrite observe_all_app by eassumption. unfold exit_chunk.
  cbn [app Launcher.observe_all Launcher.observe exited closed cleaned begun inflight
       negb andb bool_decide decide_rel].
  rewrite bool_decide_eq_true_2 by done.
  cbn [exited closed cleaned begun inflight negb andb].
  rewrite observe_removals_started by done.
  cbn [exited closed cleaned begun inflight]. by rewrite length_app.
Qed.

Lemma coherent_handle ev st : coherent st → coherent (handle ev st).
Proof.
  intros H. destruct ev as [| | |s| | |c sg|s line|ok|i]; cbn [Launcher.handle].
  - by apply coherent_gracefullyClose.
  - rewrite killAndWait_spec.
    eapply coherent_same; [apply coherent_after_kill, H|reflexivity..|].
    change (attempting (calls st ++ [{| who := Direct; at_ := KillWait |}])
            ≤ attempting (calls st)).
    by rewrite attempting_snoc_other.
  - destruct (alive st && negb (processClosed st)); [|done].
    eapply coherent_same; [exact H|reflexivity..].
  - case_decide; [|done]. by apply coherent_gracefullyClose.
  - apply coherent_set_hostExited.
    case_decide; [|done]. rewrite exec_killProcess. by apply coherent_after_kill.
  - eapply coherent_same; [exact H|reflexivity..].
  - change (exitObserver (set_alive false st)) with (exitObserver st).
    destruct (exitObserver st) eqn:Ho.
    + by apply coherent_onChildExit.
    + eapply coherent_same; [exact H|reflexivity..].
  - rewrite relay_loop. apply coherent_emit_quiet; [|done].
    apply Forall_fmap, Forall_forall. by intros r _.
  - rewrite onAttemptSettled_spec.
    assert (coherent (if ok then st
                      else match attempting (calls st) with 0 => st | S _ => after_kill st end)) as H'.
    { destruct ok; [done|]. destruct (attempting _); [done|]. by apply coherent_after_kill. }
    assert (calls (if ok then st
                   else match attempting (calls st) with 0 => st | S _ => after_kill st end)
            = calls st) as Hcs.
    { destruct ok; [done|]. by destruct (attempting _). }
    eapply coherent_same; [exact H'|reflexivity..|].
    rewrite Hcs.
    change (attempting (mark_attempt (calls st)) ≤ attempting (calls st)).
    rewrite attempting_mark. lia.
  - by apply coherent_onRemoved.
Qed.

Lemma coherent_step ev st : coherent st → coherent (step st ev).
Proof.
  intros H. unfold Launcher.step. destruct (hostExited st); [done|].
  by apply coherent_react, coherent_handle.
Qed.

(** *** Nothing is left waiting after the reactions *)

Lemma process_exit_gone code st : hostExited (process_exit options platform code st) = true.
Proof. done. Qed.

Lemma resume_all_alive ready st :
  hostExited (resume_all options platform ready st) = false →
  resume_all options platform ready st
  = emit (resume ready 0 (calls st)).1.2 (set_calls (resumed ready <$> calls st) st).
Proof.
  unfold resume_all. pose proof (resume_calls ready 0 (calls st)) as Hcs.
  destruct (resume ready 0 (calls st)) as [[cs acts] ex]; cbn [fst snd] in *. subst cs.
  destruct ex; [by rewrite process_exit_gone | done].
Qed.

Lemma resumed_keeps_off ready at_pc c :
  (∀ p, at_pc ≠ Fulfilled p) → at_ c ≠ at_pc → at_ (resumed ready c) ≠ at_pc.
Proof.
  intros Hf Hc. unfold resumed. destruct (ready (at_ c)) as [[p l]|]; cbn [at_]; [|done].
  intros Heq. by eapply Hf.
Qed.

Lemma resumed_takes_off ready at_pc c :
  (∀ p, at_pc ≠ Fulfilled p) → is_Some (ready at_pc) → at_ (resumed ready c) ≠ at_pc.
Proof.
  intros Hf [x Hx]. unfold resumed. destruct (ready (at_ c)) as [[p l]|] eqn:E; cbn [at_].
  - intros Heq. by eapply Hf.
  - intros Heq. rewrite Heq, Hx in E. done.
Qed.

Lemma quiescent_react st : hostExited (react st) = false → quiescent (react st).
Proof.
  unfold Launcher.react.
  set (st1 := if hostExited st then st else _).
  set (st2 := if hostExited st1 then st1 else _).
  set (st3 := if hostExited st2 then st2 else _).
  intros Halive.
  destruct (hostExited st3) eqn:H3; [congruence|].
  assert (hostExited st2 = false) as H2.
  { destruct (hostExited st2) eqn:E; [|done]. subst st3. rewrite E in H3. congruence. }
  assert (hostExited st1 = false) as H1.
  { destruct (hostExited st1) eqn:E; [|done]. subst st2. rewrite E in H2. congruence. }
  assert (hostExited st = false) as H0.
  { destruct (hostExited st) eqn:E; [|done]. subst st1. rewrite E in H1. congruence. }
  (* the continuations behind waitForClose *)
  assert (waitForClose st1 = waitForClose st ∧
          (waitForClose st1 = true → Forall (λ c, at_ c ≠ AwaitClose) (calls st1))) as [Hc1 Hq1].
  { subst st1. rewrite H0 in *. destruct (waitForClose st) eqn:E; [|by rewrite E].
    rewrite resume_all_alive by done. split; [done|]. intros _.
    change (Forall (λ c, at_ c ≠ AwaitClose) (resumed after_close <$> calls st)).
    apply Forall_fmap, Forall_forall. intros c _.
    apply resumed_takes_off; [done | by eexists]. }
  clearbody st1. clear H0.
  (* the end of cleanup() *)
  assert (waitForClose st2 = waitForClose st1 ∧ calls st2 = calls st1 ∧
          (cleaning st2 = true → removing st2 ≠ [])) as (Hc2 & Hcs2 & Hq2).
  { subst st2. rewrite H1 in *. unfold finish_cleanup.
    destruct (cleaning st1 && bool_decide (removing st1 = [])) eqn:E; [done|].
    repeat split. intros Hcl Hr. by rewrite Hcl, bool_decide_eq_true_2 in E. }
  clearbody st2. clear H1.
  (* the promises kill() handed out *)
  assert (waitForClose st3 = waitForClose st2 ∧ waitForCleanup st3 = waitForCleanup st2 ∧
          cleaning st3 = cleaning st2 ∧ removing st3 = removing st2 ∧
          (waitForClose st3 = true → Forall (λ c, at_ c ≠ AwaitClose) (calls st3)) ∧
          (waitForCleanup st3 = true → Forall (λ c, at_ c ≠ KillWait) (calls st3)))
    as (Hc3 & Hw3 & Hg3 & Hr3 & Hq3 & Hk3).
  { subst st3. rewrite H2 in *. destruct (waitForCleanup st2) eqn:E.
    - rewrite resume_all_alive by done. repeat split; try done.
      + intros Hc. change (waitForClose st2 = true) in Hc.
        change (Forall (λ c, at_ c ≠ AwaitClose) (resumed handed_cleanup <$> calls st2)).
        rewrite Hcs2. apply Forall_fmap.
        eapply Forall_impl; [apply Hq1; congruence|].
        intros c Hc'. by apply resumed_keeps_off.
      + intros _.
        change (Forall (λ c, at_ c ≠ KillWait) (resumed handed_cleanup <$> calls st2)).
        apply Forall_fmap, Forall_forall. intros c _.
        apply resumed_takes_off; [done | by eexists].
    - repeat split; try done; [|congruence].
      intros Hc. rewrite Hcs2. apply Hq1. congruence. }
  clearbody st3. clear H2.
  (* the continuations behind waitForCleanup *)
  destruct (waitForCleanup st3) eqn:E.
  - rewrite resume_all_alive by done. constructor.
    + intros Hc. change (waitForClose st3 = true) in Hc.
      change (Forall (λ c, at_ c ≠ AwaitClose) (resumed (after_cleanup) <$> calls st3)).
      apply Forall_fmap. eapply Forall_impl; [by apply Hq3|].
      intros c Hc'. by apply resumed_keeps_off.
    + intros _.
      change (Forall (λ c, at_ c ≠ AwaitCleanup ∧ at_ c ≠ KillWait)
                     (resumed (after_cleanup) <$> calls st3)).
      apply Forall_fmap. eapply Forall_impl; [by apply Hk3|].
      intros c Hc'. split.
      * apply resumed_takes_off; [done | by eexists].
      * by apply resumed_keeps_off.
    + intros Hc. change (removing st3 ≠ []). rewrite Hr3. apply Hq2.
      change (cleaning st3 = true) in Hc. congruence.
  - constructor.
    + done.
    + congruence.
    + intros Hc. rewrite Hr3. apply Hq2. congruence.
Qed.

(** *** The invariant *)

Lemma invariant_step ev st : invariant st → invariant (step st ev).
Proof.
  intros [Hc Hq]. split; [by apply coherent_step|].
  unfold Launcher.step. destruct (hostExited st) eqn:E; [congruence|].
  apply quiescent_react.
Qed.

Lemma invariant_run evs st : invariant st → invariant (run st evs).
Proof.
  revert st. induction evs as [|ev evs IH]; intros st H; [done|].
  cbn [Launcher.run foldl]. by apply IH, invariant_step.
Qed.

Lemma invariant_launched pid fs0 : invariant (launched options platform pid fs0).
Proof.
  split.
  - constructor; done.
  - intros _. constructor; done.
Qed.

Lemma reachable_invariant st : reachable st → invariant st.
Proof.
  intros (pid & fs0 & evs & _ & ->). apply invariant_run, invariant_launched.
Qed.

Lemma reachable_step st ev : reachable st → reachable (step st ev).
Proof.
  intros (pid & fs0 & evs & Hp & ->). exists pid, fs0, (evs ++ [ev]).
  split; [done|]. unfold Launcher.run. by rewrite foldl_app.
Qed.

Lemma reachable_run st evs : reachable st → reachable (run st evs).
Proof.
  intros (pid & fs0 & evs0 & Hp & ->). exists pid, fs0, (evs0 ++ evs).
  split; [done|]. unfold Launcher.run. by rewrite foldl_app.
Qed.

(** *** What an accepted trace looks like *)

Lemma observe_mono m a m' :
  observe m a = Some m' →
  (exited m = true → exited m' = true) ∧
  (closed m = true → closed m' = true) ∧
  (cleaned m = true → cleaned m' = true).
Proof.
  destruct a as [| | | |c s ls| | | | | |d ok| | | |[]| | |]; cbn [Launcher.observe];
    intros H; repeat case_match; simplify_eq; cbn; done.
Qed.

Lemma observe_all_mono m tr m' :
  observe_all m tr = Some m' →
  (exited m = true → exited m' = true) ∧
  (closed m = true → closed m' = true) ∧
  (cleaned m = true → cleaned m' = true).
Proof.
  revert m. induction tr as [|a tr IH]; intros m H; cbn in H.
  - by simplify_eq.
  - destruct (observe m a) as [m1|] eqn:E; [|done].
    destruct (observe_mono _ _ _ E) as (? & ? & ?).
    destruct (IH _ H) as (? & ? & ?). auto.
Qed.

Lemma observe_all_split m pre a post m2 :
  observe_all m (pre ++ a :: post) = Some m2 →
  ∃ m1 m1', observe_all m pre = Some m1 ∧ observe m1 a = Some m1' ∧
            observe_all m1' post = Some m2.
Proof.
  intros H. apply observe_all_app_inv in H as (m1 & H1 & H2).
  cbn in H2. destruct (observe m1 a) as [m1'|] eqn:E; [|done]. eauto.
Qed.

Lemma seen_exit m tr m' :
  observe_all m tr = Some m' → exited m = false → exited m' = true →
  ∃ c s, OnExitCalled c s [] ∈ tr.
Proof.
  revert m. induction tr as [|a tr IH]; intros m H Hm Hm'; cbn in H.
  - simplify_eq. congruence.
  - destruct (observe m a) as [m1|] eqn:E; [|done].
    destruct (exited m1) eqn:E1.
    + assert (∃ c s, a = OnExitCalled c s []) as (c & s & ->).
      { destruct a as [| | | |c s ls| | | | | |d ok| | | |[]| | |]; cbn in E;
          repeat case_match; simplify_eq; cbn in *; try congruence.
        exists c, s. f_equal.
        match goal with Hx : _ && _ = true |- _ => apply andb_prop in Hx as [_ Hx];
          by apply bool_decide_eq_true in Hx end. }
      exists c, s. apply list_elem_of_here.
    + destruct (IH _ H E1 Hm') as (c & s & Hin). exists c, s. by apply list_elem_of_further.
Qed.

Lemma seen_close m tr m' :
  observe_all m tr = Some m' → closed m = false → closed m' = true → FulfillClose ∈ tr.
Proof.
  revert m. induction tr as [|a tr IH]; intros m H Hm Hm'; cbn in H.
  - simplify_eq. congruence.
  - destruct (observe m a) as [m1|] eqn:E; [|done].
    destruct (closed m1) eqn:E1.
    + assert (a = FulfillClose) as ->.
      { destruct a as [| | | |c s ls| | | | | |d ok| | | |[]| | |]; cbn in E;
          repeat case_match; simplify_eq; cbn in *; congruence. }
      apply list_elem_of_here.
    + apply list_elem_of_further. by eapply IH.
Qed.

(** At the cleanup-complete signal one removal has been started for
    each temporary directory and all of them have completed. *)
Lemma accounting m tr m' :
  observe_all m tr = Some m' →
  begun m' = begun m + started tr ∧
  inflight m' + completed tr = inflight m + started tr.
Proof.
  revert m. induction tr as [|a tr IH]; intros m H; cbn in H.
  - simplify_eq. cbn. lia.
  - destruct (observe m a) as [m1|] eqn:E; [|done].
    destruct (IH _ H) as [Hb Hi].
    destruct a as [| | | |c s ls| | | | | |d ok| | | |[]| | |]; cbn in E;
      repeat case_match; simplify_eq; cbn in *; lia.
Qed.

Lemma seen_cleanup m tr m' :
  observe_all m tr = Some m' → cleaned m = false → cleaned m' = true →
  ∃ pre post m1, tr = pre ++ FulfillCleanup :: post ∧ observe_all m pre = Some m1 ∧
    closed m1 = true ∧ begun m1 = length (tempDirectories options) ∧ inflight m1 = 0.
Proof.
  revert m. induction tr as [|a tr IH]; intros m H Hm Hm'; cbn in H.
  - simplify_eq. congruence.
  - destruct (observe m a) as [m1|] eqn:E; [|done].
    destruct (cleaned m1) eqn:E1.
    + assert (a = FulfillCleanup ∧ closed m = true ∧
              begun m = length (tempDirectories options) ∧ inflight m = 0)
        as (-> & ? & ? & ?).
      { destruct a as [| | | |c s ls| | | | | |d ok| | | |[]| | |]; cbn in E;
          repeat case_match; simplify_eq; cbn in *; try congruence.
        match goal with Hx : _ && _ = true |- _ =>
          apply andb_prop in Hx as [Hx Hi]; apply andb_prop in Hx as [Hx Hb];
          apply andb_prop in Hx as [Hc _];
          apply bool_decide_eq_true in Hi, Hb; done end. }
      exists [], tr, m. done.
    + destruct (IH _ H E1 Hm') as (pre & post & m2 & -> & Hpre & ? & ? & ?).
      exists (a :: pre), post, m2. split; [done|]. split; [|done].
      cbn. by rewrite E.
Qed.

Lemma exit_call_needs_fresh m tr m' :
  observe_all m tr = Some m' → exited m = true → Forall (λ a, ¬ is_exit_call a) tr.
Proof.
  revert m. induction tr as [|a tr IH]; intros m H Hm; cbn in H; [constructor|].
  destruct (observe m a) as [m1|] eqn:E; [|done].
  constructor.
  - destruct a; cbn [is_exit_call]; try (by intros []).
    cbn in E. by rewrite Hm in E.
  - eapply IH; [done|]. by eapply observe_mono.
Qed.

Lemma no_exit_call_yet m tr m' :
  observe_all m tr = Some m' → exited m' = false → Forall (λ a, ¬ is_exit_call a) tr.
Proof.
  revert m. induction tr as [|a tr IH]; intros m H Hm; cbn in H; [constructor|].
  destruct (observe m a) as [m1|] eqn:E; [|done].
  constructor; [|by eapply IH].
  destruct a; cbn [is_exit_call]; try (by intros []).
  cbn in E. repeat case_match; simplify_eq.
  apply observe_all_mono in H as (H & _). cbn in H. rewrite H in Hm; done.
Qed.

Lemma nothing_escapes m tr m' :
  observe_all m tr = Some m' →
  Forall (λ a, match a with Rejects _ _ _ | Uncaught _ => False | _ => True end) tr.
Proof.
  revert m. induction tr as [|a tr IH]; intros m H; cbn in H; [constructor|].
  destruct (observe m a) as [m1|] eqn:E; [|done].
  constructor; [|by eapply IH]. destruct a; try done; cbn in E; done.
Qed.

Lemma start_order tr m :
  observe_all start tr = Some m →
  (closed m = true → exited m = true) ∧ (cleaned m = true → closed m = true).
Proof.
  assert (∀ m0 m, observe_all m0 tr = Some m →
            (closed m0 = true → exited m0 = true) →
            (cleaned m0 = true → closed m0 = true) →
            (closed m = true → exited m = true) ∧ (cleaned m = true → closed m = true)) as H.
  { clear m. induction tr as [|a tr IH]; intros m0 m H H1 H2; cbn in H.
    - by simplify_eq.
    - destruct (observe m0 a) as [m1|] eqn:E; [|done].
      eapply IH; [done| |];
        destruct a as [| | | |c s ls| | | | | |d ok| | | |[]| | |]; cbn in E;
        repeat case_match; simplify_eq; cbn in *; auto;
        repeat match goal with H : _ && _ = true |- _ => apply andb_prop in H as [? ?] end;
        auto. }
  intros Hm. eapply H; [done|done|done].
Qed.

(** *** Later states *)

Lemma leads_to_refl at_pc : leads_to at_pc at_pc.
Proof. destruct at_pc; cbn; auto. Qed.

Lemma leads_to_trans a b c : leads_to a b → leads_to b c → leads_to a c.
Proof.
  destruct a; cbn; intros H1 H2;
    repeat match goal with H : _ ∨ _ |- _ => destruct H end; subst; cbn in H2;
    repeat match goal with H : _ ∨ _ |- _ => destruct H end; subst; auto.
Qed.

Lemma advances_refl cs : advances cs cs.
Proof. intros id c H. exists c. split; [done|]. split; [done|apply leads_to_refl]. Qed.

Lemma advances_trans cs1 cs2 cs3 : advances cs1 cs2 → advances cs2 cs3 → advances cs1 cs3.
Proof.
  intros H1 H2 id c Hc.
  destruct (H1 _ _ Hc) as (c2 & Hc2 & Hw2 & Hl2).
  destruct (H2 _ _ Hc2) as (c3 & Hc3 & Hw3 & Hl3).
  exists c3. split; [done|]. split; [congruence|]. by eapply leads_to_trans.
Qed.

Lemma advances_app cs new : advances cs (cs ++ new).
Proof.
  intros id c H. exists c. split; [by apply lookup_app_l_Some|].
  split; [done|apply leads_to_refl].
Qed.

Lemma advances_resumed ready cs :
  (∀ at_pc p l, ready at_pc = Some (p, l) → leads_to at_pc (Fulfilled p)) →
  advances cs (resumed ready <$> cs).
Proof.
  intros Hr id c H. exists (resumed ready c).
  split; [by rewrite list_lookup_fmap, H|].
  unfold resumed. destruct (ready (at_ c)) as [[p l]|] eqn:E; cbn.
  - split; [done|]. by eapply Hr.
  - split; [done|apply leads_to_refl].
Qed.

Lemma advances_mark cs : advances cs (mark_attempt cs).
Proof.
  induction cs as [|c cs IH]; intros id c' H; [done|].
  cbn [mark_attempt]. case_decide as Hc.
  - destruct id as [|id]; cbn in *.
    + simplify_eq. eexists. split; [done|]. cbn. split; [done|]. rewrite Hc. cbn. auto.
    + exists c'. split; [done|]. split; [done|apply leads_to_refl].
  - destruct id as [|id]; cbn in *.
    + simplify_eq. exists c'. split; [done|]. split; [done|apply leads_to_refl].
    + by apply IH.
Qed.

Lemma after_close_leads at_pc p l : after_close at_pc = Some (p, l) → leads_to at_pc (Fulfilled p).
Proof. destruct at_pc; try done. intros [= <- <-]. cbn. auto. Qed.
Lemma handed_cleanup_leads at_pc p l :
  handed_cleanup at_pc = Some (p, l) → leads_to at_pc (Fulfilled p).
Proof. destruct at_pc; try done. intros [= <- <-]. cbn. auto. Qed.
Lemma after_cleanup_leads at_pc p l :
  after_cleanup at_pc = Some (p, l) → leads_to at_pc (Fulfilled p).
Proof. destruct at_pc; try done. intros [= <- <-]. cbn. auto. Qed.

Lemma later_refl st : later st st.
Proof.
  constructor; try done.
  - exists []. by rewrite app_nil_r.
  - apply advances_refl.
Qed.

Lemma later_trans st1 st2 st3 : later st1 st2 → later st2 st3 → later st1 st3.
Proof.
  intros [[c1 Ht1] Hp1 Hr1 Hh1 Hl1 Hc1 Hg1 Hw1 Hu1 Ha1] [[c2 Ht2] Hp2 Hr2 Hh2 Hl2 Hc2 Hg2 Hw2 Hu2 Ha2].
  constructor; auto.
  - exists (c1 ++ c2). by rewrite Ht2, Ht1, app_assoc.
  - congruence.
  - congruence.
  - by eapply advances_trans.
Qed.

Lemma later_emit acts st : later st (emit acts st).
Proof.
  constructor; try done.
  - by exists acts.
  - apply advances_refl.
Qed.

Lemma later_after_kill st : later st (after_kill st).
Proof.
  constructor; try done.
  - by eexists.
  - apply advances_refl.
Qed.

Lemma later_set_hostExited st : later st (set_hostExited true st).
Proof.
  constructor; try done.
  - exists []. by rewrite app_nil_r.
  - apply advances_refl.
Qed.

Lemma later_process_exit code st : later st (process_exit options platform code st).
Proof.
  unfold process_exit.
  eapply later_trans; [apply (later_emit [HostExit code])|].
  eapply later_trans; [|apply later_set_hostExited].
  case_decide; [|apply later_refl].
  rewrite exec_killProcess. apply later_after_kill.
Qed.

Lemma later_resume_all ready st :
  (∀ at_pc p l, ready at_pc = Some (p, l) → leads_to at_pc (Fulfilled p)) →
  later st (resume_all options platform ready st).
Proof.
  intros Hr. unfold resume_all.
  pose proof (resume_calls ready 0 (calls st)) as Hcs.
  destruct (resume ready 0 (calls st)) as [[cs acts] ex]; cbn [fst snd] in *. subst cs.
  assert (later st (emit acts (set_calls (resumed ready <$> calls st) st))) as H.
  { constructor; try done.
    - by exists acts.
    - by apply advances_resumed. }
  destruct ex; [|done].
  eapply later_trans; [exact H|apply later_process_exit].
Qed.

Lemma later_finish_cleanup st : later st (finish_cleanup st).
Proof.
  unfold finish_cleanup. destruct (_ && _); [|apply later_refl].
  constructor; try done.
  - by eexists.
  - apply advances_refl.
Qed.

Lemma later_react st : later st (react st).
Proof.
  unfold Launcher.react.
  set (st1 := if hostExited st then st else _).
  assert (later st st1) as H1.
  { subst st1. destruct (hostExited st); [apply later_refl|].
    destruct (waitForClose st); [|apply later_refl].
    apply later_resume_all, after_close_leads. }
  clearbody st1.
  set (st2 := if hostExited st1 then st1 else _).
  assert (later st1 st2) as H2.
  { subst st2. destruct (hostExited st1); [apply later_refl|]. apply later_finish_cleanup. }
  clearbody st2.
  set (st3 := if hostExited st2 then st2 else _).
  assert (later st2 st3) as H3.
  { subst st3. destruct (hostExited st2); [apply later_refl|].
    destruct (waitForCleanup st2); [|apply later_refl].
    apply later_resume_all, handed_cleanup_leads. }
  clearbody st3.
  eapply later_trans; [exact H1|]. eapply later_trans; [exact H2|].
  eapply later_trans; [exact H3|].
  destruct (hostExited st3); [apply later_refl|].
  destruct (waitForCleanup st3); [|apply later_refl].
  apply later_resume_all, after_cleanup_leads.
Qed.

Lemma later_gracefullyClose by_ st : later st (gracefullyClose options platform by_ st).
Proof.
  destruct (gracefullyClosing st) eqn:Hg.
  - rewrite gracefullyClose_reentrant by done.
    eapply later_trans; [apply (later_emit [Logged browserLog "<forecefully close>"])|].
    eapply later_trans; [apply later_after_kill|].
    constructor; try done.
    + exists []. by rewrite app_nil_r.
    + apply advances_app.
  - rewrite gracefullyClose_first by done.
    constructor; try done.
    + by eexists.
    + apply advances_app.
Qed.

Lemma later_handle ev st : later st (handle ev st).
Proof.
  destruct ev as [| | |s| | |c sg|s line|ok|i]; cbn [Launcher.handle].
  - apply later_gracefullyClose.
  - rewrite killAndWait_spec.
    eapply later_trans; [apply later_after_kill|].
    constructor; try done.
    + exists []. by rewrite app_nil_r.
    + apply advances_app.
  - destruct (_ && _); [|apply later_refl].
    constructor; try done.
    + exists []. by rewrite app_nil_r.
    + apply advances_refl.
  - case_decide; [|apply later_refl]. apply later_gracefullyClose.
  - eapply later_trans; [|apply later_set_hostExited].
    case_decide; [|apply later_refl]. rewrite exec_killProcess. apply later_after_kill.
  - constructor; try done.
    + exists []. by rewrite app_nil_r.
    + apply advances_refl.
  - change (exitObserver (set_alive false st)) with (exitObserver st).
    destruct (exitObserver st).
    + unfold exec. rewrite onChildExit_spec.
      constructor; try done.
      * by eexists.
      * apply advances_refl.
    + constructor; try done.
      * exists []. by rewrite app_nil_r.
      * apply advances_refl.
  - rewrite relay_loop. apply later_emit.
  - rewrite onAttemptSettled_spec.
    set (st' := if ok then st else _).
    assert (later st st') as H.
    { subst st'. destruct ok; [apply later_refl|].
      destruct (attempting _); [apply later_refl|apply later_after_kill]. }
    assert (calls st' = calls st) as Hcs.
    { subst st'. destruct ok; [done|]. by destruct (attempting _). }
    eapply later_trans; [exact H|].
    constructor; try done.
    + exists []. by rewrite app_nil_r.
    + change (advances (calls st') (mark_attempt (calls st))).
      rewrite Hcs. apply advances_mark.
  - unfold onRemoved. destruct (removing st !! i) as [dir|]; [|apply later_refl].
    destruct (rimraf dir (fs st)) as [[e|] fs1]; constructor; try done;
      try (by eexists); apply advances_refl.
Qed.

Lemma later_step ev st : later st (step st ev).
Proof.
  unfold Launcher.step. destruct (hostExited st); [apply later_refl|].
  eapply later_trans; [apply later_handle|apply later_react].
Qed.

Lemma later_run evs st : later st (run st evs).
Proof.
  revert st. induction evs as [|ev evs IH]; intros st; [apply later_refl|].
  cbn [Launcher.run foldl]. eapply later_trans; [apply later_step|apply IH].
Qed.

(** *** The reactions, when little or nothing is ready *)

Lemma emit_nothing st : emit [] st = st.
Proof. destruct st. state_simpl. by rewrite app_nil_r. Qed.

Lemma set_calls_same st : set_calls (calls st) st = st.
Proof. by destruct st. Qed.

Lemma resume_all_nothing ready st :
  Forall (λ c, ready (at_ c) = None) (calls st) →
  resume_all options platform ready st = st.
Proof.
  intros H. unfold resume_all. rewrite resume_nothing by done.
  by rewrite set_calls_same, emit_nothing.
Qed.

Lemma calls_process_exit code st : calls (process_exit options platform code st) = calls st.
Proof.
  unfold process_exit. case_decide; [|done]. by rewrite exec_killProcess.
Qed.

Lemma calls_resume_all ready st :
  calls (resume_all options platform ready st) = resumed ready <$> calls st.
Proof.
  unfold resume_all. pose proof (resume_calls ready 0 (calls st)) as Hcs.
  destruct (resume ready 0 (calls st)) as [[cs acts] ex]; cbn [fst snd] in *. subst cs.
  destruct ex; [by rewrite calls_process_exit | done].
Qed.

Lemma finish_cleanup_nothing st :
  (cleaning st = true → removing st ≠ []) → finish_cleanup st = st.
Proof.
  intros H. unfold finish_cleanup.
  destruct (cleaning st) eqn:E; [|done].
  rewrite bool_decide_eq_false_2; [done|]. by apply H.
Qed.

(** With no continuation behind [waitForClose] and no [cleanup()] about
    to end, only what waits for [waitForCleanup] can run. *)
Lemma react_no_close st :
  hostExited st = false →
  (waitForClose st = true → Forall (λ c, at_ c ≠ AwaitClose) (calls st)) →
  (cleaning st = true → removing st ≠ []) →
  react st =
    (let st3 := if waitForCleanup st then resume_all options platform handed_cleanup st else st in
     if hostExited st3 then st3
     else if waitForCleanup st3 then resume_all options platform after_cleanup st3 else st3).
Proof.
  intros Hh Hc Hr. unfold Launcher.react. rewrite Hh.
  assert ((if waitForClose st then resume_all options platform after_close st else st) = st)
    as ->.
  { destruct (waitForClose st); [|done]. apply resume_all_nothing.
    specialize (Hc eq_refl).
    eapply Forall_impl; [exact Hc|]. intros c Hc'. cbv beta in Hc'. by destruct (at_ c). }
  rewrite Hh. by rewrite finish_cleanup_nothing, Hh.
Qed.

Lemma react_idle st : hostExited st = false → quiescent st → react st = st.
Proof.
  intros Hh [Hc Hu Hr]. rewrite react_no_close by done. cbv zeta.
  destruct (waitForCleanup st) eqn:E; [|by rewrite Hh, E].
  specialize (Hu eq_refl).
  assert (resume_all options platform handed_cleanup st = st) as ->.
  { apply resume_all_nothing. eapply Forall_impl; [exact Hu|].
    intros c [_ Hc']. by destruct (at_ c). }
  rewrite Hh, E. apply resume_all_nothing.
  eapply Forall_impl; [exact Hu|]. intros c [Hc' _]. by destruct (at_ c).
Qed.

(** The continuations behind [waitForClose] run whenever the host is
    there. *)
Lemma react_close_resumes st :
  hostExited st = false → waitForClose st = true →
  Forall (λ c, at_ c ≠ AwaitClose) (calls (react st)).
Proof.
  intros Hh Hc.
  assert (Forall (λ c, at_ c ≠ AwaitClose) (calls (resume_all options platform after_close st)))
    as H1.
  { rewrite calls_resume_all. apply Forall_fmap, Forall_forall. intros c _.
    apply resumed_takes_off; [done | by eexists]. }
  unfold Launcher.react. rewrite Hh, Hc.
  set (st1 := resume_all options platform after_close st) in *. clearbody st1.
  set (st2 := if hostExited st1 then st1 else finish_cleanup st1).
  assert (Forall (λ c, at_ c ≠ AwaitClose) (calls st2)) as H2.
  { subst st2. destruct (hostExited st1); [done|]. unfold finish_cleanup.
    by destruct (_ && _). }
  clearbody st2.
  set (st3 := if hostExited st2 then st2 else _).
  assert (Forall (λ c, at_ c ≠ AwaitClose) (calls st3)) as H3.
  { subst st3. destruct (hostExited st2); [done|].
    destruct (waitForCleanup st2); [|done].
    rewrite calls_resume_all. apply Forall_fmap.
    eapply Forall_impl; [exact H2|]. intros c Hc'. by apply resumed_keeps_off. }
  clearbody st3.
  destruct (hostExited st3); [done|].
  destruct (waitForCleanup st3); [|done].
  rewrite calls_resume_all. apply Forall_fmap.
  eapply Forall_impl; [exact H3|]. intros c Hc'. by apply resumed_keeps_off.
Qed.

(** *** What the reactions write *)

Lemma quiet_reactive_kill st : Forall reactive (kill_attempt platform st).1.
Proof.
  unfold kill_attempt. destruct (_ && _); cbn [fst]; [|constructor].
  destruct (String.eqb _ _); by repeat constructor.
Qed.

Lemma reactive_removals dirs fs0 :
  Forall (λ a, reactive a ∧ ¬ is_kill_signal a) (sync_removals dirs fs0).1.
Proof.
  revert fs0. induction dirs as [|d ds IH]; intros fs0; cbn [sync_removals]; [constructor|].
  destruct (rimraf d fs0) as [[e|] fs1].
  - repeat constructor. by intros [].
  - specialize (IH fs1). destruct (sync_removals ds fs1).
    constructor; [|done]. split; [done|]. by intros [].
Qed.

Lemma kill_attempt_closed st : processClosed st = true → (kill_attempt platform st).1 = [].
Proof. intros H. unfold kill_attempt. rewrite H. by rewrite andb_false_r. Qed.

Lemma writes_refl st : writes st st.
Proof. exists []. split; [by rewrite app_nil_r|constructor]. Qed.

Lemma writes_trans st1 st2 st3 :
  processClosed st2 = processClosed st1 → writes st1 st2 → writes st2 st3 → writes st1 st3.
Proof.
  intros Hp (c1 & H1 & F1) (c2 & H2 & F2). exists (c1 ++ c2).
  split; [by rewrite H2, H1, app_assoc|].
  apply Forall_app. split; [done|]. by rewrite Hp in F2.
Qed.

Lemma writes_after_kill st : writes st (after_kill st).
Proof.
  eexists. split; [reflexivity|].
  repeat (apply Forall_cons; split; [split; [done|by intros _ []]|]).
  apply Forall_app. split.
  - destruct (processClosed st) eqn:E.
    + rewrite kill_attempt_closed by done. constructor.
    + eapply Forall_impl; [apply quiet_reactive_kill|]. intros a Ha. split; [done|]. done.
  - eapply Forall_impl; [apply reactive_removals|]. intros a [? ?]. done.
Qed.

Lemma writes_process_exit code st : writes st (process_exit options platform code st).
Proof.
  unfold process_exit.
  assert (writes st (emit [HostExit code] st)) as H1.
  { eexists. split; [reflexivity|]. repeat constructor. by intros _ []. }
  destruct H1 as (c1 & H1 & F1).
  case_decide.
  - rewrite exec_killProcess.
    destruct (writes_after_kill (emit [HostExit code] st)) as (c2 & H2 & F2).
    exists (c1 ++ c2). split.
    + change (trace (after_kill (emit [HostExit code] st)) = trace st ++ c1 ++ c2).
      by rewrite H2, H1, app_assoc.
    + apply Forall_app. split; done.
  - exists c1. split; done.
Qed.

Lemma resume_reactive ready id cs :
  (∀ at_pc p l, ready at_pc = Some (p, l) → Forall (λ a, reactive a ∧ ¬ is_kill_signal a) l) →
  Forall (λ a, reactive a ∧ ¬ is_kill_signal a) (resume ready id cs).1.2.
Proof.
  intros Hr. revert id. induction cs as [|c cs IH]; intros id; [constructor|].
  cbn [resume]. specialize (IH (S id)).
  destruct (resume ready (S id) cs) as [[cs2 acts] ex]; cbn [fst snd] in *.
  destruct (ready (at_ c)) as [[p l]|] eqn:E; cbn [fst snd]; [|done].
  apply Forall_app. split; [by eapply Hr|].
  constructor; [|done]. split; [done|by intros []].
Qed.

Lemma writes_resume_all ready st :
  (∀ at_pc p l, ready at_pc = Some (p, l) → Forall (λ a, reactive a ∧ ¬ is_kill_signal a) l) →
  writes st (resume_all options platform ready st).
Proof.
  intros Hr. unfold resume_all.
  pose proof (resume_reactive ready 0 (calls st) Hr) as Hacts.
  destruct (resume ready 0 (calls st)) as [[cs acts] ex]; cbn [fst snd] in *.
  assert (writes st (emit acts (set_calls cs st))) as H.
  { exists acts. split; [done|]. eapply Forall_impl; [exact Hacts|]. intros a [? ?]. done. }
  destruct ex; [|done].
  eapply writes_trans; [|exact H|apply writes_process_exit]. done.
Qed.

Lemma processClosed_resume_all ready st :
  processClosed (resume_all options platform ready st) = processClosed st.
Proof.
  unfold resume_all. destruct (resume ready 0 (calls st)) as [[cs acts] ex].
  destruct ex; [|done]. unfold process_exit. case_decide; [|done].
  by rewrite exec_killProcess.
Qed.

Lemma writes_react st : writes st (react st).
Proof.
  unfold Launcher.react.
  set (st1 := if hostExited st then st else _).
  assert (writes st st1 ∧ processClosed st1 = processClosed st) as [H1 P1].
  { subst st1. destruct (hostExited st); [split; [apply writes_refl|done]|].
    destruct (waitForClose st); [|split; [apply writes_refl|done]].
    split; [|apply processClosed_resume_all].
    apply writes_resume_all. intros at_pc p l. destruct at_pc; try done.
    intros [= <- <-]. constructor. }
  clearbody st1.
  set (st2 := if hostExited st1 then st1 else _).
  assert (writes st1 st2 ∧ processClosed st2 = processClosed st1) as [H2 P2].
  { subst st2. destruct (hostExited st1); [split; [apply writes_refl|done]|].
    unfold finish_cleanup. destruct (_ && _); [|split; [apply writes_refl|done]].
    split; [|done]. eexists. split; [reflexivity|]. repeat constructor. by intros _ []. }
  clearbody st2.
  set (st3 := if hostExited st2 then st2 else _).
  assert (writes st2 st3 ∧ processClosed st3 = processClosed st2) as [H3 P3].
  { subst st3. destruct (hostExited st2); [split; [apply writes_refl|done]|].
    destruct (waitForCleanup st2); [|split; [apply writes_refl|done]].
    split; [|apply processClosed_resume_all].
    apply writes_resume_all. intros at_pc p l. destruct at_pc; try done.
    intros [= <- <-]. constructor. }
  clearbody st3.
  eapply writes_trans; [exact P1|exact H1|].
  eapply writes_trans; [exact P2|exact H2|].
  eapply writes_trans; [exact P3|exact H3|].
  destruct (hostExited st3); [apply writes_refl|].
  destruct (waitForCleanup st3); [|apply writes_refl].
  apply writes_resume_all. intros at_pc p l. destruct at_pc; try done.
  intros [= <- <-]. repeat constructor. by intros [].
Qed.

Lemma attempts_app tr1 tr2 : attempts (tr1 ++ tr2) = attempts tr1 + attempts tr2.
Proof.
  induction tr1 as [|a tr1 IH]; [done|]. cbn. destruct a; cbn; by rewrite ?IH.
Qed.

Lemma attempts_reactive chunk : Forall reactive chunk → attempts chunk = 0.
Proof. induction 1 as [|a chunk Ha _ IH]; [done|]. by destruct a. Qed.

(** *** When promises resolve, and the exit observer *)

Lemma reachable_trace st : reachable st → observe_all start (trace st) = Some (view st).
Proof. intros H. by destruct (reachable_invariant _ H) as [[] _]. Qed.

(** What the monitor had seen when a promise was fulfilled. *)
Lemma fulfilled_after st pre p id post :
  reachable st →
  trace st = pre ++ Fulfils p id :: post →
  ∃ m, observe_all start pre = Some m ∧ exited m = true ∧ closed m = true ∧
       (p ≠ ReentrantPath → cleaned m = true).
Proof.
  intros Hr Htr. pose proof (reachable_trace _ Hr) as Hobs. rewrite Htr in Hobs.
  apply observe_all_split in Hobs as (m1 & m1' & Hpre & Hp & _).
  destruct (start_order _ _ Hpre) as [Hce Hcc].
  exists m1. split; [done|].
  destruct p; cbn in Hp.
  - destruct (cleaned m1) eqn:E1; [|discriminate Hp]. auto.
  - destruct (closed m1) eqn:E2; [|discriminate Hp].
    split; [auto|]. split; [done|]. by intros [].
  - destruct (cleaned m1) eqn:E1; [|discriminate Hp]. auto.
Qed.

Lemma fulfilled_after_close st pre p id post :
  reachable st → trace st = pre ++ Fulfils p id :: post → FulfillClose ∈ pre.
Proof.
  intros Hr Htr. destruct (fulfilled_after _ _ _ _ _ Hr Htr) as (m & Hm & _ & Hc & _).
  by eapply seen_close.
Qed.

Lemma fulfilled_after_cleanup st pre p id post :
  reachable st → trace st = pre ++ Fulfils p id :: post → p ≠ ReentrantPath →
  FulfillCleanup ∈ pre.
Proof.
  intros Hr Htr Hp. destruct (fulfilled_after _ _ _ _ _ Hr Htr) as (m & Hm & _ & _ & Hc).
  destruct (seen_cleanup _ _ _ Hm eq_refl (Hc Hp)) as (pre1 & pre2 & _ & -> & _).
  apply elem_of_app. right. apply list_elem_of_here.
Qed.

(** C1, as amended: a promise returned by [gracefullyClose] resolves
    only after the exit callback was called and the closed signal was
    given; on the first-call path (and for [kill]) it resolves only after
    the cleanup-complete signal, which itself comes only when one removal
    per temporary directory has been started and all of them have
    completed.  On the reentrant path nothing more than the closed
    signal is waited for. *)
Theorem close_resolves_only_after st pre p id post :
  reachable st →
  trace st = pre ++ Fulfils p id :: post →
  (∃ c s, OnExitCalled c s [] ∈ pre) ∧
  FulfillClose ∈ pre ∧
  (p ≠ ReentrantPath →
   ∃ pre1 pre2, pre = pre1 ++ FulfillCleanup :: pre2 ∧
     started pre1 = length (tempDirectories options) ∧
     completed pre1 = started pre1).
Proof.
  intros Hr Htr.
  destruct (fulfilled_after _ _ _ _ _ Hr Htr) as (m & Hpre & Hexited & Hclosed & Hcleaned).
  split; [|split].
  - eapply seen_exit; [exact Hpre|done|done].
  - eapply seen_close; [exact Hpre|done|done].
  - intros Hne.
    destruct (seen_cleanup _ _ _ Hpre eq_refl (Hcleaned Hne))
      as (pre1 & pre2 & m1 & -> & Hm & _ & Hb & Hi).
    exists pre1, pre2. split; [done|].
    destruct (accounting _ _ _ Hm) as [Hb' Hi']. cbn in Hb', Hi'. lia.
Qed.

(** C3: the exit callback is called at most once, always with no host
    listener left attached, and it has been called exactly when the exit
    of the child has been observed.  When the 'exit' event arrives and
    had not been observed before, the observer logs, removes the
    listeners, calls the callback with the exit code and the signal of
    the event, and gives the closed signal, in this order. *)
Theorem exit_observed_once st :
  reachable st →
  (∀ pre c s ls post, trace st = pre ++ OnExitCalled c s ls :: post →
     ls = [] ∧ Forall (λ a, ¬ is_exit_call a) pre ∧ Forall (λ a, ¬ is_exit_call a) post) ∧
  (processClosed st = true ↔ ∃ c s, OnExitCalled c s [] ∈ trace st) ∧
  (∀ c s, hostExited st = false → processClosed st = false →
     ∃ tail, trace (step st (ChildExit c s)) = trace st ++ exit_chunk options c s ++ tail ∧
             Forall (λ a, ¬ is_exit_call a) tail ∧
             processClosed (step st (ChildExit c s)) = true).
Proof.
  intros Hr. pose proof (reachable_trace _ Hr) as Hobs.
  split; [|split].
  - intros pre c s ls post Htr. rewrite Htr in Hobs.
    apply observe_all_split in Hobs as (m1 & m1' & Hpre & Hp & Hpost).
    cbn in Hp. destruct (exited m1) eqn:E; [done|].
    destruct (bool_decide (ls = [])) eqn:El; [|done]. apply bool_decide_eq_true in El.
    cbn in Hp. simplify_eq.
    split; [done|]. split.
    + by eapply no_exit_call_yet.
    + by eapply exit_call_needs_fresh.
  - split.
    + intros Hp. eapply seen_exit; [exact Hobs|done|done].
    + intros (c & s & Hin). apply list_elem_of_split in Hin as (pre & post & Htr).
      rewrite Htr in Hobs.
      apply observe_all_split in Hobs as (m1 & m1' & Hpre & Hp & Hpost).
      cbn in Hp. destruct (negb (exited m1) && _); [|done]. simplify_eq.
      apply observe_all_mono in Hpost as (Hpost & _). by apply Hpost.
  - intros c s Hh Hp.
    destruct (reachable_invariant _ Hr) as [[_ Ho _ _ _ _] _].
    rewrite Hp in Ho. cbn in Ho.
    unfold Launcher.step. rewrite Hh. cbn [Launcher.handle].
    change (exitObserver (set_alive false st)) with (exitObserver st). rewrite Ho.
    unfold exec. rewrite onChildExit_spec.
    set (X := set_cleaning _ _).
    destruct (writes_react X) as (tail & Htail & Ftail).
    exists tail. split; [|split].
    + rewrite Htail.
      transitivity ((trace st ++ exit_chunk options c s) ++ tail); [reflexivity|].
      by rewrite <- app_assoc.
    + eapply Forall_impl; [exact Ftail|]. intros a [Ha _].
      destruct a; cbn in Ha |- *; tauto.
    + by apply (later_react X).
Qed.


(** *** Where an invocation stands *)

Lemma step_unfold st ev :
  hostExited st = false → step st ev = react (handle ev st).
Proof. intros H. unfold Launcher.step. by rewrite H. Qed.

Lemma resolved_when_closed st id c :
  reachable st → hostExited st = false → waitForClose st = true →
  calls st !! id = Some c → leads_to AwaitClose (at_ c) →
  at_ c = Fulfilled ReentrantPath.
Proof.
  intros Hr Hh Hw Hc [Hl|Hl]; [|done].
  destruct (reachable_invariant _ Hr) as [_ Hq]. destruct (Hq Hh) as [Hqc _ _].
  specialize (Hqc Hw). rewrite Forall_lookup in Hqc. by specialize (Hqc _ _ Hc).
Qed.

Lemma resolved_when_cleaned st id c :
  reachable st → hostExited st = false → waitForCleanup st = true →
  calls st !! id = Some c →
  (leads_to AwaitCleanup (at_ c) → at_ c = Fulfilled FirstPath) ∧
  (leads_to KillWait (at_ c) → at_ c = Fulfilled KillPath).
Proof.
  intros Hr Hh Hw Hc.
  destruct (reachable_invariant _ Hr) as [_ Hq]. destruct (Hq Hh) as [_ Hqc _].
  specialize (Hqc Hw). rewrite Forall_lookup in Hqc. destruct (Hqc _ _ Hc) as [H1 H2].
  split; intros [Hl|Hl]; done.
Qed.

Lemma cleaned_when_removed st :
  reachable st → hostExited st = false → processClosed st = true →
  removing st = [] → waitForCleanup st = true.
Proof.
  intros Hr Hh Hp Hrm.
  destruct (reachable_invariant _ Hr) as [[_ _ _ Hcg _ _] Hq]. destruct (Hq Hh) as [_ _ Hqr].
  destruct (waitForCleanup st) eqn:E; [done|].
  rewrite Hp in Hcg. cbn in Hcg. by destruct (Hqr Hcg).
Qed.

Lemma lookup_snoc {A} (l : list A) (x : A) : (l ++ [x]) !! length l = Some x.
Proof. by rewrite list_lookup_middle. Qed.

Lemma attempting_pos cs id c :
  cs !! id = Some c → at_ c = AwaitAttempt → 0 < attempting cs.
Proof.
  revert id. induction cs as [|c0 cs IH]; intros id Hc Ha; [done|].
  unfold attempting. rewrite filter_cons. destruct id as [|id]; cbn in Hc.
  - simplify_eq. case_decide; [cbn; lia|done].
  - specialize (IH _ Hc Ha). unfold attempting in IH. case_decide; cbn; lia.
Qed.

Lemma mark_attempt_lookup cs id c :
  attempting cs ≤ 1 → cs !! id = Some c → at_ c = AwaitAttempt →
  mark_attempt cs !! id = Some {| who := who c; at_ := AwaitCleanup |}.
Proof.
  revert id. induction cs as [|c0 cs IH]; intros id Hle Hc Ha; [done|].
  cbn [mark_attempt]. unfold attempting in Hle. rewrite filter_cons in Hle.
  destruct id as [|id]; cbn in Hc.
  - simplify_eq. case_decide; [reflexivity|congruence].
  - case_decide as H0.
    + pose proof (attempting_pos _ _ _ Hc Ha) as Hpos. unfold attempting in Hpos.
      cbn in Hle. lia.
    + cbn. by apply IH.
Qed.

Lemma mark_attempt_keeps_off at_pc cs :
  at_pc ≠ AwaitCleanup →
  Forall (λ c, at_ c ≠ at_pc) cs → Forall (λ c, at_ c ≠ at_pc) (mark_attempt cs).
Proof.
  intros Hne. induction 1 as [|c cs Hc Hcs IH]; [constructor|].
  cbn [mark_attempt]. case_decide.
  - constructor; [|done]. cbn. congruence.
  - by constructor.
Qed.

(** The caller's graceful-close promise settles, one way or the other:
    the invocation that awaited it goes on to wait for the
    cleanup-complete signal, and returns at once if that was given. *)
Lemma attempt_settled ok st id c :
  reachable st → hostExited st = false →
  calls st !! id = Some c → at_ c = AwaitAttempt →
  calls (step st (AttemptSettled ok)) !! id
  = Some {| who := who c;
            at_ := if waitForCleanup st then Fulfilled FirstPath else AwaitCleanup |}.
Proof.
  intros Hr Hh Hc Ha.
  destruct (reachable_invariant _ Hr) as [[_ _ _ _ _ Hat] Hq]. destruct (Hq Hh) as [Hqc Hqu Hqr].
  assert (attempting (calls st) ≤ 1) as Hle by (destruct (gracefullyClosing st); lia).
  rewrite step_unfold by done. cbn [Launcher.handle]. rewrite onAttemptSettled_spec.
  set (st0 := if ok then st else _).
  assert (hostExited st0 = false ∧ waitForClose st0 = waitForClose st ∧
          waitForCleanup st0 = waitForCleanup st ∧ cleaning st0 = cleaning st ∧
          removing st0 = removing st) as (Hh0 & Hw0 & Hu0 & Hg0 & Hr0).
  { subst st0. destruct ok; [done|]. by destruct (attempting _). }
  clearbody st0.
  set (X := set_calls (mark_attempt (calls st)) st0).
  assert (calls X !! id = Some {| who := who c; at_ := AwaitCleanup |}) as HX.
  { by apply mark_attempt_lookup. }
  rewrite react_no_close.
  - cbv zeta. change (waitForCleanup X) with (waitForCleanup st0). rewrite Hu0.
    destruct (waitForCleanup st) eqn:Hu.
    + assert (resume_all options platform handed_cleanup X = X) as ->.
      { apply resume_all_nothing.
        change (Forall (λ c, handed_cleanup (at_ c) = None) (mark_attempt (calls st))).
        eapply Forall_impl.
        - apply (mark_attempt_keeps_off KillWait); [done|].
          eapply Forall_impl; [by apply Hqu|]. by intros c' [_ ?].
        - intros c' Hc'. cbv beta in Hc'. by destruct (at_ c'). }
      change (hostExited X) with (hostExited st0). rewrite Hh0.
      change (waitForCleanup X) with (waitForCleanup st0). rewrite Hu0.
      rewrite calls_resume_all, list_lookup_fmap, HX. done.
    + change (hostExited X) with (hostExited st0). rewrite Hh0.
      change (waitForCleanup X) with (waitForCleanup st0). by rewrite Hu0.
  - done.
  - change (waitForClose st0 = true → Forall (λ c, at_ c ≠ AwaitClose) (mark_attempt (calls st))).
    rewrite Hw0. intros Hw. apply mark_attempt_keeps_off; [done | by apply Hqc].
  - change (cleaning st0 = true → removing st0 ≠ []). by rewrite Hg0, Hr0.
Qed.

Lemma after_kill_emit_trace acts st :
  trace (after_kill (emit acts st))
  = trace st ++ acts ++ [Logged browserLog "<kill>"; ListenersRemoved]
      ++ (kill_attempt platform st).1
      ++ (sync_removals (tempDirectories options) (fs st)).1.
Proof.
  transitivity ((trace st ++ acts) ++ [Logged browserLog "<kill>"; ListenersRemoved]
      ++ (kill_attempt platform st).1
      ++ (sync_removals (tempDirectories options) (fs st)).1); [reflexivity|].
  by rewrite <- app_assoc.
Qed.

Lemma call_eta c w a : who c = w → at_ c = a → c = {| who := w; at_ := a |}.
Proof. destruct c. cbn. by intros -> ->. Qed.

(** C2: a reentrant invocation logs, runs the forceful-kill procedure at
    once (listeners detached, the kill signal sent if the child is believed
    alive, the synchronous removals), does not call the caller's
    graceful-close operation, and its promise resolves once the closed
    signal has been given, never before. *)
Theorem reentrant_close_escalates st :
  reachable st → hostExited st = false → gracefullyClosing st = true →
  let st' := step st CallGracefullyClose in
  let id := length (calls st) in
  (∃ tail,
     trace st' = trace st
       ++ [Logged browserLog "<forecefully close>"; Logged browserLog "<kill>"; ListenersRemoved]
       ++ (kill_attempt platform st).1
       ++ (sync_removals (tempDirectories options) (fs st)).1
       ++ tail ∧
     Forall reactive tail) ∧
  attempts (trace st') = attempts (trace st) ∧
  listeners st' = [] ∧
  calls st' !! id
  = Some {| who := Direct;
            at_ := if waitForClose st then Fulfilled ReentrantPath else AwaitClose |} ∧
  ∀ evs,
    let st'' := run st' evs in
    (∀ pre post, trace st'' = pre ++ Fulfils ReentrantPath id :: post → FulfillClose ∈ pre) ∧
    (hostExited st'' = false → waitForClose st'' = true →
     calls st'' !! id = Some {| who := Direct; at_ := Fulfilled ReentrantPath |}).
Proof.
  intros Hr Hh Hg st' id.
  assert (reachable st') as Hr' by (by apply reachable_step).
  subst st'. revert Hr'. rewrite step_unfold by done. cbn [Launcher.handle].
  rewrite gracefullyClose_reentrant by done.
  set (X := set_calls _ _). intros Hr'.
  assert (calls X !! id = Some {| who := Direct; at_ := AwaitClose |}) as HX
    by apply lookup_snoc.
  destruct (writes_react X) as (tail & Htail & Ftail).
  assert (Forall reactive tail) as Ftail'.
  { eapply Forall_impl; [exact Ftail|]. by intros a [? _]. }
  pose proof (later_react X) as Hl.
  destruct (lt_calls _ _ Hl _ _ HX) as (c' & Hc' & Hw' & Hl'). cbn [who at_] in Hw', Hl'.
  assert (at_ c' = if waitForClose st then Fulfilled ReentrantPath else AwaitClose) as Hat.
  { destruct (waitForClose st) eqn:Hw.
    - pose proof (react_close_resumes X Hh Hw) as HF. rewrite Forall_lookup in HF.
      specialize (HF _ _ Hc'). by destruct Hl'.
    - destruct (reachable_invariant _ Hr) as [[_ _ Hcl Hcg Hcd _] _].
      assert (processClosed st = false) as Hp by congruence.
      assert (waitForCleanup st = false) as Hu.
      { destruct (waitForCleanup st); [|done]. rewrite Hcd in Hp; done. }
      rewrite react_idle in Hc'.
      + rewrite HX in Hc'. by simplify_eq.
      + done.
      + constructor.
        * change (waitForClose st = true → Forall (λ c, at_ c ≠ AwaitClose) (calls X)).
          by rewrite Hw.
        * change (waitForCleanup st = true →
                  Forall (λ c, at_ c ≠ AwaitCleanup ∧ at_ c ≠ KillWait) (calls X)).
          by rewrite Hu.
        * change (cleaning st = true → removing X ≠ []). rewrite Hcg, Hp. done. }
  split; [|split; [|split; [|split]]].
  - exists tail. split; [|done]. rewrite Htail.
    change (trace X) with
      (trace (after_kill (emit [Logged browserLog "<forecefully close>"] st))).
    rewrite after_kill_emit_trace. by rewrite <- !app_assoc.
  - rewrite Htail.
    change (trace X) with
      (trace (after_kill (emit [Logged browserLog "<forecefully close>"] st))).
    rewrite after_kill_emit_trace, !attempts_app.
    rewrite (attempts_reactive tail) by done.
    rewrite (attempts_reactive (kill_attempt platform st).1) by apply quiet_reactive_kill.
    rewrite (attempts_reactive (sync_removals _ _).1).
    + cbn. lia.
    + eapply Forall_impl; [apply reactive_removals|]. by intros a [? _].
  - by apply (lt_listeners _ _ Hl).
  - rewrite Hc'. f_equal. by apply call_eta.
  - intros evs.
    assert (reachable (run (react X) evs)) as Hr'' by (by apply reachable_run).
    split.
    + intros pre post Htr. by apply (fulfilled_after_close _ _ _ _ _ Hr'' Htr).
    + intros Hh'' Hw''.
      destruct (lt_calls _ _ (later_run evs _) _ _ Hc') as (c'' & Hc'' & Hwho & Hlead).
      rewrite Hc''. f_equal. apply call_eta; [congruence|].
      eapply resolved_when_closed; [exact Hr''|done|done|exact Hc''|].
      eapply leads_to_trans; [exact Hl'|exact Hlead].
Qed.

(** *** Kill, a rejected attempt, a late first close, the output relay *)

Lemma after_kill_trace_eq st :
  trace (after_kill st)
  = trace st ++ [Logged browserLog "<kill>"; ListenersRemoved]
      ++ (kill_attempt platform st).1
      ++ (sync_removals (tempDirectories options) (fs st)).1.
Proof. reflexivity. Qed.

Lemma no_kill_signal_in_removals dirs fs0 :
  Forall (λ a, ¬ is_kill_signal a) (sync_removals dirs fs0).1.
Proof. eapply Forall_impl; [apply reactive_removals|]. by intros a [_ ?]. Qed.

(** C4: [kill] never throws, in whatever state it is called.  When the
    child is gone, whatever it attempts to send reaches nothing and the
    exception is swallowed.  Called after the exit of the child has been
    observed, it does not even attempt it: it sends no signal and
    runs no kill command; the promise it returns is already fulfilled if
    the cleanup-complete signal was given, and is fulfilled as soon as
    the removals in flight have completed otherwise; it is never
    rejected. *)
Theorem kill_is_safe :
  (∀ st, ∃ st', killAndWait options platform st = (Normal (), st')) ∧
  (∀ st st', alive st = false → killAndWait options platform st = (Normal (), st') →
     ∀ chunk, trace st' = trace st ++ chunk → Forall undelivered chunk) ∧
  (∀ st, reachable st → hostExited st = false → processClosed st = true →
     let st' := step st CallKill in
     let id := length (calls st) in
     (∃ tail,
        trace st' = trace st
          ++ [Logged browserLog "<kill>"; ListenersRemoved]
          ++ (sync_removals (tempDirectories options) (fs st)).1
          ++ tail ∧
        Forall (λ a, reactive a ∧ ¬ is_kill_signal a) tail) ∧
     (∀ chunk, trace st' = trace st ++ chunk → Forall (λ a, ¬ is_kill_signal a) chunk) ∧
     calls st' !! id
     = Some {| who := Direct;
               at_ := if waitForCleanup st then Fulfilled KillPath else KillWait |} ∧
     ∀ evs,
       let st'' := run st' evs in
       Forall (λ a, match a with Rejects _ _ _ | Uncaught _ => False | _ => True end)
              (trace st'') ∧
       (hostExited st'' = false → removing st'' = [] →
        calls st'' !! id = Some {| who := Direct; at_ := Fulfilled KillPath |})).
Proof.
  split; [intros st; rewrite killAndWait_spec; eauto|].
  split.
  { intros st st' Ha. rewrite killAndWait_spec. intros [= <-] chunk Hchunk.
    change (trace (after_kill st) = trace st ++ chunk) in Hchunk.
    rewrite after_kill_trace_eq in Hchunk. apply app_inv_head in Hchunk as <-.
    repeat (apply Forall_cons; split; [done|]).
    apply Forall_app. split.
    - unfold kill_attempt. rewrite Ha. destruct (_ && _); cbn [fst]; [|constructor].
      destruct (String.eqb _ _); (apply Forall_cons; split; [reflexivity|constructor]).
    - eapply Forall_impl; [apply reactive_removals|]. intros a [_ Hk].
      destruct a; cbn in Hk |- *; try done; by destruct Hk. }
  intros st Hr Hh Hp st' id.
  assert (reachable st') as Hr' by (by apply reachable_step).
  subst st'. revert Hr'. rewrite step_unfold by done. cbn [Launcher.handle].
  rewrite killAndWait_spec.
  set (X := set_calls _ _). intros Hr'.
  destruct (reachable_invariant _ Hr) as [[_ _ Hcl Hcg _ _] Hq].
  destruct (Hq Hh) as [Hqc Hqu Hqr].
  assert (waitForClose st = true) as Hw by congruence.
  assert (calls X !! id = Some {| who := Direct; at_ := KillWait |}) as HX
    by apply lookup_snoc.
  destruct (writes_react X) as (tail & Htail & Ftail).
  assert (Forall (λ a, reactive a ∧ ¬ is_kill_signal a) tail) as Ftail'.
  { eapply Forall_impl; [exact Ftail|]. intros a [? Hk]. split; [done|]. by apply Hk. }
  assert (trace (react X) = trace st
          ++ [Logged browserLog "<kill>"; ListenersRemoved]
          ++ (sync_removals (tempDirectories options) (fs st)).1 ++ tail) as Htrace.
  { rewrite Htail. change (trace X) with (trace (after_kill st)).
    rewrite after_kill_trace_eq, kill_attempt_closed by done.
    by rewrite <- !app_assoc. }
  assert (calls (react X) !! id
          = Some {| who := Direct;
                    at_ := if waitForCleanup st then Fulfilled KillPath else KillWait |}) as Hcall.
  { destruct (waitForCleanup st) eqn:Hu.
    - rewrite react_no_close; [|done| |done].
      + cbv zeta. change (waitForCleanup X) with (waitForCleanup st). rewrite Hu.
        set (st3 := resume_all options platform handed_cleanup X).
        assert (calls st3 !! id = Some {| who := Direct; at_ := Fulfilled KillPath |}) as H3.
        { subst st3. by rewrite calls_resume_all, list_lookup_fmap, HX. }
        assert (later st3 (if hostExited st3 then st3
                           else if waitForCleanup st3
                                then resume_all options platform after_cleanup st3 else st3)) as Hl.
        { destruct (hostExited st3); [apply later_refl|].
          destruct (waitForCleanup st3); [|apply later_refl].
          apply later_resume_all, after_cleanup_leads. }
        destruct (lt_calls _ _ Hl _ _ H3) as (c' & Hc' & Hw' & Hl').
        cbn [who at_ leads_to] in Hw', Hl'.
        rewrite Hc'. f_equal. by apply call_eta.
      + change (waitForClose st = true →
                Forall (λ c, at_ c ≠ AwaitClose)
                       (calls st ++ [{| who := Direct; at_ := KillWait |}])).
        intros _. apply Forall_app. split; [by apply Hqc|]. by repeat constructor.
    - rewrite react_idle; [done|done|]. constructor.
      + change (waitForClose st = true →
                Forall (λ c, at_ c ≠ AwaitClose)
                       (calls st ++ [{| who := Direct; at_ := KillWait |}])).
        intros _. apply Forall_app. split; [by apply Hqc|]. by repeat constructor.
      + change (waitForCleanup st = true →
                Forall (λ c, at_ c ≠ AwaitCleanup ∧ at_ c ≠ KillWait) (calls X)).
        by rewrite Hu.
      + done. }
  split; [|split; [|split]].
  - by exists tail.
  - intros chunk Hchunk. rewrite Htrace in Hchunk. apply app_inv_head in Hchunk as <-.
    repeat (apply Forall_cons; split; [by intros []|]).
    apply Forall_app. split; [apply no_kill_signal_in_removals|].
    eapply Forall_impl; [exact Ftail'|]. by intros a [_ ?].
  - done.
  - intros evs.
    assert (reachable (run (react X) evs)) as Hr'' by (by apply reachable_run).
    split.
    + eapply nothing_escapes. by apply reachable_trace.
    + intros Hh'' Hrm.
      pose proof (later_run evs (react X)) as Hl.
      destruct (lt_calls _ _ Hl _ _ Hcall) as (c'' & Hc'' & Hwho & Hlead).
      cbn [who at_] in Hwho, Hlead.
      rewrite Hc''. f_equal. apply call_eta; [done|].
      assert (processClosed (run (react X) evs) = true) as Hp''.
      { apply (lt_processClosed _ _ Hl). by apply (lt_processClosed _ _ (later_react X)). }
      pose proof (cleaned_when_removed _ Hr'' Hh'' Hp'' Hrm) as Hu''.
      destruct (resolved_when_cleaned _ _ _ Hr'' Hh'' Hu'' Hc'') as [_ Hk].
      apply Hk. destruct (waitForCleanup st); cbn in Hlead |- *; auto.
Qed.

(** C5: when the caller's graceful-close promise is rejected, the
    forceful-kill procedure runs and the invocation goes on to wait for
    the cleanup-complete signal: its promise is fulfilled at once if that
    signal was given, as soon as it is given otherwise, never before and
    never rejected. *)
Theorem rejected_attempt_escalates st id c :
  reachable st → hostExited st = false →
  calls st !! id = Some c → at_ c = AwaitAttempt →
  let st' := step st (AttemptSettled false) in
  (∃ tail,
     trace st' = trace st
       ++ [Logged browserLog "<kill>"; ListenersRemoved]
       ++ (kill_attempt platform st).1
       ++ (sync_removals (tempDirectories options) (fs st)).1
       ++ tail ∧
     Forall reactive tail) ∧
  calls st' !! id
  = Some {| who := who c;
            at_ := if waitForCleanup st then Fulfilled FirstPath else AwaitCleanup |} ∧
  ∀ evs,
    let st'' := run st' evs in
    Forall (λ a, match a with Rejects _ _ _ | Uncaught _ => False | _ => True end)
           (trace st'') ∧
    (∃ c'', calls st'' !! id = Some c'' ∧ who c'' = who c ∧
            (at_ c'' = AwaitCleanup ∨ at_ c'' = Fulfilled FirstPath)) ∧
    (∀ pre post, trace st'' = pre ++ Fulfils FirstPath id :: post → FulfillCleanup ∈ pre) ∧
    (hostExited st'' = false → waitForCleanup st'' = true →
     calls st'' !! id = Some {| who := who c; at_ := Fulfilled FirstPath |}).
Proof.
  intros Hr Hh Hc Ha st'.
  assert (reachable st') as Hr' by (by apply reachable_step).
  pose proof (attempt_settled false _ _ _ Hr Hh Hc Ha) as Hcall. fold st' in Hcall.
  assert (∃ tail, trace st' = trace st
       ++ [Logged browserLog "<kill>"; ListenersRemoved]
       ++ (kill_attempt platform st).1
       ++ (sync_removals (tempDirectories options) (fs st)).1
       ++ tail ∧ Forall reactive tail) as Htrace.
  { subst st'. rewrite step_unfold by done. cbn [Launcher.handle].
    rewrite onAttemptSettled_spec.
    pose proof (attempting_pos _ _ _ Hc Ha) as Hpos.
    destruct (attempting (calls st)) as [|n]; [lia|].
    set (X := set_calls _ _).
    destruct (writes_react X) as (tail & Htail & Ftail).
    exists tail. split.
    - rewrite Htail. change (trace X) with (trace (after_kill st)).
      rewrite after_kill_trace_eq. by rewrite <- !app_assoc.
    - eapply Forall_impl; [exact Ftail|]. by intros a [? _]. }
  split; [done|]. split; [done|].
  intros evs.
  assert (reachable (run st' evs)) as Hr'' by (by apply reachable_run).
  pose proof (later_run evs st') as Hl.
  destruct (lt_calls _ _ Hl _ _ Hcall) as (c'' & Hc'' & Hwho & Hlead).
  cbn [who at_] in Hwho, Hlead.
  assert (leads_to AwaitCleanup (at_ c'')) as Hlead'.
  { destruct (waitForCleanup st); cbn in Hlead |- *; auto. }
  split; [|split; [|split]].
  - eapply nothing_escapes. by apply reachable_trace.
  - exists c''. done.
  - intros pre post Htr. by apply (fulfilled_after_cleanup _ _ _ _ _ Hr'' Htr).
  - intros Hh'' Hu''. rewrite Hc''. f_equal. apply call_eta; [done|].
    by apply (resolved_when_cleaned _ _ _ Hr'' Hh'' Hu'' Hc'').
Qed.

(** C10, as amended: a first invocation made after the exit of the child
    has been observed still calls the caller's graceful-close operation.
    Once that operation settles, the promise is fulfilled at once if the
    cleanup-complete signal had been given; if the removals started by the
    exit observer are still in flight, it stays pending until that signal
    is given. *)
Theorem first_close_after_exit_still_attempts st :
  reachable st → hostExited st = false →
  gracefullyClosing st = false → processClosed st = true →
  let st1 := step st CallGracefullyClose in
  let id := length (calls st) in
  trace st1 = trace st ++ [Logged browserLog "<gracefully close start>"; AttemptCalled] ∧
  calls st1 = calls st ++ [{| who := Direct; at_ := AwaitAttempt |}] ∧
  (waitForCleanup st = false → removing st ≠ []) ∧
  ∀ ok,
    let st2 := step st1 (AttemptSettled ok) in
    calls st2 !! id
    = Some {| who := Direct;
              at_ := if waitForCleanup st then Fulfilled FirstPath else AwaitCleanup |} ∧
    ∀ evs,
      let st3 := run st2 evs in
      hostExited st3 = false → waitForCleanup st3 = true →
      calls st3 !! id = Some {| who := Direct; at_ := Fulfilled FirstPath |}.
Proof.
  intros Hr Hh Hg Hp st1 id.
  assert (reachable st1) as Hr1 by (by apply reachable_step).
  destruct (reachable_invariant _ Hr) as [[_ _ Hcl Hcg _ _] Hq].
  destruct (Hq Hh) as [Hqc Hqu Hqr].
  assert (st1 = set_calls (calls st ++ [{| who := Direct; at_ := AwaitAttempt |}])
                  (emit [Logged browserLog "<gracefully close start>"; AttemptCalled]
                     (set_gracefullyClosing true st))) as Hst1.
  { subst st1. rewrite step_unfold by done. cbn [Launcher.handle].
    rewrite gracefullyClose_first by done. apply react_idle; [done|].
    constructor.
    - change (waitForClose st = true →
              Forall (λ c, at_ c ≠ AwaitClose)
                     (calls st ++ [{| who := Direct; at_ := AwaitAttempt |}])).
      intros Hw. apply Forall_app. split; [by apply Hqc|]. by repeat constructor.
    - change (waitForCleanup st = true →
              Forall (λ c, at_ c ≠ AwaitCleanup ∧ at_ c ≠ KillWait)
                     (calls st ++ [{| who := Direct; at_ := AwaitAttempt |}])).
      intros Hu. apply Forall_app. split; [by apply Hqu|]. by repeat constructor.
    - done. }
  assert (hostExited st1 = false) as Hh1 by (by rewrite Hst1).
  assert (waitForCleanup st1 = waitForCleanup st) as Hu1 by (by rewrite Hst1).
  assert (calls st1 !! id = Some {| who := Direct; at_ := AwaitAttempt |}) as Hc1.
  { rewrite Hst1. apply lookup_snoc. }
  split; [by rewrite Hst1|]. split; [by rewrite Hst1|]. split.
  { intros Hu. apply Hqr. rewrite Hcg, Hp, Hu. done. }
  intros ok. cbv zeta.
  pose proof (attempt_settled ok _ _ _ Hr1 Hh1 Hc1 eq_refl) as Hc2.
  cbn [who] in Hc2. rewrite Hu1 in Hc2.
  split; [done|].
  intros evs Hh3 Hu3.
  assert (reachable (run (step st1 (AttemptSettled ok)) evs)) as Hr3.
  { by apply reachable_run, reachable_step. }
  destruct (lt_calls _ _ (later_run evs _) _ _ Hc2) as (c3 & Hc3 & Hwho & Hlead).
  cbn [who at_] in Hwho, Hlead.
  rewrite Hc3. f_equal. apply call_eta; [done|].
  apply (resolved_when_cleaned _ _ _ Hr3 Hh3 Hu3 Hc3).
  destruct (waitForCleanup st); cbn in Hlead |- *; auto.
Qed.

(** C9, as amended: whenever the spawn gave a process id the two
    readers are attached, whatever the [pipe] option says, and stay
    attached: every line of the child's standard output is logged under
    'browser:out', every line of its standard error under 'browser:err'
    with severity 'warning'.  Without a process id none is attached.  The
    [pipe] option only adds two piped descriptors to the child's stdio. *)
Theorem readers_attached_whenever_spawned pid fs0 :
  match launchProcess options platform pid fs0 with
  | Running st0 =>
      truthy_pid pid = true ∧
      (∀ evs,
         let st := run st0 evs in
         readers st = [(Stdout, {| log_name := "browser:out"; severity := None |});
                       (Stderr, {| log_name := "browser:err"; severity := Some "warning" |})] ∧
         (hostExited st = false → ∀ line,
            trace (step st (ChildLine Stdout line))
            = trace st ++ [Logged {| log_name := "browser:out"; severity := None |} line] ∧
            trace (step st (ChildLine Stderr line))
            = trace st ++ [Logged {| log_name := "browser:err"; severity := Some "warning" |} line]))
  | Failing f => truthy_pid pid = false ∧ f_readers f = []
  end ∧
  stdio options = if pipe options
                  then ["ignore"; "pipe"; "pipe"; "pipe"; "pipe"]
                  else ["ignore"; "pipe"; "pipe"].
Proof.
  split; [|done].
  unfold launchProcess. destruct (truthy_pid pid) eqn:Hpid; [|done].
  split; [done|]. intros evs.
  set (st := run (launched options platform pid fs0) evs).
  assert (reachable st) as Hr by (by exists pid, fs0, evs).
  assert (readers st = [(Stdout, browserStdOutLog); (Stderr, browserStdErrLog)]) as Hrd.
  { apply (lt_readers _ _ (later_run evs (launched options platform pid fs0))). }
  split; [done|].
  intros Hh line.
  destruct (reachable_invariant _ Hr) as [_ Hq]. specialize (Hq Hh).
  assert (∀ acts, react (emit acts st) = emit acts st) as Hidle.
  { intros acts. apply react_idle; [done|]. destruct Hq. by constructor. }
  split.
  - rewrite step_unfold by done. cbn [Launcher.handle]. rewrite relay_loop, Hrd.
    by rewrite Hidle.
  - rewrite step_unfold by done. cbn [Launcher.handle]. rewrite relay_loop, Hrd.
    by rewrite Hidle.
Qed.

(** *** A launch without a process id *)

(** The launch is rejected only with the error made from the child's
    'error' event, and only once every removal has completed; how the
    removals went does not matter. *)
Lemma failing_launch_outcome pid fs0 f0 evs :
  launchProcess options platform pid fs0 = Failing f0 →
  let f := foldl failing_step f0 evs in
  f_rejected f = (if f_cleaned f then f_failed f else None) ∧
  (f_cleaned f = true → f_removing f = []) ∧
  (∀ e, f_failed f = Some e →
     ∃ cause, SpawnError cause ∈ evs ∧
       e = new_Error ("Failed to launch browser: " +:+ Error_toString cause)).
Proof.
  unfold launchProcess. destruct (truthy_pid pid); [done|]. intros [= <-].
  induction evs as [|ev evs IH] using rev_ind.
  - cbn. split; [done|]. split; done.
  - rewrite foldl_app. cbn [foldl].
    set (f := foldl failing_step _ evs) in *. cbv zeta in IH.
    destruct IH as (Hrej & Hcl & Hfail). clearbody f.
    destruct f as [ffs rm cl fl rj rd tr]. cbn in Hrej, Hcl, Hfail.
    destruct ev as [e|i]; cbn.
    + destruct fl as [e0|]; cbn.
      * split; [done|]. split.
        -- intros H. apply orb_prop in H as [H|H]; [by apply Hcl|].
           by apply bool_decide_eq_true in H.
        -- intros e' He'. destruct (Hfail _ He') as (cause & Hin & ->).
           exists cause. split; [|done]. apply elem_of_app. by left.
      * split; [done|]. split.
        -- intros H. apply orb_prop in H as [H|H]; [by apply Hcl|].
           by apply bool_decide_eq_true in H.
        -- intros e' [= <-]. exists e. split; [|done].
           apply elem_of_app. right. apply list_elem_of_here.
    + destruct (rm !! i) as [dir|] eqn:Hi; cbn.
      * destruct (rimraf dir ffs) as [err ffs']. cbn.
        split; [done|]. split.
        -- intros H. apply orb_prop in H as [H|H].
           ++ specialize (Hcl H). subst rm. done.
           ++ by apply bool_decide_eq_true in H.
        -- intros e' He'. destruct (Hfail _ He') as (cause & Hin & ->).
           exists cause. split; [|done]. apply elem_of_app. by left.
      * split; [done|]. split.
        -- intros H. apply orb_prop in H as [H|H]; [by apply Hcl|].
           by apply bool_decide_eq_true in H.
        -- intros e' He'. destruct (Hfail _ He') as (cause & Hin & ->).
           exists cause. split; [|done]. apply elem_of_app. by left.
Qed.

(** *** Bookkeeping of the trace *)

Local Abbreviation accounted := (accounted options platform).
Local Abbreviation lawful := (lawful options platform).
Local Abbreviation registered := (registered options).
Local Abbreviation frames := (frames options).

Lemma unmarked_chunk chunk :
  Forall unmarked chunk →
  attempts chunk = 0 ∧ existsb is_teardown chunk = false ∧ existsb is_host_exit chunk = false.
Proof.
  induction 1 as [|a chunk Ha _ IH]; [done|].
  destruct IH as (H1 & H2 & H3). by destruct a; cbn; rewrite ?H1, ?H2, ?H3.
Qed.

Lemma accounted_extend st st' chunk :
  accounted st →
  trace st' = trace st ++ chunk →
  Forall (lawful (child_pid st)) chunk →
  child_pid st' = child_pid st →
  Forall (λ d, d ∈ tempDirectories options) (removing st') →
  Forall (λ c, who c = FromSIGINT → handleSIGINT options = true) (calls st') →
  attempts chunk + (if gracefullyClosing st then 1 else 0)
    = (if gracefullyClosing st' then 1 else 0) →
  listeners st' = (if existsb is_teardown chunk then [] else listeners st) →
  (processClosed st' = true → processClosed st = true ∨ listeners st' = []) →
  existsb sigint_resolved (calls st')
    = existsb sigint_resolved (calls st) || existsb is_host_exit chunk →
  (existsb is_host_exit chunk = true → hostExited st' = true) →
  (hostExited st = true → hostExited st' = true) →
  accounted st'.
Proof.
  intros [Hpid Hat Hls Hcl Hlaw Hrm Hho Hex Hgo] Htr Hchunk Hp Hrm' Hho' Hat' Hls' Hcl' Hex' Hgo' Hh.
  constructor.
  - by rewrite Hp.
  - rewrite Htr, attempts_app, Hat. lia.
  - rewrite Htr, existsb_app, Hls'.
    destruct (existsb is_teardown chunk); [by rewrite orb_true_r|].
    by rewrite orb_false_r.
  - intros Hc. destruct (Hcl' Hc) as [Hc'|]; [|done].
    rewrite Hls', (Hcl Hc'). by destruct (existsb is_teardown chunk).
  - rewrite Htr, Hp. apply Forall_app. by split.
  - done.
  - done.
  - by rewrite Htr, existsb_app, Hex, Hex'.
  - rewrite Htr, existsb_app. intros H. apply orb_prop in H as [H|H]; auto.
Qed.

Lemma sync_removals_lawful pid ds fs0 :
  (∀ d, d ∈ ds → d ∈ tempDirectories options) →
  Forall (λ a, lawful pid a ∧ unmarked a) (sync_removals ds fs0).1.
Proof.
  revert fs0. induction ds as [|d ds IH]; intros fs0 Hin; cbn [sync_removals]; [constructor|].
  assert (d ∈ tempDirectories options) as Hd by apply Hin, list_elem_of_here.
  destruct (rimraf d fs0) as [[e|] fs1].
  - constructor; [|constructor]. split; [exact Hd|exact I].
  - assert (∀ d', d' ∈ ds → d' ∈ tempDirectories options) as Hin'.
    { intros d' H. by apply Hin, list_elem_of_further. }
    specialize (IH fs1 Hin'). destruct (sync_removals ds fs1).
    constructor; [|done]. split; [exact Hd|exact I].
Qed.

Lemma kill_attempt_lawful st :
  Forall (λ a, lawful (child_pid st) a ∧ unmarked a) (kill_attempt platform st).1.
Proof.
  unfold kill_attempt.
  destruct (truthy_pid (child_pid st)) eqn:Hp; cbn [andb]; [|constructor].
  destruct (negb (child_killed st) && negb (processClosed st)); cbn [fst]; [|constructor].
  destruct (child_pid st) as [p|]; [|done]. cbn [default].
  destruct (String.eqb platform "win32") eqn:E;
    (constructor; [|constructor]); (split; [|exact I]); by split.
Qed.

Lemma after_kill_chunk st :
  Forall (λ a, lawful (child_pid st) a ∧ unmarked a)
    ((kill_attempt platform st).1 ++ (sync_removals (tempDirectories options) (fs st)).1).
Proof.
  apply Forall_app. split; [apply kill_attempt_lawful | by apply sync_removals_lawful].
Qed.

Lemma accounted_after_kill st : accounted st → accounted (after_kill st).
Proof.
  intros H. pose proof (after_kill_chunk st) as Hc.
  destruct (unmarked_chunk _ (Forall_impl _ _ _ Hc (λ a H, proj2 H))) as (H1 & H2 & H3).
  apply (accounted_extend st _
           ([Logged browserLog "<kill>"; ListenersRemoved]
            ++ (kill_attempt platform st).1
            ++ (sync_removals (tempDirectories options) (fs st)).1));
    [exact H | reflexivity | | reflexivity | exact (acc_removing _ _ _ H)
    | exact (acc_holder _ _ _ H) | | reflexivity | by left | | | done].
  - do 2 (constructor; [done|]). exact (Forall_impl _ _ _ Hc (λ a H, proj1 H)).
  - transitivity (attempts ((kill_attempt platform st).1
                            ++ (sync_removals (tempDirectories options) (fs st)).1)
                  + (if gracefullyClosing st then 1 else 0)); [reflexivity|].
    by rewrite H1.
  - transitivity (existsb sigint_resolved (calls st)
                  || existsb is_host_exit ((kill_attempt platform st).1
                       ++ (sync_removals (tempDirectories options) (fs st)).1));
      [|reflexivity].
    by rewrite H3, orb_false_r.
  - intros Hx.
    change (existsb is_host_exit ((kill_attempt platform st).1
              ++ (sync_removals (tempDirectories options) (fs st)).1) = true) in Hx.
    by rewrite H3 in Hx.
Qed.

Lemma accounted_emit acts st :
  Forall (λ a, lawful (child_pid st) a ∧ unmarked a) acts →
  accounted st → accounted (emit acts st).
Proof.
  intros Hc H.
  destruct (unmarked_chunk _ (Forall_impl _ _ _ Hc (λ a H, proj2 H))) as (H1 & H2 & H3).
  apply (accounted_extend st _ acts);
    [exact H | reflexivity | | reflexivity | exact (acc_removing _ _ _ H)
    | exact (acc_holder _ _ _ H) | | | by left | | | done].
  - exact (Forall_impl _ _ _ Hc (λ a H, proj1 H)).
  - by rewrite H1.
  - by rewrite H2.
  - by rewrite H3, orb_false_r.
  - by rewrite H3.
Qed.

Lemma accounted_same st st' :
  accounted st →
  trace st' = trace st → child_pid st' = child_pid st →
  gracefullyClosing st' = gracefullyClosing st → listeners st' = listeners st →
  processClosed st' = processClosed st → removing st' = removing st →
  calls st' = calls st → (hostExited st = true → hostExited st' = true) →
  accounted st'.
Proof.
  intros H Htr Hp Hg Hl Hc Hr Hcs Hh.
  apply (accounted_extend st st' []);
    [exact H | by rewrite app_nil_r | constructor | exact Hp | | | | exact Hl | | | done | exact Hh].
  - rewrite Hr. exact (acc_removing _ _ _ H).
  - rewrite Hcs. exact (acc_holder _ _ _ H).
  - by rewrite Hg.
  - rewrite Hc. by left.
  - by rewrite Hcs, orb_false_r.
Qed.

Lemma accounted_set_calls cs st :
  accounted st →
  existsb sigint_resolved cs = existsb sigint_resolved (calls st) →
  Forall (λ c, who c = FromSIGINT → handleSIGINT options = true) cs →
  accounted (set_calls cs st).
Proof.
  intros H Hex Hho.
  apply (accounted_extend st _ []);
    [exact H | symmetry; apply app_nil_r | constructor | reflexivity
    | exact (acc_removing _ _ _ H) | exact Hho | reflexivity | reflexivity | by left | | done | done].
  change (existsb sigint_resolved cs = existsb sigint_resolved (calls st) || false).
  by rewrite orb_false_r.
Qed.

Lemma accounted_push c st :
  accounted st →
  at_ c ≠ Fulfilled FirstPath → at_ c ≠ Fulfilled ReentrantPath → at_ c ≠ Fulfilled KillPath →
  (who c = FromSIGINT → handleSIGINT options = true) →
  accounted (set_calls (calls st ++ [c]) st).
Proof.
  intros H H1 H2 H3 Hw. apply accounted_set_calls; [done| |].
  - rewrite existsb_app. cbn [existsb]. unfold sigint_resolved at 2.
    destruct (at_ c) as [| | | |[]|]; try done; by rewrite ?andb_false_r, ?orb_false_r.
  - apply Forall_app. split; [exact (acc_holder _ _ _ H)|]. by constructor.
Qed.

Lemma accounted_gracefullyClose by_ st :
  accounted st → (by_ = FromSIGINT → handleSIGINT options = true) →
  accounted (gracefullyClose options platform by_ st).
Proof.
  intros H Hby. destruct (gracefullyClosing st) eqn:Hg.
  - rewrite gracefullyClose_reentrant by done.
    apply (accounted_push {| who := by_; at_ := AwaitClose |}
             (after_kill (emit [Logged browserLog "<forecefully close>"] st))); try done.
    apply accounted_after_kill, accounted_emit; [|done]. by repeat constructor.
  - rewrite gracefullyClose_first by done.
    apply (accounted_push {| who := by_; at_ := AwaitAttempt |}
             (emit [Logged browserLog "<gracefully close start>"; AttemptCalled]
                (set_gracefullyClosing true st))); try done.
    apply (accounted_extend st _
             [Logged browserLog "<gracefully close start>"; AttemptCalled]);
      [exact H | reflexivity | by repeat constructor | reflexivity
      | exact (acc_removing _ _ _ H) | exact (acc_holder _ _ _ H) | by rewrite Hg
      | reflexivity | by left | | done | done].
    change (existsb sigint_resolved (calls st) = existsb sigint_resolved (calls st) || false).
    by rewrite orb_false_r.
Qed.

Lemma removals_started_chunk pid :
  Forall (λ a, lawful pid a ∧ unmarked a) (RemovalStarted <$> tempDirectories options).
Proof. apply Forall_fmap, Forall_forall. intros d Hd. by split. Qed.

Lemma accounted_onChildExit exitCode signal st :
  accounted st →
  accounted (exec (onChildExit options exitCode signal)
                  (set_exitObserver false (set_alive false st))).
Proof.
  intros H. unfold exec. rewrite onChildExit_spec.
  pose proof (removals_started_chunk (child_pid st)) as Hc.
  destruct (unmarked_chunk _ (Forall_impl _ _ _ Hc (λ a H, proj2 H))) as (H1 & H2 & H3).
  apply (accounted_extend st _ (exit_chunk options exitCode signal));
    [exact H | reflexivity | | reflexivity | | exact (acc_holder _ _ _ H) | | reflexivity
    | by right | | | done].
  - unfold exit_chunk. do 4 (constructor; [done|]).
    exact (Forall_impl _ _ _ Hc (λ a H, proj1 H)).
  - apply Forall_app. split; [exact (acc_removing _ _ _ H)|]. by apply Forall_forall.
  - transitivity (attempts (RemovalStarted <$> tempDirectories options)
                  + (if gracefullyClosing st then 1 else 0)); [reflexivity|].
    by rewrite H1.
  - transitivity (existsb sigint_resolved (calls st)
                  || existsb is_host_exit (RemovalStarted <$> tempDirectories options));
      [|reflexivity].
    by rewrite H3, orb_false_r.
  - intros Hx.
    change (existsb is_host_exit (RemovalStarted <$> tempDirectories options) = true) in Hx.
    by rewrite H3 in Hx.
Qed.

Lemma accounted_onRemoved i st : accounted st → accounted (onRemoved i st).
Proof.
  intros H. unfold onRemoved.
  destruct (removing st !! i) as [dir|] eqn:Hi; [|done].
  assert (dir ∈ tempDirectories options) as Hdir.
  { exact (proj1 (Forall_lookup _ _) (acc_removing _ _ _ H) i dir Hi). }
  assert (Forall (λ d, d ∈ tempDirectories options) (delete i (removing st))) as Hrm.
  { apply Forall_delete. exact (acc_removing _ _ _ H). }
  destruct (rimraf dir (fs st)) as [[e|] fs1].
  - apply (accounted_extend st _ [RemovedAsync dir false; ConsoleError e]);
      [exact H | reflexivity | by repeat constructor | reflexivity | exact Hrm
      | exact (acc_holder _ _ _ H) | reflexivity | reflexivity | by left | | done | done].
    change (existsb sigint_resolved (calls st) = existsb sigint_resolved (calls st) || false).
    by rewrite orb_false_r.
  - apply (accounted_extend st _ [RemovedAsync dir true]);
      [exact H | reflexivity | by repeat constructor | reflexivity | exact Hrm
      | exact (acc_holder _ _ _ H) | reflexivity | reflexivity | by left | | done | done].
    change (existsb sigint_resolved (calls st) = existsb sigint_resolved (calls st) || false).
    by rewrite orb_false_r.
Qed.

Lemma sigint_resolved_mark cs :
  existsb sigint_resolved (mark_attempt cs) = existsb sigint_resolved cs.
Proof.
  induction cs as [|c cs IH]; [done|]. cbn [mark_attempt].
  case_decide as Hc; cbn [existsb]; [|by rewrite IH].
  unfold sigint_resolved at 1 3. cbn [who at_]. rewrite Hc. done.
Qed.

Lemma holder_mark (P : caller → Prop) cs :
  Forall (λ c, P (who c)) cs → Forall (λ c, P (who c)) (mark_attempt cs).
Proof.
  induction 1 as [|c cs Hc Hcs IH]; [constructor|]. cbn [mark_attempt].
  case_decide; by constructor.
Qed.

Lemma sigint_resolved_resumed ready id cs :
  existsb sigint_resolved (resumed ready <$> cs)
  = existsb sigint_resolved cs || (resume ready id cs).2.
Proof.
  revert id. induction cs as [|c cs IH]; intros id; [done|].
  rewrite fmap_cons. cbn [existsb resume]. rewrite (IH (S id)).
  destruct (resume ready (S id) cs) as [[cs2 acts] ex]. cbn [snd].
  unfold resumed, sigint_resolved at 1 3.
  destruct (ready (at_ c)) as [[p l]|]; cbn [who at_ snd].
  - destruct (bool_decide (who c = FromSIGINT)); cbn [andb orb].
    + by rewrite !orb_true_r.
    + done.
  - by rewrite orb_assoc.
Qed.

Lemma who_resumed ready c : who (resumed ready c) = who c.
Proof. unfold resumed. by destruct (ready (at_ c)) as [[p l]|]. Qed.

Lemma resume_exit_holder ready id cs :
  (resume ready id cs).2 = true → ∃ c, c ∈ cs ∧ who c = FromSIGINT.
Proof.
  revert id. induction cs as [|c cs IH]; intros id; [done|].
  cbn [resume]. specialize (IH (S id)).
  destruct (resume ready (S id) cs) as [[cs2 acts] ex]. cbn [snd] in *.
  destruct (ready (at_ c)) as [[p l]|]; cbn [snd].
  - intros H. apply orb_prop in H as [H|H].
    + apply bool_decide_eq_true in H. exists c. split; [apply list_elem_of_here|done].
    + destruct (IH H) as (c' & Hin & Hw). exists c'. split; [by apply list_elem_of_further|done].
  - intros H. destruct (IH H) as (c' & Hin & Hw).
    exists c'. split; [by apply list_elem_of_further|done].
Qed.

Lemma resume_chunk ready pid id cs :
  (∀ at_pc p l, ready at_pc = Some (p, l) → Forall (λ a, lawful pid a ∧ unmarked a) l) →
  Forall (λ a, lawful pid a ∧ unmarked a) (resume ready id cs).1.2.
Proof.
  intros Hr. revert id. induction cs as [|c cs IH]; intros id; [constructor|].
  cbn [resume]. specialize (IH (S id)).
  destruct (resume ready (S id) cs) as [[cs2 acts] ex]. cbn [fst snd] in *.
  destruct (ready (at_ c)) as [[p l]|] eqn:E; cbn [fst snd]; [|done].
  apply Forall_app. split; [by eapply Hr|]. by constructor.
Qed.

Lemma after_kill_hostExited st :
  set_hostExited true (after_kill st) = after_kill (set_hostExited true st).
Proof. reflexivity. Qed.

Lemma accounted_resume_all ready st :
  (∀ at_pc p l, ready at_pc = Some (p, l) →
     Forall (λ a, lawful (child_pid st) a ∧ unmarked a) l) →
  accounted st → accounted (resume_all options platform ready st).
Proof.
  intros Hr H. unfold resume_all.
  pose proof (resume_calls ready 0 (calls st)) as Hcs.
  pose proof (resume_chunk ready (child_pid st) 0 (calls st) Hr) as Hc.
  pose proof (sigint_resolved_resumed ready 0 (calls st)) as Hsr.
  pose proof (resume_exit_holder ready 0 (calls st)) as Hex.
  destruct (resume ready 0 (calls st)) as [[cs acts] ex]; cbn [fst snd] in *. subst cs.
  destruct (unmarked_chunk _ (Forall_impl _ _ _ Hc (λ a H, proj2 H))) as (H1 & H2 & H3).
  assert (Forall (λ c, who c = FromSIGINT → handleSIGINT options = true)
            (resumed ready <$> calls st)) as Hho.
  { apply Forall_fmap. eapply Forall_impl; [exact (acc_holder _ _ _ H)|].
    intros c Hc'. cbn. by rewrite who_resumed. }
  destruct ex.
  - assert (handleSIGINT options = true) as Hflag.
    { destruct (Hex eq_refl) as (c & Hin & Hw).
      exact (proj1 (Forall_forall _ _) (acc_holder _ _ _ H) c Hin Hw). }
    set (X := emit acts (set_calls (resumed ready <$> calls st) st)).
    assert (accounted (set_hostExited true (emit [HostExit 130] X))) as HY.
    { apply (accounted_extend st _ (acts ++ [HostExit 130]));
        [exact H | | | reflexivity | exact (acc_removing _ _ _ H) | exact Hho | | | by left
        | | done | done].
      - change ((trace st ++ acts) ++ [HostExit 130]
                = trace st ++ (acts ++ [HostExit 130])). by rewrite <- app_assoc.
      - apply Forall_app. split; [exact (Forall_impl _ _ _ Hc (λ a H, proj1 H))|].
        by repeat constructor.
      - rewrite attempts_app, H1. reflexivity.
      - rewrite existsb_app, H2. reflexivity.
      - change (existsb sigint_resolved (resumed ready <$> calls st)
                = existsb sigint_resolved (calls st) || existsb is_host_exit (acts ++ [HostExit 130])).
        rewrite Hsr, existsb_app, H3. reflexivity. }
    unfold process_exit. cbv zeta. fold X.
    case_decide.
    + rewrite exec_killProcess, after_kill_hostExited. by apply accounted_after_kill.
    + exact HY.
  - apply (accounted_extend st _ acts);
      [exact H | reflexivity | exact (Forall_impl _ _ _ Hc (λ a H, proj1 H)) | reflexivity
      | exact (acc_removing _ _ _ H) | exact Hho | by rewrite H1 | by rewrite H2 | by left
      | | by rewrite H3 | done].
    change (existsb sigint_resolved (resumed ready <$> calls st)
            = existsb sigint_resolved (calls st) || existsb is_host_exit acts).
    by rewrite Hsr, H3.
Qed.

Lemma accounted_finish_cleanup st : accounted st → accounted (finish_cleanup st).
Proof.
  intros H. unfold finish_cleanup.
  destruct (cleaning st && bool_decide (removing st = [])); [|done].
  apply (accounted_extend st _ [FulfillCleanup]);
    [exact H | reflexivity | by repeat constructor | reflexivity
    | exact (acc_removing _ _ _ H) | exact (acc_holder _ _ _ H) | reflexivity
    | reflexivity | by left | | done | done].
  change (existsb sigint_resolved (calls st) = existsb sigint_resolved (calls st) || false).
  by rewrite orb_false_r.
Qed.

Lemma accounted_react st : accounted st → accounted (react st).
Proof.
  intros H. unfold Launcher.react.
  set (st1 := if hostExited st then st else _).
  assert (accounted st1) as H1.
  { subst st1. destruct (hostExited st); [done|].
    destruct (waitForClose st); [|done].
    apply accounted_resume_all; [|done].
    intros at_pc p l. destruct at_pc; try done. intros [= <- <-]. constructor. }
  clearbody st1. clear H.
  set (st2 := if hostExited st1 then st1 else _).
  assert (accounted st2) as H2.
  { subst st2. destruct (hostExited st1); [done|]. by apply accounted_finish_cleanup. }
  clearbody st2. clear H1.
  set (st3 := if hostExited st2 then st2 else _).
  assert (accounted st3) as H3.
  { subst st3. destruct (hostExited st2); [done|].
    destruct (waitForCleanup st2); [|done].
    apply accounted_resume_all; [|done].
    intros at_pc p l. destruct at_pc; try done. intros [= <- <-]. constructor. }
  clearbody st3. clear H2.
  destruct (hostExited st3); [done|].
  destruct (waitForCleanup st3); [|done].
  apply accounted_resume_all; [|done].
  intros at_pc p l. destruct at_pc; try done. intros [= <- <-]. by repeat constructor.
Qed.

Lemma registered_flag s :
  listener_of s ∈ registered →
  match s with
  | SIGINT => handleSIGINT options
  | SIGTERM => handleSIGTERM options
  | SIGHUP => handleSIGHUP options
  end = true.
Proof.
  unfold Launcher.registered.
  destruct s, (handleSIGINT options), (handleSIGTERM options), (handleSIGHUP options);
    cbn; try done; intros H;
    repeat (apply elem_of_cons in H as [H|H]; [discriminate H|]);
    by apply elem_of_nil in H.
Qed.

Lemma accounted_attached st l :
  accounted st → l ∈ listeners st → listeners st = registered.
Proof.
  intros H Hl. pose proof (acc_listeners _ _ _ H) as Hls.
  destruct (existsb is_teardown (trace st)); [|done].
  rewrite Hls in Hl. by apply elem_of_nil in Hl.
Qed.

Lemma accounted_handle ev st : accounted st → accounted (handle ev st).
Proof.
  intros H. destruct ev as [| | |s| | |c sg|s line|ok|i]; cbn [Launcher.handle].
  - by apply accounted_gracefullyClose.
  - rewrite killAndWait_spec.
    apply (accounted_push {| who := Direct; at_ := KillWait |} (after_kill st)); try done.
    by apply accounted_after_kill.
  - destruct (alive st && negb (processClosed st)); [|done].
    eapply accounted_same; [exact H|reflexivity..|done].
  - case_decide as Hin; [|done]. apply accounted_gracefullyClose; [done|].
    destruct s; try done. intros _.
    rewrite (accounted_attached st _ H Hin) in Hin.
    exact (registered_flag SIGINT Hin).
  - case_decide.
    + rewrite exec_killProcess, after_kill_hostExited. apply accounted_after_kill.
      eapply accounted_same; [exact H|reflexivity..|done].
    + eapply accounted_same; [exact H|reflexivity..|done].
  - eapply accounted_same; [exact H|reflexivity..|done].
  - change (exitObserver (set_alive false st)) with (exitObserver st).
    destruct (exitObserver st).
    + by apply accounted_onChildExit.
    + eapply accounted_same; [exact H|reflexivity..|done].
  - rewrite relay_loop. apply accounted_emit; [|done].
    apply Forall_fmap, Forall_forall. by intros r _.
  - rewrite onAttemptSettled_spec.
    set (st' := if ok then st else _).
    assert (accounted st') as H'.
    { subst st'. destruct ok; [done|]. destruct (attempting _); [done|].
      by apply accounted_after_kill. }
    assert (calls st' = calls st) as Hcs.
    { subst st'. destruct ok; [done|]. by destruct (attempting _). }
    apply accounted_set_calls; [done| |].
    + by rewrite sigint_resolved_mark, Hcs.
    + apply (holder_mark (λ w, w = FromSIGINT → handleSIGINT options = true)).
      rewrite <- Hcs. exact (acc_holder _ _ _ H').
  - by apply accounted_onRemoved.
Qed.

Lemma accounted_step ev st : accounted st → accounted (step st ev).
Proof.
  intros H. unfold Launcher.step. destruct (hostExited st); [done|].
  by apply accounted_react, accounted_handle.
Qed.

Lemma accounted_run evs st : accounted st → accounted (run st evs).
Proof.
  revert st. induction evs as [|ev evs IH]; intros st H; [done|].
  cbn [Launcher.run foldl]. by apply IH, accounted_step.
Qed.

Lemma accounted_launched pid fs0 :
  truthy_pid pid = true → accounted (launched options platform pid fs0).
Proof.
  intros Hp. constructor; try done. repeat constructor.
Qed.

Lemma reachable_accounted st : reachable st → accounted st.
Proof.
  intros (pid & fs0 & evs & Hp & ->). by apply accounted_run, accounted_launched.
Qed.

(** *** The file system outside the temporary directories *)

Lemma frames_refl st : frames st st.
Proof. intros d. by left. Qed.

Lemma frames_same st st' : fs st' = fs st → frames st st'.
Proof. intros H d. left. by rewrite H. Qed.

Lemma frames_trans st1 st2 st3 : frames st1 st2 → frames st2 st3 → frames st1 st3.
Proof.
  intros H12 H23 d. destruct (H23 d) as [E|[Hd E]]; [|by right].
  rewrite E. apply H12.
Qed.

Lemma rimraf_frame dir fs0 d :
  (rimraf dir fs0).2 !! d = fs0 !! d ∨ (d = dir ∧ (rimraf dir fs0).2 !! d = None).
Proof.
  unfold rimraf. destruct (fs0 !! dir) as [[]|] eqn:E; cbn [snd]; [|by left..].
  destruct (decide (d = dir)) as [->|Hne].
  - right. split; [done|]. apply lookup_delete_eq.
  - left. by apply lookup_delete_ne.
Qed.

Lemma sync_removals_frame ds fs0 d :
  (sync_removals ds fs0).2 !! d = fs0 !! d
  ∨ (d ∈ ds ∧ (sync_removals ds fs0).2 !! d = None).
Proof.
  revert fs0. induction ds as [|d0 ds IH]; intros fs0; cbn [sync_removals]; [by left|].
  pose proof (rimraf_frame d0 fs0 d) as Hr.
  destruct (rimraf d0 fs0) as [[e|] fs1]; cbn [snd] in *.
  - destruct Hr as [Hr|[-> Hr]]; [by left|].
    right. split; [apply list_elem_of_here|done].
  - specialize (IH fs1). destruct (sync_removals ds fs1) as [acts fs2]. cbn [snd] in *.
    destruct IH as [IH|[Hin IH]].
    + rewrite IH. destruct Hr as [Hr|[-> Hr]]; [by left|].
      right. split; [apply list_elem_of_here|done].
    + right. split; [by apply list_elem_of_further|done].
Qed.

Lemma frames_after_kill st : frames st (after_kill st).
Proof. intros d. apply sync_removals_frame. Qed.

Lemma frames_process_exit code st : frames st (process_exit options platform code st).
Proof.
  unfold process_exit. cbv zeta. case_decide; [|by apply frames_same].
  rewrite exec_killProcess. apply (frames_after_kill (emit [HostExit code] st)).
Qed.

Lemma frames_resume_all ready st : frames st (resume_all options platform ready st).
Proof.
  unfold resume_all. destruct (resume ready 0 (calls st)) as [[cs acts] ex].
  destruct ex; [|by apply frames_same].
  apply (frames_process_exit 130 (emit acts (set_calls cs st))).
Qed.

Lemma frames_finish_cleanup st : frames st (finish_cleanup st).
Proof. unfold finish_cleanup. destruct (_ && _); by apply frames_same. Qed.

Lemma frames_react st : frames st (react st).
Proof.
  unfold Launcher.react.
  set (st1 := if hostExited st then st else _).
  assert (frames st st1) as H1.
  { subst st1. destruct (hostExited st); [by apply frames_same|].
    destruct (waitForClose st); [apply frames_resume_all|by apply frames_same]. }
  set (st2 := if hostExited st1 then st1 else _).
  assert (frames st1 st2) as H2.
  { subst st2. destruct (hostExited st1); [by apply frames_same|apply frames_finish_cleanup]. }
  set (st3 := if hostExited st2 then st2 else _).
  assert (frames st2 st3) as H3.
  { subst st3. destruct (hostExited st2); [by apply frames_same|].
    destruct (waitForCleanup st2); [apply frames_resume_all|by apply frames_same]. }
  eapply frames_trans; [exact H1|]. eapply frames_trans; [exact H2|].
  eapply frames_trans; [exact H3|].
  destruct (hostExited st3); [by apply frames_same|].
  destruct (waitForCleanup st3); [apply frames_resume_all|by apply frames_same].
Qed.

Lemma frames_handle ev st : accounted st → frames st (handle ev st).
Proof.
  intros H. destruct ev as [| | |s| | |c sg|s line|ok|i]; cbn [Launcher.handle].
  - destruct (gracefullyClosing st) eqn:Hg.
    + rewrite gracefullyClose_reentrant by done.
      apply (frames_after_kill (emit [Logged browserLog "<forecefully close>"] st)).
    + rewrite gracefullyClose_first by done. by apply frames_same.
  - rewrite killAndWait_spec. apply frames_after_kill.
  - destruct (_ && _); by apply frames_same.
  - case_decide; [|by apply frames_same].
    destruct (gracefullyClosing st) eqn:Hg.
    + rewrite gracefullyClose_reentrant by done.
      apply (frames_after_kill (emit [Logged browserLog "<forecefully close>"] st)).
    + rewrite gracefullyClose_first by done. by apply frames_same.
  - case_decide; [|by apply frames_same]. rewrite exec_killProcess. apply frames_after_kill.
  - by apply frames_same.
  - change (exitObserver (set_alive false st)) with (exitObserver st).
    destruct (exitObserver st); [|by apply frames_same].
    unfold exec. rewrite onChildExit_spec. by apply frames_same.
  - rewrite relay_loop. by apply frames_same.
  - rewrite onAttemptSettled_spec. destruct ok; [by apply frames_same|].
    destruct (attempting _); [by apply frames_same|apply frames_after_kill].
  - unfold onRemoved. destruct (removing st !! i) as [dir|] eqn:Hi; [|by apply frames_same].
    assert (dir ∈ tempDirectories options) as Hdir.
    { exact (proj1 (Forall_lookup _ _) (acc_removing _ _ _ H) i dir Hi). }
    pose proof (rimraf_frame dir (fs st)) as Hr.
    destruct (rimraf dir (fs st)) as [[e|] fs1]; cbn [snd] in Hr;
      intros d; (destruct (Hr d) as [E|[-> E]]; [by left|by right]).
Qed.

Lemma frames_step ev st : accounted st → frames st (step st ev).
Proof.
  intros H. unfold Launcher.step. destruct (hostExited st); [apply frames_refl|].
  eapply frames_trans; [by apply frames_handle|apply frames_react].
Qed.

Lemma frames_run evs st : accounted st → frames st (run st evs).
Proof.
  revert st. induction evs as [|ev evs IH]; intros st H; [apply frames_refl|].
  cbn [Launcher.run foldl].
  eapply frames_trans; [by apply frames_step|]. by apply IH, accounted_step.
Qed.

(** *** Reading the bookkeeping *)

Lemma torn_down_iff tr : existsb is_teardown tr = true ↔ ListenersRemoved ∈ tr.
Proof.
  rewrite existsb_exists. split.
  - intros (a & Hin & Ha). apply list_elem_of_In in Hin. by destruct a.
  - intros Hin. exists ListenersRemoved. split; [by apply list_elem_of_In|done].
Qed.

Lemma host_exit_iff tr : existsb is_host_exit tr = true ↔ ∃ code, HostExit code ∈ tr.
Proof.
  rewrite existsb_exists. split.
  - intros (a & Hin & Ha). apply list_elem_of_In in Hin. destruct a; try done. by eexists.
  - intros (code & Hin). exists (HostExit code). split; [by apply list_elem_of_In|done].
Qed.

Lemma sigint_resolved_iff cs :
  existsb sigint_resolved cs = true
  ↔ ∃ id c p, cs !! id = Some c ∧ who c = FromSIGINT ∧ at_ c = Fulfilled p.
Proof.
  rewrite existsb_exists. split.
  - intros (c & Hin & Hc). apply list_elem_of_In, list_elem_of_lookup in Hin as [id Hid].
    apply andb_prop in Hc as [Hw Ha]. apply bool_decide_eq_true in Hw.
    destruct (at_ c) as [| | | |p|] eqn:E; try done. by exists id, c, p.
  - intros (id & c & p & Hid & Hw & Ha). exists c. split.
    + apply list_elem_of_In. by eapply list_elem_of_lookup_2.
    + unfold sigint_resolved. rewrite Ha, bool_decide_eq_true_2; done.
Qed.

Lemma react_gone st : hostExited st = true → react st = st.
Proof. intros H. unfold Launcher.react. by rewrite !H. Qed.

Lemma react_unclosed st :
  coherent st → hostExited st = false → processClosed st = false → react st = st.
Proof.
  intros [Ht Ho Hcl Hcg Hcd Hat] Hh Hp. apply react_idle; [done|].
  assert (waitForCleanup st = false) as Hw.
  { destruct (waitForCleanup st); [|done]. rewrite Hcd in Hp; done. }
  constructor.
  - rewrite Hcl, Hp. done.
  - rewrite Hw. done.
  - rewrite Hcg, Hp. done.
Qed.

Lemma attached_unclosed st :
  accounted st → listeners st ≠ [] → processClosed st = false ∧ listeners st = registered.
Proof.
  intros H Hl. split.
  - destruct (processClosed st) eqn:E; [|done]. destruct Hl. exact (acc_closed _ _ _ H E).
  - pose proof (acc_listeners _ _ _ H) as Hls. by destruct (existsb _ _).
Qed.

(** X4: [options.attemptToGracefullyClose] is called at most once per
    launch, however often and by whomever [gracefullyClose] is invoked:
    once exactly when [gracefullyClosing] has been set. *)
Theorem graceful_attempt_made_at_most_once st :
  reachable st →
  attempts (trace st) ≤ 1 ∧ (attempts (trace st) = 1 ↔ gracefullyClosing st = true).
Proof.
  intros Hr. pose proof (acc_attempts _ _ _ (reachable_accounted _ Hr)) as H.
  rewrite H. destruct (gracefullyClosing st); split; try lia; split; done.
Qed.



(** X7: a kill signal is only ever sent to the child that was spawned: to
    its process group with [process.kill(-pid, 'SIGKILL')] where the
    platform is not win32, in which case the child had been spawned
    detached, and with [taskkill] on win32. *)
Theorem kill_signals_target_the_child st a :
  reachable st → a ∈ trace st → is_kill_signal a →
  ∃ pid delivered,
    child_pid st = Some pid ∧ pid ≠ 0%Z ∧
    a = (if String.eqb platform "win32"
         then Taskkill pid delivered else GroupKill pid delivered) ∧
    (String.eqb platform "win32" = false →
     Spawned (executablePath options) (args options) true (cwd options) (stdio options)
       ∈ trace st).
Proof.
  intros Hr Hin Hk. pose proof (reachable_accounted _ Hr) as H.
  pose proof (proj1 (Forall_forall _ _) (acc_lawful _ _ _ H) a Hin) as Hlaw.
  pose proof (acc_pid _ _ _ H) as Hpid.
  assert (String.eqb platform "win32" = false →
          Spawned (executablePath options) (args options) true (cwd options) (stdio options)
            ∈ trace st) as Hsp.
  { intros Hw. destruct Hr as (pid0 & fs0 & evs & _ & ->).
    destruct (lt_trace _ _ (later_run evs (launched options platform pid0 fs0)))
      as [chunk ->].
    apply elem_of_app. left. unfold launched, launching. cbn [trace]. rewrite Hw.
    apply list_elem_of_further, list_elem_of_here. }
  assert (∀ p, child_pid st = Some p → p ≠ 0%Z) as Hnz.
  { intros p Hp ->. rewrite Hp in Hpid. done. }
  destruct a as [| | | | | |p b|p b| | | | | | | | | |]; try done;
    destruct Hlaw as [Hw Hp]; exists p, b; rewrite Hw;
    (split; [done|]); (split; [by apply Hnz|]); (split; [done|]).
  - by rewrite Hw in Hsp.
  - done.
Qed.

(** X8: [process.exit] is called by this module only with status 130, only
    when the options ask to handle SIGINT, and exactly when a promise
    that [gracefullyClose] returned to the SIGINT listener has
    resolved. *)
Theorem host_exits_only_after_sigint_close st :
  reachable st →
  (∀ code, HostExit code ∈ trace st →
     code = 130%Z ∧ handleSIGINT options = true ∧ hostExited st = true) ∧
  ((∃ code, HostExit code ∈ trace st)
   ↔ ∃ id c p, calls st !! id = Some c ∧ who c = FromSIGINT ∧ at_ c = Fulfilled p).
Proof.
  intros Hr. pose proof (reachable_accounted _ Hr) as H. split.
  - intros code Hin.
    destruct (proj1 (Forall_forall _ _) (acc_lawful _ _ _ H) _ Hin) as [-> Hflag].
    repeat split; [done|]. apply (acc_gone _ _ _ H). apply host_exit_iff. by eexists.
  - by rewrite <- host_exit_iff, <- sigint_resolved_iff, (acc_exit _ _ _ H).
Qed.

(** X9: the 'exit' listener of the host: when the host process exits while
    the listeners are attached and the child has not been signalled
    through its handle, the child's process group (its process tree on
    win32) is killed and the temporary directories are removed, all
    within the handler; once the listeners are gone the host's exit does
    nothing more. *)
Theorem host_exit_kills_child st :
  reachable st → hostExited st = false →
  let st' := step st HostExiting in
  hostExited st' = true ∧
  (listeners st = [] → trace st' = trace st ∧ alive st' = alive st ∧ fs st' = fs st) ∧
  (listeners st ≠ [] → child_killed st = false →
   ∃ pid, child_pid st = Some pid ∧
     trace st' = trace st
       ++ [Logged browserLog "<kill>"; ListenersRemoved;
           if String.eqb platform "win32"
           then Taskkill pid (alive st) else GroupKill pid (alive st)]
       ++ (sync_removals (tempDirectories options) (fs st)).1 ∧
     alive st' = false ∧ listeners st' = [] ∧
     fs st' = (sync_removals (tempDirectories options) (fs st)).2).
Proof.
  intros Hr Hh st'. pose proof (reachable_accounted _ Hr) as H.
  assert (st' = handle HostExiting st) as Hst.
  { subst st'. rewrite step_unfold by done. by apply react_gone. }
  rewrite Hst. cbn [Launcher.handle]. split; [done|]. split.
  - intros Hl. rewrite Hl. case_decide as Hin; [by apply elem_of_nil in Hin|]. done.
  - intros Hl Hk. destruct (attached_unclosed st H Hl) as [Hp Hreg].
    pose proof (acc_pid _ _ _ H) as Hpid.
    destruct (child_pid st) as [pid|] eqn:Epid; [|done]. exists pid. split; [done|].
    case_decide as Hin.
    + rewrite exec_killProcess.
      assert (kill_attempt platform st
              = ([if String.eqb platform "win32"
                  then Taskkill pid (alive st) else GroupKill pid (alive st)], false)) as Hka.
      { unfold kill_attempt. rewrite Epid, Hk, Hp. cbn [truthy_pid] in Hpid.
        cbn [truthy_pid default negb andb]. by rewrite Hpid. }
      repeat split.
      * change (trace st ++ [Logged browserLog "<kill>"; ListenersRemoved]
                  ++ (kill_attempt platform st).1
                  ++ (sync_removals (tempDirectories options) (fs st)).1
                = trace st
                  ++ [Logged browserLog "<kill>"; ListenersRemoved;
                      if String.eqb platform "win32"
                      then Taskkill pid (alive st) else GroupKill pid (alive st)]
                  ++ (sync_removals (tempDirectories options) (fs st)).1).
        by rewrite Hka.
      * change ((kill_attempt platform st).2 = false). by rewrite Hka.
    + destruct Hin. rewrite Hreg. apply list_elem_of_here.
Qed.

Lemma flag_registered s :
  match s with
  | SIGINT => handleSIGINT options
  | SIGTERM => handleSIGTERM options
  | SIGHUP => handleSIGHUP options
  end = true →
  listener_of s ∈ registered.
Proof.
  unfold Launcher.registered.
  destruct s, (handleSIGINT options), (handleSIGTERM options), (handleSIGHUP options);
    cbn; try done; intros _;
    repeat first [apply list_elem_of_here | apply list_elem_of_further].
Qed.


(** *** The end of the asynchronous cleanup *)

Lemma cleaned_no_removal st :
  coherent st → waitForCleanup st = true → processClosed st = true ∧ removing st = [].
Proof.
  intros [Ht Ho Hcl Hcg Hcd Hat] Hw. pose proof (Hcd Hw) as Hp. split; [done|].
  destruct (seen_cleanup _ _ _ Ht eq_refl Hw) as (pre & post & m1 & Htr & Hpre & _ & Hb & Hi).
  rewrite Htr in Ht.
  destruct (observe_all_split _ _ _ _ _ Ht) as (m1' & m2 & Hpre' & Hobs & Hpost).
  rewrite Hpre in Hpre'. injection Hpre' as <-.
  assert (begun m2 = begun m1 ∧ inflight m2 = inflight m1) as [Hb2 Hi2].
  { cbn in Hobs. case_match; [|done]. injection Hobs as <-. done. }
  destruct (accounting _ _ _ Hpost) as [Hbegun Hfl].
  unfold Launcher.view in Hbegun, Hfl. cbn [begun inflight] in Hbegun, Hfl.
  rewrite Hp, Hb2, Hb in Hbegun. rewrite Hi2, Hi in Hfl.
  apply length_zero_iff_nil. lia.
Qed.

Lemma removing_closed st : coherent st → removing st ≠ [] → processClosed st = true.
Proof.
  intros [Ht Ho Hcl Hcg Hcd Hat] Hrm.
  destruct (processClosed st) eqn:Hp; [done|]. destruct Hrm.
  destruct (accounting _ _ _ Ht) as [Hbegun Hfl].
  unfold Launcher.view in Hbegun, Hfl. cbn [begun inflight start] in Hbegun, Hfl.
  rewrite Hp in Hbegun. apply length_zero_iff_nil. lia.
Qed.

Lemma cleanup_in_trace st :
  coherent st → (waitForCleanup st = true ↔ FulfillCleanup ∈ trace st).
Proof.
  intros [Ht Ho Hcl Hcg Hcd Hat]. split.
  - intros Hw.
    destruct (seen_cleanup _ _ _ Ht eq_refl Hw) as (pre & post & m1 & Htr & _).
    rewrite Htr. apply elem_of_app. right. apply list_elem_of_here.
  - intros Hin. apply list_elem_of_split in Hin as (pre & post & Htr).
    rewrite Htr in Ht.
    destruct (observe_all_split _ _ _ _ _ Ht) as (m1 & m2 & _ & Hobs & Hpost).
    assert (cleaned m2 = true) as Hc.
    { cbn in Hobs. case_match; [|done]. injection Hobs as <-. done. }
    exact (proj2 (proj2 (observe_all_mono _ _ _ Hpost)) Hc).
Qed.

(** X11: the cleanup-complete signal ([waitForCleanup]) is given exactly
    when the exit of the child has been observed and every asynchronous
    removal started by the exit observer has completed, whether it
    succeeded or failed; a removal is in flight only after the exit. *)
Theorem cleanup_completes_when_removals_finish st :
  reachable st →
  (waitForCleanup st = true → processClosed st = true ∧ removing st = []) ∧
  (hostExited st = false → processClosed st = true → removing st = [] →
   waitForCleanup st = true) ∧
  (removing st ≠ [] → processClosed st = true) ∧
  (waitForCleanup st = true ↔ FulfillCleanup ∈ trace st).
Proof.
  intros Hr. destruct (reachable_invariant st Hr) as [Hcoh _].
  split; [|split; [|split]].
  - by apply cleaned_no_removal.
  - by apply cleaned_when_removed.
  - by apply removing_closed.
  - by apply cleanup_in_trace.
Qed.

(** *** The synchronous removal when nothing is in its way *)

Lemma sync_removals_all ds fs0 :
  (∀ d, d ∈ ds → fs0 !! d ≠ Some Stuck) →
  (sync_removals ds fs0).1 = (λ d, RemovedSync d true) <$> ds ∧
  (∀ d, d ∈ ds → (sync_removals ds fs0).2 !! d = None).
Proof.
  revert fs0. induction ds as [|d0 ds IH]; intros fs0 Hok; cbn [sync_removals].
  - split; [done|]. intros d Hd. by apply elem_of_nil in Hd.
  - assert (∃ fs1, rimraf d0 fs0 = (None, fs1) ∧ fs1 !! d0 = None ∧
                   ∀ d, d ∈ ds → fs1 !! d ≠ Some Stuck) as (fs1 & Hr & Hd0 & Hok1).
    { assert (∀ d, d ∈ ds → fs0 !! d ≠ Some Stuck) as Hok'.
      { intros d Hd. by apply Hok, list_elem_of_further. }
      unfold rimraf. destruct (fs0 !! d0) as [[]|] eqn:E.
      - exists (delete d0 fs0). split; [done|]. split; [apply lookup_delete_eq|].
        intros d Hd. destruct (decide (d = d0)) as [->|Hne].
        + by rewrite lookup_delete_eq.
        + rewrite lookup_delete_ne by done. by apply Hok'.
      - destruct (Hok d0); [apply list_elem_of_here|done].
      - exists fs0. done. }
    rewrite Hr. destruct (IH fs1 Hok1) as [Hacts Hgone].
    pose proof (sync_removals_frame ds fs1 d0) as Hfr.
    destruct (sync_removals ds fs1) as [acts fs2]. cbn [fst snd] in *.
    split; [by rewrite Hacts|].
    intros d Hd. apply elem_of_cons in Hd as [->|Hd]; [|by apply Hgone].
    destruct Hfr as [Hfr|[_ Hfr]]; [by rewrite Hfr|done].
Qed.


(** X13: the guard [!spawnedProcess.killed] of [killProcess]: once the
    holder of the result has signalled the child through its handle
    ([launchedProcess.kill()] found it alive), [kill] sends no signal of
    its own; it still detaches the listeners and removes the temporary
    directories, and the child is left as it is. *)
Theorem kill_sends_no_signal_after_handle_kill st :
  reachable st → hostExited st = false → alive st = true → processClosed st = false →
  let st1 := step st HandleKill in
  let st2 := step st1 CallKill in
  child_killed st1 = true ∧
  trace st2 = trace st ++ [Logged browserLog "<kill>"; ListenersRemoved]
                ++ (sync_removals (tempDirectories options) (fs st)).1 ∧
  alive st2 = true ∧ listeners st2 = [].
Proof.
  intros Hr Hh Ha Hp st1 st2.
  destruct (reachable_invariant st Hr) as [Hcoh _].
  assert (handle HandleKill st = set_child_killed true st) as Hhk.
  { cbn [Launcher.handle]. by rewrite Ha, Hp. }
  assert (st1 = set_child_killed true st) as H1.
  { subst st1. rewrite step_unfold by done. rewrite <- Hhk.
    apply react_unclosed; [by apply coherent_handle|by rewrite Hhk..]. }
  assert (coherent st1) as Hcoh1.
  { rewrite H1, <- Hhk. by apply coherent_handle. }
  assert (st2 = set_calls (calls st1 ++ [{| who := Direct; at_ := KillWait |}]) (after_kill st1))
    as H2.
  { subst st2. rewrite step_unfold by by rewrite H1.
    pose proof (coherent_handle CallKill st1 Hcoh1) as Hc2.
    cbn [Launcher.handle] in *. rewrite killAndWait_spec in *.
    apply react_unclosed; [done|by rewrite H1..]. }
  assert (kill_attempt platform st1 = ([], true)) as Hka.
  { rewrite H1. unfold kill_attempt. cbn [child_killed set_child_killed negb].
    rewrite andb_false_r. cbn [andb]. by rewrite <- Ha. }
  split; [by rewrite H1|]. rewrite H2. repeat split.
  - change (trace st1 ++ [Logged browserLog "<kill>"; ListenersRemoved]
              ++ (kill_attempt platform st1).1
              ++ (sync_removals (tempDirectories options) (fs st1)).1
            = trace st ++ [Logged browserLog "<kill>"; ListenersRemoved]
              ++ (sync_removals (tempDirectories options) (fs st)).1).
    rewrite Hka, H1. done.
  - change ((kill_attempt platform st1).2 = true). by rewrite Hka.
Qed.

(** *** Asynchronous removals *)

Lemma removing_process_exit code st :
  removing (process_exit options platform code st) = removing st.
Proof.
  unfold process_exit. cbv zeta. case_decide; [|done]. by rewrite exec_killProcess.
Qed.

Lemma removing_resume_all ready st :
  removing (resume_all options platform ready st) = removing st.
Proof.
  unfold resume_all. destruct (resume ready 0 (calls st)) as [[cs acts] ex].
  destruct ex; [|done]. by rewrite removing_process_exit.
Qed.

Lemma removing_finish_cleanup st : removing (finish_cleanup st) = removing st.
Proof. unfold finish_cleanup. by destruct (_ && _). Qed.

Lemma removing_react st : removing (react st) = removing st.
Proof.
  unfold Launcher.react.
  set (st1 := if hostExited st then st else _).
  assert (removing st1 = removing st) as H1.
  { subst st1. destruct (hostExited st); [done|].
    destruct (waitForClose st); [apply removing_resume_all|done]. }
  set (st2 := if hostExited st1 then st1 else _).
  assert (removing st2 = removing st1) as H2.
  { subst st2. destruct (hostExited st1); [done|apply removing_finish_cleanup]. }
  set (st3 := if hostExited st2 then st2 else _).
  assert (removing st3 = removing st2) as H3.
  { subst st3. destruct (hostExited st2); [done|].
    destruct (waitForCleanup st2); [apply removing_resume_all|done]. }
  rewrite <- H1, <- H2, <- H3.
  destruct (hostExited st3); [done|].
  destruct (waitForCleanup st3); [apply removing_resume_all|done].
Qed.

(** X14: the asynchronous removals started by the exit observer
    ([cleanup], and its [catch]): each completes on its own, whatever
    the others do.  One that fails is reported to [console.error] and
    counts as completed; nothing is signalled or called back because of
    it, and the cleanup-complete signal is given when the last one has
    completed. *)
Theorem async_removal_completes_whatever_the_outcome st i d :
  reachable st → hostExited st = false → removing st !! i = Some d →
  let st' := step st (Removed i) in
  d ∈ tempDirectories options ∧
  processClosed st = true ∧
  removing st' = delete i (removing st) ∧
  (∃ tail,
     trace st' = trace st
       ++ (if decide (fs st !! d = Some Stuck)
           then [RemovedAsync d false;
                 ConsoleError (new_Error ("EBUSY: resource busy or locked, rmdir '" +:+ d +:+ "'"))]
           else [RemovedAsync d true])
       ++ tail ∧
     Forall (λ a, reactive a ∧ ¬ is_kill_signal a) tail) ∧
  (hostExited st' = false → (waitForCleanup st' = true ↔ length (removing st) = 1)).
Proof.
  intros Hr Hh Hi st'. pose proof (reachable_accounted _ Hr) as H.
  destruct (reachable_invariant st Hr) as [Hcoh _].
  assert (processClosed st = true) as Hp.
  { apply removing_closed; [done|]. intros Hn. by rewrite Hn in Hi. }
  assert (st' = react (onRemoved i st)) as Hst.
  { subst st'. by rewrite step_unfold. }
  assert (removing st' = delete i (removing st)) as Hrm.
  { rewrite Hst, removing_react. unfold onRemoved. rewrite Hi.
    by destruct (rimraf d (fs st)) as [[e|] fs1]. }
  split; [exact (proj1 (Forall_lookup _ _) (acc_removing _ _ _ H) i d Hi)|].
  split; [done|]. split; [done|]. split.
  - destruct (writes_react (onRemoved i st)) as (tail & Htr & Htail).
    exists tail. split.
    + rewrite Hst, Htr. unfold onRemoved, rimraf. rewrite Hi.
      destruct (fs st !! d) as [[]|] eqn:E; case_decide; try done;
        cbn [trace emit set_trace]; by rewrite <- app_assoc.
    + eapply Forall_impl; [exact Htail|]. intros a [Ha Hk]. split; [done|].
      apply Hk. unfold onRemoved. rewrite Hi.
      by destruct (rimraf d (fs st)) as [[e|] fs1].
  - intros Hh'.
    assert (reachable st') as Hr' by by apply reachable_step.
    destruct (reachable_invariant st' Hr') as [Hcoh' _].
    assert (processClosed st' = true) as Hp'.
    { exact (lt_processClosed _ _ (later_step (Removed i) st) Hp). }
    assert (length (removing st') = length (removing st) - 1) as Hlen.
    { rewrite Hrm, length_delete; [done|]. by eexists. }
    apply lookup_lt_Some in Hi.
    split.
    + intros Hw. destruct (cleaned_no_removal st' Hcoh' Hw) as [_ Hn].
      rewrite Hn in Hlen. cbn in Hlen. lia.
    + intros Hone. apply cleaned_when_removed; [done..|].
      apply length_zero_iff_nil. lia.
Qed.

(** *** A launch that got no process id *)

Lemma failing_error_kept f evs e :
  f_failed f = Some e → f_failed (foldl failing_step f evs) = Some e.
Proof.
  revert f. induction evs as [|ev evs IH]; intros f Hf; [done|].
  cbn [foldl]. apply IH. destruct ev as [e'|i]; cbn.
  - by rewrite Hf.
  - destruct (f_removing f !! i); [|done]. by destruct (rimraf _ _).
Qed.

Lemma failing_no_error_yet f evs :
  Forall (λ ev, ∀ e, ev ≠ SpawnError e) evs →
  f_failed (foldl failing_step f evs) = f_failed f.
Proof.
  intros Hevs. revert f. induction Hevs as [|ev evs Hev _ IH]; intros f; [done|].
  cbn [foldl]. rewrite IH. destruct ev as [e'|i]; cbn.
  - by destruct (Hev e').
  - destruct (f_removing f !! i); [|done]. by destruct (rimraf _ _).
Qed.

Lemma failing_cleaned_after f ev :
  f_removing (failing_step f ev) = [] → f_cleaned (failing_step f ev) = true.
Proof.
  unfold failing_step, failing_react. cbn [f_removing f_cleaned].
  intros ->. by rewrite orb_true_r.
Qed.


(** *** Promises and the signals they wait for *)

(** X16: as long as the host is running no invocation is left waiting for
    a signal that has been given: none awaits the closed signal once
    the exit has been observed, none awaits the cleanup-complete signal
    once it is given, and an invocation can only be waiting for the
    caller's graceful-close operation if that operation has been
    called. *)
Theorem no_invocation_left_waiting st id c :
  reachable st → hostExited st = false → calls st !! id = Some c →
  (processClosed st = true → at_ c ≠ AwaitClose) ∧
  (waitForCleanup st = true → at_ c ≠ AwaitCleanup ∧ at_ c ≠ KillWait) ∧
  (at_ c = AwaitAttempt → gracefullyClosing st = true ∧ attempts (trace st) = 1).
Proof.
  intros Hr Hh Hc. destruct (reachable_invariant _ Hr) as [Hcoh Hq].
  destruct (Hq Hh) as [Hqc Hqu _]. split; [|split].
  - intros Hp. rewrite <- (coh_closed _ _ Hcoh) in Hp.
    exact (proj1 (Forall_lookup _ _) (Hqc Hp) _ _ Hc).
  - intros Hw. exact (proj1 (Forall_lookup _ _) (Hqu Hw) _ _ Hc).
  - intros Ha. pose proof (attempting_pos _ _ _ Hc Ha) as Hpos.
    pose proof (coh_attempt _ _ Hcoh) as Hat.
    pose proof (acc_attempts _ _ _ (reachable_accounted _ Hr)) as Hn.
    destruct (gracefullyClosing st); [done|lia].
Qed.

(** X17: every temporary directory gets one asynchronous removal, started
    when the exit of the child is observed and not before; the removals
    in flight are those started and not yet completed. *)
Theorem asynchronous_removals_accounted st :
  reachable st →
  started (trace st) = (if processClosed st then length (tempDirectories options) else 0) ∧
  completed (trace st) + length (removing st) = started (trace st).
Proof.
  intros Hr. destruct (reachable_invariant _ Hr) as [Hcoh _].
  destruct (accounting _ _ _ (coh_trace _ _ Hcoh)) as [Hb Hi].
  unfold Launcher.view in Hb, Hi. cbn [begun inflight start] in Hb, Hi.
  split; lia.
Qed.

(** *** SIGINT and the exit of the host *)

Lemma handle_alive ev st :
  hostExited st = false → ev ≠ HostExiting → hostExited (handle ev st) = false.
Proof.
  intros Hh Hev. destruct ev as [| | |s| | |c sg|s line|ok|i]; cbn [Launcher.handle]; try done.
  - destruct (gracefullyClosing st) eqn:Hg.
    + by rewrite gracefullyClose_reentrant.
    + by rewrite gracefullyClose_first.
  - by rewrite killAndWait_spec.
  - by destruct (_ && _).
  - case_decide; [|done]. destruct (gracefullyClosing st) eqn:Hg.
    + by rewrite gracefullyClose_reentrant.
    + by rewrite gracefullyClose_first.
  - change (exitObserver (set_alive false st)) with (exitObserver st).
    destruct (exitObserver st); [|done]. unfold exec. by rewrite onChildExit_spec.
  - by rewrite relay_loop.
  - rewrite onAttemptSettled_spec. destruct ok; [done|]. by destruct (attempting _).
  - unfold onRemoved. destruct (removing st !! i) as [dir|]; [|done].
    by destruct (rimraf dir (fs st)) as [[e|] fs1].
Qed.

Lemma resume_all_exit ready st :
  hostExited (resume_all options platform ready st) = hostExited st
  ∨ existsb is_host_exit (trace (resume_all options platform ready st)) = true.
Proof.
  unfold resume_all. destruct (resume ready 0 (calls st)) as [[cs acts] ex].
  destruct ex; [|by left]. right.
  unfold process_exit. cbv zeta.
  case_decide.
  - rewrite exec_killProcess.
    destruct (after_kill_trace (emit [HostExit 130] (emit acts (set_calls cs st))))
      as (chunk' & Htr & _).
    change (existsb is_host_exit
              (trace (after_kill (emit [HostExit 130] (emit acts (set_calls cs st))))) = true).
    rewrite Htr.
    change (existsb is_host_exit (((trace st ++ acts) ++ [HostExit 130]) ++ chunk') = true).
    rewrite !existsb_app. cbn. by rewrite orb_true_r.
  - change (existsb is_host_exit ((trace st ++ acts) ++ [HostExit 130]) = true).
    rewrite !existsb_app. cbn. by rewrite orb_true_r.
Qed.

Lemma react_exit st :
  hostExited st = false → hostExited (react st) = true →
  existsb is_host_exit (trace (react st)) = true.
Proof.
  intros Hh.
  assert (Hph : ∀ ready cur,
            hostExited cur = false ∨ existsb is_host_exit (trace cur) = true →
            ∀ b : bool,
            let next := if hostExited cur then cur
                        else if b then resume_all options platform ready cur else cur in
            hostExited next = false ∨ existsb is_host_exit (trace next) = true).
  { intros ready cur Hcur b. cbv zeta.
    destruct (hostExited cur) eqn:E.
    { destruct Hcur as [Hc|Hc]; [congruence|by right]. }
    destruct b; [|by left].
    destruct (resume_all_exit ready cur) as [H|H]; [|by right]. left. by rewrite H. }
  unfold Launcher.react.
  pose proof (Hph after_close st (or_introl Hh) (waitForClose st)) as H1. cbv zeta in H1.
  set (st1 := if hostExited st then st else _) in *. clearbody st1.
  assert (hostExited (if hostExited st1 then st1 else finish_cleanup st1) = false
          ∨ existsb is_host_exit (trace (if hostExited st1 then st1 else finish_cleanup st1)) = true)
    as H2.
  { destruct (hostExited st1) eqn:E.
    - destruct H1 as [Hc|Hc]; [congruence|by right].
    - left. unfold finish_cleanup. by destruct (_ && _). }
  set (st2 := if hostExited st1 then st1 else _) in *. clearbody st2.
  pose proof (Hph handed_cleanup st2 H2 (waitForCleanup st2)) as H3. cbv zeta in H3.
  set (st3 := if hostExited st2 then st2 else _) in *. clearbody st3.
  pose proof (Hph after_cleanup st3 H3 (waitForCleanup st3)) as H4. cbv zeta in H4.
  intros Hgone. destruct H4 as [H4|H4]; [congruence|done].
Qed.

Lemma quiescent_or_exited st :
  reachable st → quiescent st ∨ existsb is_host_exit (trace st) = true.
Proof.
  intros (pid & fs0 & evs & Hp & ->).
  induction evs as [|ev evs IH] using rev_ind.
  - left. constructor; cbn; done.
  - unfold Launcher.run in *. rewrite foldl_app. cbn [foldl].
    set (s := foldl step (launched options platform pid fs0) evs) in *. clearbody s.
    destruct IH as [Hq|Hx].
    + destruct (hostExited s) eqn:Hh.
      { left. unfold Launcher.step. by rewrite Hh. }
      rewrite step_unfold by done.
      destruct (hostExited (react (handle ev s))) eqn:Hh'.
      * assert (ev = HostExiting ∨ ev ≠ HostExiting) as [->|Hev].
        { destruct ev; (by left) || (by right). }
        -- left. rewrite react_gone by done. cbn [Launcher.handle].
           destruct Hq as [H1 H2 H3]. case_decide.
           ++ rewrite exec_killProcess. by constructor.
           ++ by constructor.
        -- right. apply react_exit; [by apply handle_alive|done].
      * left. by apply quiescent_react.
    + right. destruct (lt_trace _ _ (later_step ev s)) as [chunk ->].
      by rewrite existsb_app, Hx.
Qed.

Lemma exit_130 st :
  accounted st → existsb is_host_exit (trace st) = true →
  HostExit 130 ∈ trace st ∧ hostExited st = true.
Proof.
  intros H Hx. split; [|by apply (acc_gone _ _ _ H)].
  apply host_exit_iff in Hx as [code Hin].
  by destruct (proj1 (Forall_forall _ _) (acc_lawful _ _ _ H) _ Hin) as [-> _].
Qed.

(** X18: the continuation [process.exit(130)] of the SIGINT listener: an
    invocation of [gracefullyClose] made by that listener takes the host
    down with status 130 as soon as what it waits for is there, the
    cleanup-complete signal for the one that started the graceful close
    (once the caller's operation has settled), the closed signal alone
    for one made while a close was already under way. *)
Theorem sigint_close_ends_host st id c :
  reachable st → calls st !! id = Some c → who c = FromSIGINT →
  (leads_to AwaitClose (at_ c) → processClosed st = true →
   HostExit 130 ∈ trace st ∧ hostExited st = true) ∧
  (leads_to AwaitCleanup (at_ c) → waitForCleanup st = true →
   HostExit 130 ∈ trace st ∧ hostExited st = true).
Proof.
  intros Hr Hc Hw. pose proof (reachable_accounted _ Hr) as H.
  destruct (reachable_invariant _ Hr) as [Hcoh _].
  assert (∀ p, at_ c = Fulfilled p → HostExit 130 ∈ trace st ∧ hostExited st = true) as Hdone.
  { intros p Hp. apply exit_130; [done|]. rewrite (acc_exit _ _ _ H).
    apply sigint_resolved_iff. by exists id, c, p. }
  destruct (quiescent_or_exited st Hr) as [[Hqc Hqu _]|Hx]; [|by split; intros; apply exit_130].
  split.
  - intros [Hl|Hl] Hp; [|by eapply Hdone].
    rewrite <- (coh_closed _ _ Hcoh) in Hp.
    by destruct (proj1 (Forall_lookup _ _) (Hqc Hp) _ _ Hc).
  - intros [Hl|Hl] Hp; [|by eapply Hdone].
    by destruct (proj1 (proj1 (Forall_lookup _ _) (Hqu Hp) _ _ Hc)).
Qed.

(** *** [kill] on a running child, and the first [gracefullyClose] *)

(** X19: [kill] while the exit of the child has not been observed: the
    listeners are detached, the child is sent the kill signal unless it
    had been signalled through its handle, the temporary directories
    are removed synchronously, and the promise handed back is
    [waitForCleanup]: it is never rejected, resolves only after the
    cleanup-complete signal, and has resolved as soon as that signal is
    given while the host is running. *)
Theorem kill_on_running_child st :
  reachable st → hostExited st = false → processClosed st = false →
  let st' := step st CallKill in
  let id := length (calls st) in
  trace st' = trace st
    ++ [Logged browserLog "<kill>"; ListenersRemoved]
    ++ (kill_attempt platform st).1
    ++ (sync_removals (tempDirectories options) (fs st)).1 ∧
  calls st' = calls st ++ [{| who := Direct; at_ := KillWait |}] ∧
  listeners st' = [] ∧
  (child_killed st = false →
   ∃ pid, child_pid st = Some pid ∧
     (kill_attempt platform st).1
     = [if String.eqb platform "win32"
        then Taskkill pid (alive st) else GroupKill pid (alive st)] ∧
     alive st' = false) ∧
  ∀ evs,
    let st'' := run st' evs in
    Forall (λ a, match a with Rejects _ _ _ | Uncaught _ => False | _ => True end)
           (trace st'') ∧
    (∀ pre post, trace st'' = pre ++ Fulfils KillPath id :: post → FulfillCleanup ∈ pre) ∧
    (hostExited st'' = false → waitForCleanup st'' = true →
     calls st'' !! id = Some {| who := Direct; at_ := Fulfilled KillPath |}).
Proof.
  intros Hr Hh Hp st' id. pose proof (reachable_accounted _ Hr) as H.
  destruct (reachable_invariant _ Hr) as [Hcoh _].
  assert (reachable st') as Hr' by by apply reachable_step.
  assert (st' = set_calls (calls st ++ [{| who := Direct; at_ := KillWait |}]) (after_kill st))
    as Hst.
  { subst st'. rewrite step_unfold by done.
    pose proof (coherent_handle CallKill st Hcoh) as Hc.
    cbn [Launcher.handle] in *. rewrite killAndWait_spec in *.
    by apply react_unclosed. }
  assert (calls st' !! id = Some {| who := Direct; at_ := KillWait |}) as Hcall.
  { rewrite Hst. apply lookup_snoc. }
  split; [|split; [|split; [|split]]].
  - rewrite Hst. apply after_kill_trace_eq.
  - by rewrite Hst.
  - by rewrite Hst.
  - intros Hk. pose proof (acc_pid _ _ _ H) as Hpid.
    destruct (child_pid st) as [pid|] eqn:Epid; [|done]. exists pid. split; [done|].
    assert (kill_attempt platform st
            = ([if String.eqb platform "win32"
                then Taskkill pid (alive st) else GroupKill pid (alive st)], false)) as Hka.
    { unfold kill_attempt. rewrite Epid, Hk, Hp. cbn [truthy_pid] in Hpid.
      cbn [truthy_pid default negb andb]. by rewrite Hpid. }
    split; [by rewrite Hka|]. rewrite Hst.
    change ((kill_attempt platform st).2 = false). by rewrite Hka.
  - intros evs st''.
    assert (reachable st'') as Hr'' by by apply reachable_run.
    split; [|split].
    + eapply nothing_escapes. by apply reachable_trace.
    + intros pre post Htr. by eapply fulfilled_after_cleanup.
    + intros Hh'' Hw''.
      destruct (lt_calls _ _ (later_run evs st') _ _ Hcall) as (c'' & Hc'' & Hwho & Hlead).
      cbn [who at_] in Hwho, Hlead. fold st'' in Hc''. rewrite Hc''. f_equal.
      apply call_eta; [done|].
      by apply (resolved_when_cleaned _ _ _ Hr'' Hh'' Hw'' Hc'').
Qed.

(** X20: the first [gracefullyClose] of a launch leaves the registrations
    on the host in place (so that the host's exit and a second signal
    are still handled while the browser closes), signals nothing and
    removes nothing: it logs, sets [gracefullyClosing], calls the
    caller's operation and waits. *)
Theorem first_close_keeps_listeners st :
  reachable st → hostExited st = false → gracefullyClosing st = false →
  let st' := step st CallGracefullyClose in
  trace st' = trace st ++ [Logged browserLog "<gracefully close start>"; AttemptCalled] ∧
  calls st' = calls st ++ [{| who := Direct; at_ := AwaitAttempt |}] ∧
  gracefullyClosing st' = true ∧
  listeners st' = listeners st ∧
  alive st' = alive st ∧ fs st' = fs st ∧ hostExited st' = false.
Proof.
  intros Hr Hh Hg st'. destruct (reachable_invariant _ Hr) as [_ Hq].
  destruct (Hq Hh) as [Hqc Hqu Hqr].
  assert (st' = set_calls (calls st ++ [{| who := Direct; at_ := AwaitAttempt |}])
                  (emit [Logged browserLog "<gracefully close start>"; AttemptCalled]
                     (set_gracefullyClosing true st))) as Hst.
  { subst st'. rewrite step_unfold by done. cbn [Launcher.handle].
    rewrite gracefullyClose_first by done. apply react_idle; [done|].
    constructor.
    - intros Hw. apply Forall_app. split; [by apply Hqc|]. by repeat constructor.
    - intros Hw. apply Forall_app. split; [by apply Hqu|]. by repeat constructor.
    - exact Hqr. }
  by rewrite Hst.
Qed.

End Launch.

(** *** Examples *)

Import Examples.

Lemma close_resolves_only_after_witness :
  let st := run chromium linux (launched chromium linux (Some 4242%Z) disk)
              [CallGracefullyClose; AttemptSettled true; ChildExit (Some 0%Z) None; Removed 0] in
  FulfillClose ∈ take 15 (trace st).
Proof.
  intros st.
  refine (proj1 (proj2 (close_resolves_only_after chromium linux st
            (take 15 (trace st)) FirstPath 0 (drop 16 (trace st)) _ _))).
  - exists (Some 4242%Z), disk,
      [CallGracefullyClose; AttemptSettled true; ChildExit (Some 0%Z) None; Removed 0].
    split; reflexivity.
  - vm_compute. reflexivity.
Defined.

Lemma exit_observed_once_witness :
  let st := run chromium linux (launched chromium linux (Some 4242%Z) disk)
              [ChildExit (Some 1%Z) None; ChildExit (Some 1%Z) None] in
  processClosed st = true ↔ ∃ c s, OnExitCalled c s [] ∈ trace st.
Proof.
  intros st.
  refine (proj1 (proj2 (exit_observed_once chromium linux st _))).
  exists (Some 4242%Z), disk, [ChildExit (Some 1%Z) None; ChildExit (Some 1%Z) None].
  split; reflexivity.
Defined.

(** C1 as stated fails on the reentrant path: the second invocation has
    resolved while the removal started by the exit observer is still in
    flight and the cleanup-complete signal has not been given. *)
Lemma reentrant_close_resolves_before_cleanup :
  let st := run chromium linux (launched chromium linux (Some 4242%Z) disk)
              [CallGracefullyClose; CallGracefullyClose; ChildExit None (Some "SIGKILL")] in
  (Fulfils ReentrantPath 1 ∈ trace st) ∧
  (FulfillCleanup ∉ trace st) ∧
  removing st = ["/tmp/profile"] ∧
  waitForCleanup st = false.
Proof.
  cbv zeta. split; [|split; [|split]].
  - apply (bool_decide_unpack _). vm_compute. exact I.
  - apply (bool_decide_unpack _). vm_compute. exact I.
  - vm_compute. reflexivity.
  - vm_compute. reflexivity.
Qed.

Lemma reentrant_close_escalates_witness :
  let st := run chromium linux (launched chromium linux (Some 4242%Z) disk)
              [CallGracefullyClose] in
  listeners (step chromium linux st CallGracefullyClose) = [] ∧
  attempts (trace (step chromium linux st CallGracefullyClose)) = attempts (trace st).
Proof.
  intros st.
  assert (reachable chromium linux st) as Hr.
  { exists (Some 4242%Z), disk, [CallGracefullyClose]. split; reflexivity. }
  destruct (reentrant_close_escalates chromium linux st Hr eq_refl eq_refl)
    as (_ & Hattempts & Hlisteners & _).
  split; [exact Hlisteners | exact Hattempts].
Defined.

Lemma kill_is_safe_witness :
  let st := run chromium linux (launched chromium linux (Some 4242%Z) disk)
              [ChildExit (Some 0%Z) None] in
  calls (step chromium linux st CallKill) !! 0
  = Some {| who := Direct; at_ := KillWait |}.
Proof.
  intros st.
  assert (reachable chromium linux st) as Hr.
  { exists (Some 4242%Z), disk, [ChildExit (Some 0%Z) None]. split; reflexivity. }
  destruct (proj2 (proj2 (kill_is_safe chromium linux)) st Hr eq_refl eq_refl)
    as (_ & _ & Hcall & _).
  exact Hcall.
Defined.

Lemma rejected_attempt_escalates_witness :
  let st := run chromium linux (launched chromium linux (Some 4242%Z) disk)
              [CallGracefullyClose] in
  calls (step chromium linux st (AttemptSettled false)) !! 0
  = Some {| who := Direct; at_ := AwaitCleanup |}.
Proof.
  intros st.
  assert (reachable chromium linux st) as Hr.
  { exists (Some 4242%Z), disk, [CallGracefullyClose]. split; reflexivity. }
  destruct (rejected_attempt_escalates chromium linux st 0
              {| who := Direct; at_ := AwaitAttempt |} Hr eq_refl eq_refl eq_refl)
    as (_ & Hcall & _).
  exact Hcall.
Defined.

Lemma first_close_after_exit_still_attempts_witness :
  let st := run chromium linux (launched chromium linux (Some 4242%Z) disk)
              [ChildExit (Some 0%Z) None; Removed 0] in
  trace (step chromium linux st CallGracefullyClose)
  = trace st ++ [Logged browserLog "<gracefully close start>"; AttemptCalled].
Proof.
  intros st.
  assert (reachable chromium linux st) as Hr.
  { exists (Some 4242%Z), disk, [ChildExit (Some 0%Z) None; Removed 0]. split; reflexivity. }
  destruct (first_close_after_exit_still_attempts chromium linux st Hr eq_refl eq_refl eq_refl)
    as (Htrace & _).
  exact Htrace.
Defined.

(** C10 as stated fails while the removal started by the exit observer
    is in flight: the first invocation comes after the exit, the caller's
    operation is called and settles, and the promise is still pending. *)
Lemma first_close_after_exit_may_stay_pending :
  let st := run chromium linux (launched chromium linux (Some 4242%Z) disk)
              [ChildExit (Some 0%Z) None; CallGracefullyClose; AttemptSettled true] in
  processClosed st = true ∧
  (AttemptCalled ∈ trace st) ∧
  calls st = [{| who := Direct; at_ := AwaitCleanup |}] ∧
  (Fulfils FirstPath 0 ∉ trace st) ∧
  waitForCleanup st = false.
Proof.
  cbv zeta. split; [|split; [|split; [|split]]].
  - vm_compute. reflexivity.
  - apply (bool_decide_unpack _). vm_compute. exact I.
  - vm_compute. reflexivity.
  - apply (bool_decide_unpack _). vm_compute. exact I.
  - vm_compute. reflexivity.
Qed.

(** C9 as stated fails: without the [pipe] option both readers are
    attached all the same. *)
Lemma readers_attached_without_pipe :
  pipe chromium = false ∧
  ∃ st, launchProcess chromium linux (Some 4242%Z) disk = Running st ∧
        readers st = [(Stdout, browserStdOutLog); (Stderr, browserStdErrLog)] ∧
        (ReaderAttached Stdout browserStdOutLog ∈ trace st) ∧
        (ReaderAttached Stderr browserStdErrLog ∈ trace st).
Proof.
  split; [reflexivity|]. eexists. split; [reflexivity|]. split; [reflexivity|].
  split; apply (bool_decide_unpack _); vm_compute; exact I.
Qed.

(** C8, where the code falls short of it: [kill] with two temporary
    directories of which the first cannot be removed.  The synchronous
    loop stops at the exception of the first removal; the second
    directory is not attempted and is still there. *)
Lemma sync_removal_stops_at_first_failure :
  let st := step firefox linux (launched firefox linux (Some 77%Z) busy_disk) CallKill in
  (RemovedSync "/tmp/a" false ∈ trace st) ∧
  (RemovedSync "/tmp/b" true ∉ trace st) ∧
  (RemovedSync "/tmp/b" false ∉ trace st) ∧
  fs st !! "/tmp/b" = Some Removable ∧
  calls st = [{| who := Direct; at_ := KillWait |}].
Proof.
  cbv zeta. split; [|split; [|split; [|split]]].
  - apply (bool_decide_unpack _). vm_compute. exact I.
  - apply (bool_decide_unpack _). vm_compute. exact I.
  - apply (bool_decide_unpack _). vm_compute. exact I.
  - vm_compute. reflexivity.
  - vm_compute. reflexivity.
Qed.

Lemma graceful_attempt_made_at_most_once_witness :
  let st := run chromium linux (launched chromium linux (Some 4242%Z) disk)
              [CallGracefullyClose; Signal SIGINT; CallGracefullyClose] in
  attempts (trace st) ≤ 1.
Proof.
  intros st. refine (proj1 (graceful_attempt_made_at_most_once chromium linux st _)).
  exists (Some 4242%Z), disk, [CallGracefullyClose; Signal SIGINT; CallGracefullyClose].
  split; reflexivity.
Defined.



Lemma kill_signals_target_the_child_witness :
  let st := run chromium linux (launched chromium linux (Some 4242%Z) disk) [CallKill] in
  ∃ pid delivered,
    child_pid st = Some pid ∧ pid ≠ 0%Z ∧
    GroupKill 4242 true
    = (if String.eqb linux "win32" then Taskkill pid delivered else GroupKill pid delivered) ∧
    (String.eqb linux "win32" = false →
     Spawned (executablePath chromium) (args chromium) true (cwd chromium) (stdio chromium)
       ∈ trace st).
Proof.
  intros st.
  refine (kill_signals_target_the_child chromium linux st (GroupKill 4242 true) _ _ I).
  - exists (Some 4242%Z), disk, [CallKill]. split; reflexivity.
  - apply (bool_decide_unpack _). vm_compute. exact I.
Defined.

Lemma host_exits_only_after_sigint_close_witness :
  let st := run chromium linux (launched chromium linux (Some 4242%Z) disk)
              [Signal SIGINT; AttemptSettled true; ChildExit (Some 0%Z) None; Removed 0] in
  (∃ code, HostExit code ∈ trace st)
  ↔ ∃ id c p, calls st !! id = Some c ∧ who c = FromSIGINT ∧ at_ c = Fulfilled p.
Proof.
  intros st. refine (proj2 (host_exits_only_after_sigint_close chromium linux st _)).
  exists (Some 4242%Z), disk,
    [Signal SIGINT; AttemptSettled true; ChildExit (Some 0%Z) None; Removed 0].
  split; reflexivity.
Defined.

Lemma host_exit_kills_child_witness :
  let st := launched chromium linux (Some 4242%Z) disk in
  ∃ pid, child_pid st = Some pid ∧
    trace (step chromium linux st HostExiting)
    = trace st
      ++ [Logged browserLog "<kill>"; ListenersRemoved;
          if String.eqb linux "win32"
          then Taskkill pid (alive st) else GroupKill pid (alive st)]
      ++ (sync_removals (tempDirectories chromium) (fs st)).1 ∧
    alive (step chromium linux st HostExiting) = false ∧
    listeners (step chromium linux st HostExiting) = [] ∧
    fs (step chromium linux st HostExiting)
    = (sync_removals (tempDirectories chromium) (fs st)).2.
Proof.
  intros st.
  assert (reachable chromium linux st) as Hr.
  { exists (Some 4242%Z), disk, []. split; reflexivity. }
  refine (proj2 (proj2 (host_exit_kills_child chromium linux st Hr eq_refl)) _ eq_refl).
  vm_compute. discriminate.
Defined.


Lemma cleanup_completes_when_removals_finish_witness :
  let st := run chromium linux (launched chromium linux (Some 4242%Z) disk)
              [ChildExit (Some 0%Z) None; Removed 0] in
  processClosed st = true ∧ removing st = [].
Proof.
  intros st.
  refine (proj1 (cleanup_completes_when_removals_finish chromium linux st _) eq_refl).
  exists (Some 4242%Z), disk, [ChildExit (Some 0%Z) None; Removed 0].
  split; reflexivity.
Defined.


Lemma kill_sends_no_signal_after_handle_kill_witness :
  let st := launched chromium linux (Some 4242%Z) disk in
  let st2 := step chromium linux (step chromium linux st HandleKill) CallKill in
  alive st2 = true ∧ listeners st2 = [].
Proof.
  intros st st2.
  assert (reachable chromium linux st) as Hr.
  { exists (Some 4242%Z), disk, []. split; reflexivity. }
  exact (proj2 (proj2 (kill_sends_no_signal_after_handle_kill chromium linux st
           Hr eq_refl eq_refl eq_refl))).
Defined.

Lemma async_removal_completes_whatever_the_outcome_witness :
  let st := run firefox linux (launched firefox linux (Some 77%Z) busy_disk)
              [ChildExit (Some 0%Z) None] in
  removing (step firefox linux st (Removed 0)) = delete 0 (removing st).
Proof.
  intros st.
  refine (proj1 (proj2 (proj2 (async_removal_completes_whatever_the_outcome firefox linux
            st 0 "/tmp/a" _ eq_refl eq_refl)))).
  exists (Some 77%Z), busy_disk, [ChildExit (Some 0%Z) None]. split; reflexivity.
Defined.


Lemma no_invocation_left_waiting_witness :
  let st := run chromium linux (launched chromium linux (Some 4242%Z) disk)
              [CallGracefullyClose] in
  gracefullyClosing st = true ∧ attempts (trace st) = 1.
Proof.
  intros st.
  refine (proj2 (proj2 (no_invocation_left_waiting chromium linux st 0
            {| who := Direct; at_ := AwaitAttempt |} _ eq_refl eq_refl)) eq_refl).
  exists (Some 4242%Z), disk, [CallGracefullyClose]. split; reflexivity.
Defined.

Lemma asynchronous_removals_accounted_witness :
  let st := run firefox linux (launched firefox linux (Some 77%Z) busy_disk)
              [ChildExit (Some 0%Z) None; Removed 1] in
  started (trace st) = 2 ∧ completed (trace st) + length (removing st) = started (trace st).
Proof.
  intros st. refine (asynchronous_removals_accounted firefox linux st _).
  exists (Some 77%Z), busy_disk, [ChildExit (Some 0%Z) None; Removed 1].
  split; reflexivity.
Defined.

Lemma sigint_close_ends_host_witness :
  let st := run chromium linux (launched chromium linux (Some 4242%Z) disk)
              [Signal SIGINT; Signal SIGINT; ChildExit None (Some "SIGKILL")] in
  HostExit 130 ∈ trace st ∧ hostExited st = true.
Proof.
  intros st.
  refine (proj1 (sigint_close_ends_host chromium linux st 1
            {| who := FromSIGINT; at_ := Fulfilled ReentrantPath |} _ eq_refl eq_refl)
            (or_intror eq_refl) eq_refl).
  exists (Some 4242%Z), disk, [Signal SIGINT; Signal SIGINT; ChildExit None (Some "SIGKILL")].
  split; reflexivity.
Defined.

Lemma kill_on_running_child_witness :
  let st := launched chromium linux (Some 4242%Z) disk in
  ∃ pid, child_pid st = Some pid ∧
    (kill_attempt linux st).1
    = [if String.eqb linux "win32"
       then Taskkill pid (alive st) else GroupKill pid (alive st)] ∧
    alive (step chromium linux st CallKill) = false.
Proof.
  intros st.
  assert (reachable chromium linux st) as Hr.
  { exists (Some 4242%Z), disk, []. split; reflexivity. }
  exact (proj1 (proj2 (proj2 (proj2 (kill_on_running_child chromium linux st
           Hr eq_refl eq_refl)))) eq_refl).
Defined.

Lemma first_close_keeps_listeners_witness :
  let st := run chromium linux (launched chromium linux (Some 4242%Z) disk)
              [ChildLine Stderr "DevTools listening"] in
  listeners (step chromium linux st CallGracefullyClose) = listeners st.
Proof.
  intros st.
  assert (reachable chromium linux st) as Hr.
  { exists (Some 4242%Z), disk, [ChildLine Stderr "DevTools listening"]. split; reflexivity. }
  exact (proj1 (proj2 (proj2 (proj2 (first_close_keeps_listeners chromium linux st
           Hr eq_refl eq_refl))))).
Defined.

End LauncherFacts.
